(** * A segmented concurrent hash map, executed serially

    Shallow embedding of [concurrentmap.go] (the CAS-based [ConcurrentMap]
    with its [Segment]) and of its lock-striped sibling ([WLockingMap] with
    [wLockingSegment]).  Go pointers to [Entry] are addresses into an explicit
    heap, so that cloning, sharing and in-place updates of the [value] field
    are visible in the model.  Only serial executions are covered: locks are
    not modelled and every atomic load returns the value stored last. *)

From Stdlib Require Import ZArith Lia Bool String.
From Stdlib Require Import Floats.SpecFloat.
From stdpp Require Import base tactics numbers option list.

Local Open Scope Z_scope.

(** ** Machine integers *)

(** Go's [uint32], [int32] and [int] (64 bits) are integers reduced into
    their range after every operation that can leave it. *)
Definition u32 (z : Z) : Z := z mod 2 ^ 32.
Definition i32 (z : Z) : Z := (z + 2 ^ 31) mod 2 ^ 32 - 2 ^ 31.
Definition int (z : Z) : Z := (z + 2 ^ 63) mod 2 ^ 64 - 2 ^ 63.

(** Slice indexing [l[i]] and assignment [l[i] = x]; Go panics out of range,
    which is [None] here. *)
Definition index {A} (l : list A) (i : Z) : option A :=
  if 0 <=? i then l !! Z.to_nat i else None.

Definition store {A} (l : list A) (i : Z) (x : A) : option (list A) :=
  if (0 <=? i) && (i <? Z.of_nat (length l)) then Some (<[Z.to_nat i := x]> l)
  else None.

(** ** float32 *)

(** IEEE 754 binary32: 24 bits of precision, exponent bound 128. *)
Definition float32 : Type := spec_float.

Definition f32_of_int (z : Z) : float32 := binary_normalize 24 128 z 0 false.
Definition f32_mul : float32 → float32 → float32 := SFmul 24 128.
(** [a > b] on floats; false as soon as an operand is NaN. *)
Definition f32_gt (a b : float32) : bool := SFltb b a.
Definition f32_le (a b : float32) : bool := SFleb a b.

(** The conversion [int32(f)] truncates towards zero.  When the result does
    not fit, Go leaves the value to the implementation; the value taken here
    is the one amd64 produces. *)
Definition int32_of_f32 (f : float32) : Z :=
  match f with
  | S754_zero _ => 0
  | S754_finite s m e =>
      let a := if 0 <=? e then Z.pos m * 2 ^ e else Z.pos m / 2 ^ (- e) in
      let t := if s then - a else a in
      if (- 2 ^ 31 <=? t) && (t <? 2 ^ 31) then t else - 2 ^ 31
  | _ => - 2 ^ 31
  end.

(** ** Constants *)

Definition DEFAULT_INITIAL_CAPACITY : Z := 64.
Definition DEFAULT_LOAD_FACTOR : float32 := binary_normalize 24 128 3 (-2) false.
Definition DEFAULT_CONCURRENCY_LEVEL : Z := 16.
Definition MAXIMUM_CAPACITY : Z := Z.shiftl 1 30.
Definition MAX_SEGMENTS : Z := Z.shiftl 1 16.

Inductive Error : Set :=
  | NilKeyError
  | NilValueError
  | IllegalArgError
  | NoSuchElementException
  | IllegalStateException.

(** Outcome of a call that may panic.  [Diverged] stands for a loop that
    did not finish within the iterations granted to it. *)
Inductive result (A : Type) : Type :=
  | Done (a : A)
  | Panic (e : Error)
  | Diverged.
Arguments Done {A} a.
Arguments Panic {A} e.
Arguments Diverged {A}.

#[global] Instance result_bind : MBind result := λ A B f r,
  match r with
  | Done a => f a
  | Panic e => Panic e
  | Diverged => Diverged
  end.

(** ** Entries, tables, segments *)

(** An address of an [Entry] in the heap; [option addr] is a [*Entry],
    [None] being [nil]. *)
Abbreviation addr := nat.

Section Model.
Context {Key Value : Type}.
Context `{!EqDecision Key, !EqDecision Value}.

(** Modelled from the spec: [hashI] and [hash2] are defined outside the
    files at hand; hashing is "a provided function hash(key) → u32" whose
    mixer "is not semantically significant", so both are parameters.  *)
Variable hashI : Key → Z.
Variable hash2 : Z → Z.

(** An [interface{}] holding a key or a value: [None] is [nil]. *)
Definition iface (A : Type) : Type := option A.

(** Modelled from the spec: [isNil] is defined outside the files at hand;
    it recognises the "null/absent" key or value. *)
Definition isNil {A} (x : iface A) : bool :=
  match x with None => true | Some _ => false end.

Record Entry : Type := mkEntry {
  key : Key;
  hash : Z;
  value : iface Value;
  next : option addr
}.

(** The heap is the list of the entries allocated so far; a bucket array
    is a list of heads. *)
Abbreviation Heap := (list Entry).
Abbreviation Table := (list (option addr)).

(** [&Entry{...}]: a fresh object, at an address never used before. *)
Definition alloc (h : Heap) (e : Entry) : Heap * addr := (h ++ [e], length h).

(** Atomic store or swap of the [value] field of the entry at [a]. *)
Definition storeValue (h : Heap) (a : addr) (v : iface Value) : option Heap :=
  e ← h !! a;
  Some (<[a := mkEntry (key e) (hash e) v (next e)]> h).

(** [Segment] and [wLockingSegment] have the same fields.  The field
    [pSumCount] points to the [count] of the map that owns the segment:
    the pointee is the [sumCount] of a [SegSt] below.  [pTable] is the
    address of the current bucket array and [table] the array found there;
    arrays that were replaced are not kept.  The [lock] is left out. *)
Record Segment : Type := mkSegment {
  count : Z;
  threshold : Z;
  pTable : nat;
  table : Table;
  loadFactor : float32
}.

(** What a segment method reads and writes: the heap of entries, the
    number of bucket arrays allocated so far (the next one gets this
    number as its address), the counter behind [pSumCount], and the
    segment itself. *)
Record SegSt : Type := mkSegSt {
  heap : Heap;
  ntables : nat;
  sumCount : Z;
  seg : Segment
}.

(** [ConcurrentMap] and [WLockingMap] have the same fields; [mheap] is the
    heap in which the entries of all segments live and [mtables] the number
    of bucket arrays allocated so far. *)
Record ConcurrentMap : Type := mkMap {
  mcount : Z;
  segmentMask : Z;
  segmentShift : Z;
  segments : list Segment;
  mheap : Heap;
  mtables : nat
}.

Definition thresholdFor (len : Z) (lf : float32) : Z :=
  int32_of_f32 (f32_mul (f32_of_int len) lf).

(** [setTable], for a new array at address [p]. *)
Definition setTable (s : Segment) (p : nat) (newTable : Table) : Segment :=
  mkSegment (count s)
            (thresholdFor (Z.of_nat (length newTable)) (loadFactor s))
            p newTable (loadFactor s).

(** [newSegment]: an empty table of [initialCapacity] slots, allocated at
    address [p]. *)
Definition newSegment (p : nat) (initialCapacity : Z) (lf : float32)
  : Segment :=
  setTable (mkSegment 0 0 0 [] lf) p
           (replicate (Z.to_nat initialCapacity) None).

(** ** Construction *)

(** [for ssize < concurrencyLevel { sshift++; ssize = ssize << 1 }] *)
Fixpoint ssizeLoop (fuel : nat) (sshift ssize concurrencyLevel : Z)
  : option (Z * Z) :=
  if ssize <? concurrencyLevel then
    match fuel with
    | O => None
    | S fuel' =>
        ssizeLoop fuel' (int (sshift + 1)) (int (Z.shiftl ssize 1))
                  concurrencyLevel
    end
  else Some (sshift, ssize).

(** [for cap < c { cap <<= 1 }] *)
Fixpoint capLoop (fuel : nat) (cap c : Z) : option Z :=
  if cap <? c then
    match fuel with
    | O => None
    | S fuel' => capLoop fuel' (int (Z.shiftl cap 1)) c
    end
  else Some cap.

(** The body shared, word for word, by [newConcurrentMap3] and
    [newWLockingMap3].  A loop over an [int] that doubles gets 64 rounds. *)
Definition newMap3 (initialCapacity : Z) (loadFactor : float32)
    (concurrencyLevel : Z) : result ConcurrentMap :=
  if negb (f32_gt loadFactor (S754_zero false))
     || (initialCapacity <? 0) || (concurrencyLevel <=? 0)
  then Panic IllegalArgError
  else
    let concurrencyLevel :=
      if concurrencyLevel >? MAX_SEGMENTS then MAX_SEGMENTS
      else concurrencyLevel in
    match ssizeLoop 64 0 1 concurrencyLevel with
    | None => Diverged
    | Some (sshift, ssize) =>
        let initialCapacity :=
          if initialCapacity >? MAXIMUM_CAPACITY then MAXIMUM_CAPACITY
          else initialCapacity in
        let c := Z.quot initialCapacity ssize in
        let c := if int (c * ssize) <? initialCapacity then int (c + 1) else c in
        match capLoop 64 1 c with
        | None => Diverged
        | Some cap =>
            Done (mkMap 0 (int (ssize - 1)) (32 - sshift)
                        ((λ p, newSegment p cap loadFactor)
                           <$> seq 0 (Z.to_nat ssize))
                        [] (Z.to_nat ssize))
        end
    end.

(** A value passed through [...interface{}], with its dynamic type. *)
Inductive Dyn : Type :=
  | DNil
  | DInt (z : Z)
  | DInt32 (z : Z)
  | DInt64 (z : Z)
  | DUint (z : Z)
  | DFloat32 (f : float32)
  | DFloat64 (f : spec_float)
  | DString (s : string)
  | DBool (b : bool)
  | DOther (typeName : string).

(** [x.(int)] and [x.(float32)] in their two-result form. *)
Definition assertInt (x : Dyn) : Z * bool :=
  match x with DInt z => (z, true) | _ => (0, false) end.
Definition assertFloat32 (x : Dyn) : float32 * bool :=
  match x with DFloat32 f => (f, true) | _ => (S754_zero false, false) end.

(** The body shared by [NewConcurrentMap] and [NewWLockingMap]:
    [len(paras) >= i+1] holds exactly when [paras] has an element [i]. *)
Definition NewMap (paras : list Dyn) : result ConcurrentMap :=
  let cap := DEFAULT_INITIAL_CAPACITY in
  let factor := DEFAULT_LOAD_FACTOR in
  let concurrent_lvl := DEFAULT_CONCURRENCY_LEVEL in
  match paras !! 0%nat with
  | Some p => if snd (assertInt p) then Done (fst (assertInt p))
              else Panic IllegalArgError
  | None => Done cap
  end ≫= λ cap,
  match paras !! 1%nat with
  | Some p => if snd (assertFloat32 p) then Done (fst (assertFloat32 p))
              else Panic IllegalArgError
  | None => Done factor
  end ≫= λ factor,
  match paras !! 2%nat with
  | Some p => if snd (assertInt p) then Done (fst (assertInt p))
              else Panic IllegalArgError
  | None => Done concurrent_lvl
  end ≫= λ concurrent_lvl,
  newMap3 cap factor concurrent_lvl.

(** [IsEmpty] and [Size], the same in both maps. *)
Definition IsEmpty (m : ConcurrentMap) : bool := mcount m >? 0.
Definition Size (m : ConcurrentMap) : Z := mcount m.

(** ** Loops over bucket chains *)

(** Every loop that follows [next] pointers takes one round of [fuel] per
    step.  Its callers grant it the number of entries in the heap, which is
    enough for any chain without a cycle. *)

(** [hash & uint32(len(tab)-1)] *)
Definition bucketIndex (tab : Table) (hs : Z) : Z :=
  Z.land hs (u32 (Z.of_nat (length tab) - 1)).

(** [for e != nil && (e.hash != hash || key != e.key) { e = e.next }],
    the search loop of [put], [remove], [replace] and [replaceWithOld]. *)
Fixpoint scan (fuel : nat) (h : Heap) (e : option addr) (ky : Key) (hs : Z)
  : option (option addr) :=
  match e with
  | None => Some None
  | Some a =>
      en ← h !! a;
      if negb (hash en =? hs) || negb (bool_decide (ky = key en)) then
        match fuel with
        | O => None
        | S fuel' => scan fuel' h (next en) ky hs
        end
      else Some (Some a)
  end.

(** The loop of [get]; [readValueUnderLock] re-reads the same field. *)
Fixpoint getLoop (fuel : nat) (h : Heap) (e : option addr) (ky : Key)
    (hs : Z) : option (iface Value) :=
  match e with
  | None => Some None
  | Some a =>
      en ← h !! a;
      if (hash en =? hs) && bool_decide (ky = key en) then
        let v := value en in
        if negb (isNil v) then Some v else Some (value en)
      else
        match fuel with
        | O => None
        | S fuel' => getLoop fuel' h (next en) ky hs
        end
  end.

(** The loop of [containsKey]. *)
Fixpoint containsLoop (fuel : nat) (h : Heap) (e : option addr) (ky : Key)
    (hs : Z) : option bool :=
  match e with
  | None => Some false
  | Some a =>
      en ← h !! a;
      if (hash en =? hs) && bool_decide (ky = key en) then Some true
      else
        match fuel with
        | O => None
        | S fuel' => containsLoop fuel' h (next en) ky hs
        end
  end.

(** [for p := first; p != e; p = p.next { newFirst = &Entry{..., newFirst} }],
    the cloning loop of [remove]. *)
Fixpoint cloneBefore (fuel : nat) (h : Heap) (p : option addr) (e : addr)
    (newFirst : option addr) : option (Heap * option addr) :=
  if bool_decide (p = Some e) then Some (h, newFirst)
  else
    match fuel with
    | O => None
    | S fuel' =>
        a ← p;
        en ← h !! a;
        let (h', c) := alloc h (mkEntry (key en) (hash en) (value en) newFirst) in
        cloneBefore fuel' h' (next en) e (Some c)
    end.

(** ** Rehash *)

(** [for last := next; last != nil; last = last.next { ... }] *)
Fixpoint lastRunLoop (fuel : nat) (h : Heap) (last : option addr)
    (sizeMask lastIdx : Z) (lastRun : addr) : option (Z * addr) :=
  match last with
  | None => Some (lastIdx, lastRun)
  | Some a =>
      match fuel with
      | O => None
      | S fuel' =>
          en ← h !! a;
          let k := Z.land (hash en) (u32 sizeMask) in
          if negb (k =? lastIdx) then lastRunLoop fuel' h (next en) sizeMask k a
          else lastRunLoop fuel' h (next en) sizeMask lastIdx lastRun
      end
  end.

(** [for p := e; p != lastRun; p = p.next { ... }], cloning in front of
    whatever the new bucket holds. *)
Fixpoint cloneRest (fuel : nat) (h : Heap) (newTable : Table)
    (p : option addr) (lastRun : addr) (sizeMask : Z)
  : option (Heap * Table) :=
  if bool_decide (p = Some lastRun) then Some (h, newTable)
  else
    match fuel with
    | O => None
    | S fuel' =>
        a ← p;
        en ← h !! a;
        let k := Z.land (hash en) sizeMask in
        n ← index newTable k;
        let (h', c) := alloc h (mkEntry (key en) (hash en) (value en) n) in
        newTable' ← store newTable k (Some c);
        cloneRest fuel' h' newTable' (next en) lastRun sizeMask
    end.

(** The body of the loop over the old buckets, for the head [e] of one. *)
Definition rehashBucket (h : Heap) (newTable : Table) (e : option addr)
    (sizeMask : Z) : option (Heap * Table) :=
  match e with
  | None => Some (h, newTable)
  | Some a =>
      en ← h !! a;
      let idx := Z.land (hash en) sizeMask in
      match next en with
      | None =>
          newTable' ← store newTable idx (Some a);
          Some (h, newTable')
      | Some _ =>
          '(lastIdx, lastRun) ←
            lastRunLoop (length h) h (next en) sizeMask idx a;
          newTable' ← store newTable lastIdx (Some lastRun);
          cloneRest (length h) h newTable' (Some a) lastRun sizeMask
      end
  end.

(** [for i := 0; i < oldCapacity; i++ { e := oldTable[i]; ... }] *)
Fixpoint rehashLoop (oldTable : Table) (h : Heap) (newTable : Table)
    (sizeMask : Z) : option (Heap * Table) :=
  match oldTable with
  | [] => Some (h, newTable)
  | e :: rest =>
      '(h', newTable') ← rehashBucket h newTable e sizeMask;
      rehashLoop rest h' newTable' sizeMask
  end.

(** What both [rehash] methods do once they decided to grow: a new array
    of [oldCapacity<<1] slots at a fresh address, filled by the loop; the
    new threshold. *)
Definition grow (st : SegSt) : option SegSt :=
  let s := seg st in
  let oldTable := table s in
  let oldCapacity := Z.of_nat (length oldTable) in
  let newTable := replicate (Z.to_nat (int (Z.shiftl oldCapacity 1))) None in
  let sizeMask := u32 (Z.of_nat (length newTable) - 1) in
  '(h', newTable') ← rehashLoop oldTable (heap st) newTable sizeMask;
  Some (mkSegSt h' (S (ntables st)) (sumCount st)
          (mkSegment (count s)
             (thresholdFor (Z.of_nat (length newTable')) (loadFactor s))
             (ntables st) newTable' (loadFactor s))).

(** ** Routing and write-back *)

(** The index computed by [segmentFor]. *)
Definition segmentIndex (m : ConcurrentMap) (hs : Z) : Z :=
  Z.land (Z.shiftr hs (segmentShift m)) (u32 (segmentMask m)).

Definition segmentFor (m : ConcurrentMap) (hs : Z) : option Segment :=
  index (segments m) (segmentIndex m hs).

(** A method runs on the segment [segmentFor] returns, which is a pointer
    into [segments]: its effects are written back in place. *)
Definition enter (m : ConcurrentMap) (s : Segment) : SegSt :=
  mkSegSt (mheap m) (mtables m) (mcount m) s.

Definition leave (m : ConcurrentMap) (i : Z) (st : SegSt) : ConcurrentMap :=
  mkMap (sumCount st) (segmentMask m) (segmentShift m)
        (<[Z.to_nat i := seg st]> (segments m)) (heap st) (ntables st).

(** [clear], the same for both kinds of segment. *)
Definition clear (st : SegSt) : SegSt :=
  let s := seg st in
  let count0 := count s in
  if negb (count0 =? 0) then
    mkSegSt (heap st) (ntables st) (i32 (sumCount st + i32 (-1 * count0)))
      (mkSegment 0 (threshold s) (pTable s)
                 (replicate (length (table s)) None) (loadFactor s))
  else st.

(** [Clear]: the segments are cleared one after the other. *)
Definition Clear (m : ConcurrentMap) : ConcurrentMap :=
  foldl (λ m i,
           match index (segments m) (Z.of_nat i) with
           | Some s => leave m (Z.of_nat i) (clear (enter m s))
           | None => m
           end)
        m (seq 0 (length (segments m))).

(** ** Iterator

    [MapIterator] and [WLockingMapIterator] are the same but for the type
    of the map behind [cm]; the map is passed to the methods here.  The
    slice [currentTable] is the bucket array as it was when the iterator
    loaded it. *)
Record MapIterator : Type := mkIter {
  nextSegmentIndex : Z;
  nextTableIndex : Z;
  currentTable : Table;
  nextEntry : option addr;
  lastReturned : option addr
}.











End Model.

Abbreviation Heap := (list Entry).
Abbreviation Table := (list (option addr)).

(** ** The lock-striped variant: [wLockingSegment] and [WLockingMap] *)

Module WLocking.
Section Ops.
Context {Key Value : Type}.
Context `{!EqDecision Key, !EqDecision Value}.
Variable hashI : Key → Z.
Variable hash2 : Z → Z.

Abbreviation SegSt := (@SegSt Key Value).
Abbreviation ConcurrentMap := (@ConcurrentMap Key Value).

Definition rehash (st : SegSt) : option SegSt :=
  let oldCapacity := Z.of_nat (length (table (seg st))) in
  if oldCapacity >=? MAXIMUM_CAPACITY then Some st
  else grow st.

Definition getFirst (st : SegSt) (hs : Z) : option (option addr) :=
  let tab := table (seg st) in
  index tab (bucketIndex tab hs).

Definition get (st : SegSt) (ky : Key) (hs : Z) : option (iface Value) :=
  if negb (count (seg st) =? 0) then
    e ← getFirst st hs;
    getLoop (length (heap st)) (heap st) e ky hs
  else Some None.

Definition containsKey (st : SegSt) (ky : Key) (hs : Z) : option bool :=
  if negb (count (seg st) =? 0) then
    e ← getFirst st hs;
    containsLoop (length (heap st)) (heap st) e ky hs
  else Some false.

Definition replaceWithOld (st : SegSt) (ky : Key) (hs : Z)
    (oldValue newValue : iface Value) : option (SegSt * bool) :=
  e ← getFirst st hs;
  e ← scan (length (heap st)) (heap st) e ky hs;
  match e with
  | Some a =>
      en ← heap st !! a;
      if bool_decide (oldValue = value en) then
        h' ← storeValue (heap st) a newValue;
        Some (mkSegSt h' (ntables st) (sumCount st) (seg st), true)
      else Some (st, false)
  | None => Some (st, false)
  end.

Definition replace (st : SegSt) (ky : Key) (hs : Z) (newValue : iface Value)
  : option (SegSt * iface Value) :=
  e ← getFirst st hs;
  e ← scan (length (heap st)) (heap st) e ky hs;
  match e with
  | Some a =>
      en ← heap st !! a;
      h' ← storeValue (heap st) a newValue;
      Some (mkSegSt h' (ntables st) (sumCount st) (seg st), value en)
  | None => Some (st, None)
  end.

(** [put] after its capacity check; [c] is the local that holds the count
    read at the start of [put], plus one. *)
Definition putTail (st : SegSt) (c : Z) (ky : Key) (hs : Z) (v : iface Value)
    (onlyIfAbsent : bool) : option (SegSt * iface Value) :=
  let s := seg st in
  let tab := table s in
  let idx := bucketIndex tab hs in
  first ← index tab idx;
  e ← scan (length (heap st)) (heap st) first ky hs;
  match e with
  | Some a =>
      en ← heap st !! a;
      if negb onlyIfAbsent then
        h' ← storeValue (heap st) a v;
        Some (mkSegSt h' (ntables st) (sumCount st) s, value en)
      else Some (st, value en)
  | None =>
      let (h', a) := alloc (heap st) (mkEntry ky hs v first) in
      tab' ← store tab idx (Some a);
      Some (mkSegSt h' (ntables st) (i32 (sumCount st + 1))
              (mkSegment c (threshold s) (pTable s) tab' (loadFactor s)),
            None)
  end.

Definition put (st : SegSt) (ky : Key) (hs : Z) (v : iface Value)
    (onlyIfAbsent : bool) : option (SegSt * iface Value) :=
  let c := count (seg st) in
  st ← (if c >? threshold (seg st) then rehash st else Some st);
  let c := i32 (c + 1) in
  putTail st c ky hs v onlyIfAbsent.

Definition remove (st : SegSt) (ky : Key) (hs : Z) (v : iface Value)
  : option (SegSt * iface Value) :=
  let s := seg st in
  let c := i32 (count s - 1) in
  let tab := table s in
  let idx := bucketIndex tab hs in
  first ← index tab idx;
  e ← scan (length (heap st)) (heap st) first ky hs;
  match e with
  | Some a =>
      en ← heap st !! a;
      let v0 := value en in
      if isNil v || bool_decide (v = v0) then
        '(h', newFirst) ←
          cloneBefore (length (heap st)) (heap st) first a (next en);
        tab' ← store tab idx newFirst;
        Some (mkSegSt h' (ntables st) (i32 (sumCount st + -1))
                (mkSegment c (threshold s) (pTable s) tab' (loadFactor s)),
              v0)
      else Some (st, None)
  | None => Some (st, None)
  end.

(** *** The map methods: validation, routing, delegation

    A method returns the new state of the map with the two results of
    the Go method; [None] when the run gets stuck. *)

Definition Get (m : ConcurrentMap) (ky : iface Key)
  : option (iface Value * option Error) :=
  match ky with
  | None => Some (None, Some NilKeyError)
  | Some k =>
      let hs := hash2 (hashI k) in
      s ← segmentFor m hs;
      v ← get (enter m s) k hs;
      Some (v, None)
  end.

Definition ContainsKey (m : ConcurrentMap) (ky : iface Key)
  : option (bool * option Error) :=
  match ky with
  | None => Some (false, Some NilKeyError)
  | Some k =>
      let hs := hash2 (hashI k) in
      s ← segmentFor m hs;
      b ← containsKey (enter m s) k hs;
      Some (b, None)
  end.

Definition putWith (onlyIfAbsent : bool) (m : ConcurrentMap)
    (ky : iface Key) (v : iface Value)
  : option (ConcurrentMap * (iface Value * option Error)) :=
  match ky with
  | None => Some (m, (None, Some NilKeyError))
  | Some k =>
      if isNil v then Some (m, (None, Some NilValueError))
      else
        let hs := hash2 (hashI k) in
        s ← segmentFor m hs;
        '(st, previous) ← put (enter m s) k hs v onlyIfAbsent;
        Some (leave m (segmentIndex m hs) st, (previous, None))
  end.

Definition Put := putWith false.
Definition PutIfAbsent := putWith true.

Definition Remove (m : ConcurrentMap) (ky : iface Key)
  : option (ConcurrentMap * (iface Value * option Error)) :=
  match ky with
  | None => Some (m, (None, Some NilKeyError))
  | Some k =>
      let hs := hash2 (hashI k) in
      s ← segmentFor m hs;
      '(st, previous) ← remove (enter m s) k hs None;
      Some (leave m (segmentIndex m hs) st, (previous, None))
  end.

Definition RemoveEntry (m : ConcurrentMap) (ky : iface Key) (v : iface Value)
  : option (ConcurrentMap * (bool * option Error)) :=
  match ky with
  | None => Some (m, (false, Some NilKeyError))
  | Some k =>
      if isNil v then Some (m, (false, Some NilValueError))
      else
        let hs := hash2 (hashI k) in
        s ← segmentFor m hs;
        '(st, previous) ← remove (enter m s) k hs v;
        Some (leave m (segmentIndex m hs) st, (negb (isNil previous), None))
  end.

Definition CompareAndReplace (m : ConcurrentMap) (ky : iface Key)
    (oldValue newValue : iface Value)
  : option (ConcurrentMap * (bool * option Error)) :=
  match ky with
  | None => Some (m, (false, Some NilKeyError))
  | Some k =>
      if isNil oldValue || isNil newValue
      then Some (m, (false, Some NilValueError))
      else
        let hs := hash2 (hashI k) in
        s ← segmentFor m hs;
        '(st, ok) ← replaceWithOld (enter m s) k hs oldValue newValue;
        Some (leave m (segmentIndex m hs) st, (ok, None))
  end.

Definition Replace (m : ConcurrentMap) (ky : iface Key) (v : iface Value)
  : option (ConcurrentMap * (iface Value * option Error)) :=
  match ky with
  | None => Some (m, (None, Some NilKeyError))
  | Some k =>
      if isNil v then Some (m, (None, Some NilValueError))
      else
        let hs := hash2 (hashI k) in
        s ← segmentFor m hs;
        '(st, previous) ← replace (enter m s) k hs v;
        Some (leave m (segmentIndex m hs) st, (previous, None))
  end.

(** [PutAll]: [kvs] is the Go map, [None] when it is nil, with its pairs
    in the order [range] yields them.  A nil map sets the error and the
    loop runs all the same, over nothing; what [Put] returns is dropped,
    its error too. *)
Definition PutAll (m : ConcurrentMap)
    (kvs : iface (list (iface Key * iface Value)))
  : option (ConcurrentMap * option string) :=
  let err := if isNil kvs then Some "Cannot copy nil map"%string else None in
  m' ← foldl (λ om '(k, v), m ← om; fst <$> Put m k v) (Some m)
             (default [] kvs);
  Some (m', err).

(** [Remove] of the iterator: the key of the entry returned last is
    removed from the map, and what [Remove] returns is dropped. *)
Definition IteratorRemove (m : ConcurrentMap) (it : MapIterator)
  : option (result (ConcurrentMap * MapIterator)) :=
  match lastReturned it with
  | None => Some (Panic IllegalStateException)
  | Some a =>
      en ← mheap m !! a;
      '(m', _) ← Remove m (Some (key en));
      Some (Done (m', mkIter (nextSegmentIndex it) (nextTableIndex it)
                        (currentTable it) (nextEntry it) None))
  end.

End Ops.
End WLocking.

(** ** The CAS-based variant: [Segment] and [ConcurrentMap]

    The writers retry in a [for { ... continue ... }] loop; [fuel] bounds
    the number of rounds of that loop. *)

Module LockFree.
Section Ops.
Context {Key Value : Type}.
Context `{!EqDecision Key, !EqDecision Value}.
Variable hashI : Key → Z.
Variable hash2 : Z → Z.

Abbreviation SegSt := (@SegSt Key Value).
Abbreviation ConcurrentMap := (@ConcurrentMap Key Value).

(** The lock is taken and released at once; then the test of [put] is
    made again. *)
Definition rehash (st : SegSt) : option SegSt :=
  if count (seg st) >? threshold (seg st) then
    let oldCapacity := Z.of_nat (length (table (seg st))) in
    if oldCapacity >=? MAXIMUM_CAPACITY then Some st
    else grow st
  else Some st.

(** [getFirst] returns the head of the bucket, the address of the array
    it was read from, and the index of the bucket. *)
Definition getFirst (st : SegSt) (hs : Z) : option (option addr * nat * Z) :=
  let tab := pTable (seg st) in
  let table := table (seg st) in
  let idx := bucketIndex table hs in
  first ← index table idx;
  Some (first, tab, idx).

(** [atomic.LoadPointer(&tab[idx])] for the array at address [ptable].
    Only the current array is kept, so a read of a replaced one is stuck. *)
Definition load (st : SegSt) (ptable : nat) (idx : Z) : option (option addr) :=
  if bool_decide (ptable = pTable (seg st)) then index (table (seg st)) idx
  else None.

Definition withHeap (st : SegSt) (h : Heap) : SegSt :=
  mkSegSt h (ntables st) (sumCount st) (seg st).

Definition withTable (st : SegSt) (tab : Table) : SegSt :=
  let s := seg st in
  mkSegSt (heap st) (ntables st) (sumCount st)
    (mkSegment (count s) (threshold s) (pTable s) tab (loadFactor s)).

(** [atomic.CompareAndSwapPointer(&tab[idx], old, new)] *)
Definition cas (st : SegSt) (ptable : nat) (idx : Z) (old new : option addr)
  : option (SegSt * bool) :=
  cur ← load st ptable idx;
  if bool_decide (cur = old) then
    tab' ← store (table (seg st)) idx new;
    Some (withTable st tab', true)
  else Some (st, false).

(** [atomic.AddInt32(&this.count, d); atomic.AddInt32(this.pSumCount, d)] *)
Definition addCounts (st : SegSt) (d : Z) : SegSt :=
  let s := seg st in
  mkSegSt (heap st) (ntables st) (i32 (sumCount st + d))
    (mkSegment (i32 (count s + d)) (threshold s) (pTable s) (table s)
               (loadFactor s)).

Definition get (st : SegSt) (ky : Key) (hs : Z) : option (iface Value) :=
  if negb (count (seg st) =? 0) then
    '(first, _, _) ← getFirst st hs;
    getLoop (length (heap st)) (heap st) first ky hs
  else Some None.

Definition containsKey (st : SegSt) (ky : Key) (hs : Z) : option bool :=
  if negb (count (seg st) =? 0) then
    '(first, _, _) ← getFirst st hs;
    containsLoop (length (heap st)) (heap st) first ky hs
  else Some false.

(** In the loops below [first], [ptable], [idx] and [e] are the local
    variables of the method at the top of a round.  A test
    [first != atomic.LoadPointer(&tab[idx])] followed by
    [first = atomic.LoadPointer(&tab[idx])] reads the same slot twice with
    nothing in between: the slot is read once. *)

Fixpoint replaceWithOldLoop (fuel : nat) (st : SegSt) (first : option addr)
    (ptable : nat) (idx : Z) (e : option addr) (ky : Key) (hs : Z)
    (oldValue newValue : iface Value) : option (SegSt * bool) :=
  match fuel with
  | O => None
  | S fuel' =>
      let again (st : SegSt) first ptable idx :=
        replaceWithOldLoop fuel' st first ptable idx first ky hs
                           oldValue newValue in
      e ← scan (length (heap st)) (heap st) e ky hs;
      cur ← load st ptable idx;
      if negb (bool_decide (first = cur)) then again st cur ptable idx
      else
        '(st, replaced) ←
          match e with
          | Some a =>
              en ← heap st !! a;
              if bool_decide (oldValue = value en) then
                h' ← storeValue (heap st) a newValue;
                Some (withHeap st h', true)
              else Some (st, false)
          | None => Some (st, false)
          end;
        cur ← load st ptable idx;
        if negb (bool_decide (first = cur)) then again st cur ptable idx
        else if negb (bool_decide (ptable = pTable (seg st))) then
          '(first, ptable, idx) ← getFirst st hs;
          again st first ptable idx
        else Some (st, replaced)
  end.

Definition replaceWithOld (fuel : nat) (st : SegSt) (ky : Key) (hs : Z)
    (oldValue newValue : iface Value) : option (SegSt * bool) :=
  '(first, ptable, idx) ← getFirst st hs;
  replaceWithOldLoop fuel st first ptable idx first ky hs oldValue newValue.

Fixpoint replaceLoop (fuel : nat) (st : SegSt) (first : option addr)
    (ptable : nat) (idx : Z) (e : option addr) (ky : Key) (hs : Z)
    (newValue : iface Value) : option (SegSt * iface Value) :=
  match fuel with
  | O => None
  | S fuel' =>
      let again (st : SegSt) first ptable idx :=
        replaceLoop fuel' st first ptable idx first ky hs newValue in
      e ← scan (length (heap st)) (heap st) e ky hs;
      cur ← load st ptable idx;
      if negb (bool_decide (first = cur)) then again st cur ptable idx
      else
        '(st, oldValue) ←
          match e with
          | Some a =>
              en ← heap st !! a;
              h' ← storeValue (heap st) a newValue;
              Some (withHeap st h', value en)
          | None => Some (st, None)
          end;
        cur ← load st ptable idx;
        if negb (bool_decide (first = cur)) then again st cur ptable idx
        else if negb (bool_decide (ptable = pTable (seg st))) then
          '(first, ptable, idx) ← getFirst st hs;
          again st first ptable idx
        else Some (st, oldValue)
  end.

Definition replace (fuel : nat) (st : SegSt) (ky : Key) (hs : Z)
    (newValue : iface Value) : option (SegSt * iface Value) :=
  '(first, ptable, idx) ← getFirst st hs;
  replaceLoop fuel st first ptable idx first ky hs newValue.

Fixpoint putLoop (fuel : nat) (st : SegSt) (first : option addr)
    (ptable : nat) (idx : Z) (e : option addr) (ky : Key) (hs : Z)
    (v : iface Value) (onlyIfAbsent : bool) : option (SegSt * iface Value) :=
  match fuel with
  | O => None
  | S fuel' =>
      let again (st : SegSt) first ptable idx :=
        putLoop fuel' st first ptable idx first ky hs v onlyIfAbsent in
      let finish (st : SegSt) (added : bool) (oldValue : iface Value) :=
        if negb (bool_decide (ptable = pTable (seg st))) then
          '(first, ptable, idx) ← getFirst st hs;
          again st first ptable idx
        else Some (if added then addCounts st 1 else st, oldValue) in
      e ← scan (length (heap st)) (heap st) e ky hs;
      cur ← load st ptable idx;
      if negb (bool_decide (first = cur)) then again st cur ptable idx
      else
        match e with
        | Some a =>
            en ← heap st !! a;
            st ← (if negb onlyIfAbsent then
                    h' ← storeValue (heap st) a v; Some (withHeap st h')
                  else Some st);
            cur ← load st ptable idx;
            if negb (bool_decide (first = cur)) then again st cur ptable idx
            else finish st false (value en)
        | None =>
            let (h', a) := alloc (heap st) (mkEntry ky hs v first) in
            '(st, swapped) ← cas (withHeap st h') ptable idx first (Some a);
            if swapped : bool then finish st true None
            else
              cur ← load st ptable idx;
              again st cur ptable idx
        end
  end.

Definition put (fuel : nat) (st : SegSt) (ky : Key) (hs : Z)
    (v : iface Value) (onlyIfAbsent : bool) : option (SegSt * iface Value) :=
  let c := count (seg st) in
  st ← (if c >? threshold (seg st) then rehash st else Some st);
  '(first, ptable, idx) ← getFirst st hs;
  putLoop fuel st first ptable idx first ky hs v onlyIfAbsent.

Fixpoint removeLoop (fuel : nat) (st : SegSt) (first : option addr)
    (ptable : nat) (idx : Z) (e : option addr) (ky : Key) (hs : Z)
    (v : iface Value) : option (SegSt * iface Value) :=
  match fuel with
  | O => None
  | S fuel' =>
      let again (st : SegSt) first ptable idx :=
        removeLoop fuel' st first ptable idx first ky hs v in
      let finish (st : SegSt) (removed : bool) (oldValue : iface Value) :=
        if negb (bool_decide (ptable = pTable (seg st))) then
          '(first, ptable, idx) ← getFirst st hs;
          again st first ptable idx
        else Some (if removed then addCounts st (-1) else st, oldValue) in
      e ← scan (length (heap st)) (heap st) e ky hs;
      cur ← load st ptable idx;
      if negb (bool_decide (first = cur)) then again st cur ptable idx
      else
        match e with
        | Some a =>
            en ← heap st !! a;
            let v0 := value en in
            if isNil v || bool_decide (v = v0) then
              '(h', newFirst) ←
                cloneBefore (length (heap st)) (heap st) first a (next en);
              '(st, swapped) ← cas (withHeap st h') ptable idx first newFirst;
              if swapped : bool then finish st true v0
              else
                cur ← load st ptable idx;
                again st cur ptable idx
            else
              cur ← load st ptable idx;
              if negb (bool_decide (first = cur)) then again st cur ptable idx
              else finish st false None
        | None => finish st false None
        end
  end.

Definition remove (fuel : nat) (st : SegSt) (ky : Key) (hs : Z)
    (v : iface Value) : option (SegSt * iface Value) :=
  '(first, ptable, idx) ← getFirst st hs;
  removeLoop fuel st first ptable idx first ky hs v.

(** *** The map methods *)

Definition Get (m : ConcurrentMap) (ky : iface Key)
  : option (iface Value * option Error) :=
  match ky with
  | None => Some (None, Some NilKeyError)
  | Some k =>
      let hs := hash2 (hashI k) in
      s ← segmentFor m hs;
      v ← get (enter m s) k hs;
      Some (v, None)
  end.

Definition ContainsKey (m : ConcurrentMap) (ky : iface Key)
  : option (bool * option Error) :=
  match ky with
  | None => Some (false, Some NilKeyError)
  | Some k =>
      let hs := hash2 (hashI k) in
      s ← segmentFor m hs;
      b ← containsKey (enter m s) k hs;
      Some (b, None)
  end.

(** [Put] is [putWith false] and [PutIfAbsent] is [putWith true]: the two
    methods differ in the last argument of [put] only. *)
Definition putWith (onlyIfAbsent : bool) (fuel : nat) (m : ConcurrentMap)
    (ky : iface Key) (v : iface Value)
  : option (ConcurrentMap * (iface Value * option Error)) :=
  match ky with
  | None => Some (m, (None, Some NilKeyError))
  | Some k =>
      if isNil v then Some (m, (None, Some NilValueError))
      else
        let hs := hash2 (hashI k) in
        s ← segmentFor m hs;
        '(st, previous) ← put fuel (enter m s) k hs v onlyIfAbsent;
        Some (leave m (segmentIndex m hs) st, (previous, None))
  end.

Definition Put := putWith false.
Definition PutIfAbsent := putWith true.

Definition Remove (fuel : nat) (m : ConcurrentMap) (ky : iface Key)
  : option (ConcurrentMap * (iface Value * option Error)) :=
  match ky with
  | None => Some (m, (None, Some NilKeyError))
  | Some k =>
      let hs := hash2 (hashI k) in
      s ← segmentFor m hs;
      '(st, previous) ← remove fuel (enter m s) k hs None;
      Some (leave m (segmentIndex m hs) st, (previous, None))
  end.

Definition RemoveEntry (fuel : nat) (m : ConcurrentMap) (ky : iface Key)
    (v : iface Value) : option (ConcurrentMap * (bool * option Error)) :=
  match ky with
  | None => Some (m, (false, Some NilKeyError))
  | Some k =>
      if isNil v then Some (m, (false, Some NilValueError))
      else
        let hs := hash2 (hashI k) in
        s ← segmentFor m hs;
        '(st, previous) ← remove fuel (enter m s) k hs v;
        Some (leave m (segmentIndex m hs) st, (negb (isNil previous), None))
  end.

Definition CompareAndReplace (fuel : nat) (m : ConcurrentMap)
    (ky : iface Key) (oldValue newValue : iface Value)
  : option (ConcurrentMap * (bool * option Error)) :=
  match ky with
  | None => Some (m, (false, Some NilKeyError))
  | Some k =>
      if isNil oldValue || isNil newValue
      then Some (m, (false, Some NilValueError))
      else
        let hs := hash2 (hashI k) in
        s ← segmentFor m hs;
        '(st, ok) ← replaceWithOld fuel (enter m s) k hs oldValue newValue;
        Some (leave m (segmentIndex m hs) st, (ok, None))
  end.

Definition Replace (fuel : nat) (m : ConcurrentMap) (ky : iface Key)
    (v : iface Value)
  : option (ConcurrentMap * (iface Value * option Error)) :=
  match ky with
  | None => Some (m, (None, Some NilKeyError))
  | Some k =>
      if isNil v then Some (m, (None, Some NilValueError))
      else
        let hs := hash2 (hashI k) in
        s ← segmentFor m hs;
        '(st, previous) ← replace fuel (enter m s) k hs v;
        Some (leave m (segmentIndex m hs) st, (previous, None))
  end.

Definition PutAll (fuel : nat) (m : ConcurrentMap)
    (kvs : iface (list (iface Key * iface Value)))
  : option (ConcurrentMap * option string) :=
  let err := if isNil kvs then Some "Cannot copy nil map"%string else None in
  m' ← foldl (λ om '(k, v), m ← om; fst <$> Put fuel m k v) (Some m)
             (default [] kvs);
  Some (m', err).

Definition IteratorRemove (fuel : nat) (m : ConcurrentMap) (it : MapIterator)
  : option (result (ConcurrentMap * MapIterator)) :=
  match lastReturned it with
  | None => Some (Panic IllegalStateException)
  | Some a =>
      en ← mheap m !! a;
      '(m', _) ← Remove fuel m (Some (key en));
      Some (Done (m', mkIter (nextSegmentIndex it) (nextTableIndex it)
                        (currentTable it) (nextEntry it) None))
  end.

End Ops.
End LockFree.

(** ** Vocabulary of the statements *)

Definition isPow2 (p : Z) : Prop := ∃ k, 0 ≤ k ∧ p = 2 ^ k.

(** [p] is the smallest power of two that is at least [x]. *)
Definition smallestPow2From (x p : Z) : Prop :=
  isPow2 p ∧ x ≤ p ∧ ∀ q, isPow2 q → x ≤ q → p ≤ q.

(** [ceil(a / b)] for [0 ≤ a] and [0 < b]. *)
Definition ceilDiv (a b : Z) : Z := (a + b - 1) / b.

(** The dynamic type of an argument is [int], is [float32]. *)
Definition isInt (x : Dyn) : bool := snd (assertInt x).
Definition isFloat32 (x : Dyn) : bool := snd (assertFloat32 x).

Section Vocabulary.
Context {Key Value : Type}.
Context `{!EqDecision Key, !EqDecision Value}.

Implicit Types (h : list (@Entry Key Value)) (x : addr * @Entry Key Value).
Implicit Types (l : list (addr * @Entry Key Value)).
Implicit Types (ls : list (list (addr * @Entry Key Value))).
Implicit Types (s : Segment) (tab : list (option addr)).

(** The chain that hangs from the pointer [p] in the heap [h]: the
    addresses met by following [next] up to [nil], each with the entry
    found there. *)
Inductive chain h : option addr → list (addr * @Entry Key Value) → Prop :=
  | chain_nil : chain h None []
  | chain_cons a en l :
      h !! a = Some en → chain h (next en) l → chain h (Some a) ((a, en) :: l).

(** Every [next] pointer leads to an older entry, so no chain has a cycle. *)
Definition heap_wf h : Prop :=
  ∀ a en n, h !! a = Some en → next en = Some n → (n < a)%nat.

(** What an entry says: its key, hash and value. *)
Definition item x : Key * Z * iface Value :=
  (key x.2, hash x.2, value x.2).

Definition matches (ky : Key) (hs : Z) x : bool :=
  (hash x.2 =? hs) && bool_decide (ky = key x.2).

(** The first entry of a chain with the hash [hs] and the key [ky]. *)
Definition findIn l (ky : Key) (hs : Z) : option (addr * @Entry Key Value) :=
  snd <$> list_find (λ x, matches ky hs x = true) l.

(** No two entries of the same hash and key. *)
Definition uniqueKeys l : Prop :=
  NoDup ((λ x, (hash x.2, key x.2)) <$> l).

(** The entry at [a] with another value. *)
Definition withValue (v : iface Value) (en : @Entry Key Value) : Entry :=
  mkEntry (key en) (hash en) v (next en).

(** The chain from [p], read off the heap: [fuel] entries at most. *)
Fixpoint walk (fuel : nat) h (p : option addr)
  : list (addr * @Entry Key Value) :=
  match fuel, p with
  | S fuel', Some a =>
      match h !! a with
      | Some en => (a, en) :: walk fuel' h (next en)
      | None => []
      end
  | _, _ => []
  end.

Definition chainOf h (p : option addr) : list (addr * @Entry Key Value) :=
  walk (length h) h p.

(** The entries of a bucket array, bucket after bucket, and of a segment. *)
Definition tableEntries h tab : list (addr * @Entry Key Value) :=
  mjoin (chainOf h <$> tab).

(** The bucket of the hash [hs] in a table. *)
Definition bucketOf tab (hs : Z) : nat :=
  Z.to_nat (bucketIndex tab hs).

(** The chains [ls] are those of the buckets of [tab], one for one. *)
Definition buckets h tab ls : Prop :=
  Forall2 (chain h) tab ls.

(** An entry [x] of bucket [i] is in its place, has a value, and its key and
    hash satisfy [G] (at the level of the map: the hash is the hash of the
    key and leads to this segment). *)
Definition entryOk (G : Key → Z → Prop) tab (i : nat) x : Prop :=
  bucketOf tab (hash x.2) = i ∧ value x.2 ≠ None ∧ G (key x.2) (hash x.2).

(** The structure of a segment: a table whose length is a power of two up
    to [2^30], with chains [ls] of entries that are in their place and
    have different keys. *)
Definition segOk (G : Key → Z → Prop) h s ls : Prop :=
  buckets h (table s) ls ∧
  (∃ k, 0 ≤ k ≤ 30 ∧ Z.of_nat (length (table s)) = 2 ^ k) ∧
  ∀ i l, ls !! i = Some l → uniqueKeys l ∧ Forall (entryOk G (table s) i) l.

(** The value found for the key [ky] with hash [hs] in a chain, and in the
    bucket of [hs] in a table. *)
Definition valueIn l (ky : Key) (hs : Z) : option (iface Value) :=
  (λ x, value x.2) <$> findIn l ky hs.

Definition lookupIn h tab (ky : Key) (hs : Z) : iface Value :=
  mjoin (valueIn (chainOf h (default None (tab !! bucketOf tab hs))) ky hs).

(** The entry at [a] gets the value [v] in a chain that was read before. *)
Definition setAt (a : addr) (v : iface Value) l : list (addr * Entry) :=
  (λ y, if decide (y.1 = a) then (y.1, withValue v y.2) else y) <$> l.

(** How the heap changes in a method called for the key [ky] with hash
    [hs]: new entries [cl] are allocated, and the value of one entry with
    this key and hash may be stored. *)
Definition heapStep (ky : Key) (hs : Z) h h' : Prop :=
  ∃ cl, h' = h ++ cl ∨
        ∃ a en v, (h ++ cl) !! a = Some en ∧ key en = ky ∧ hash en = hs ∧
                  h' = <[a := withValue v en]> (h ++ cl).

End Vocabulary.
Section RehashVocabulary.
Context {Key Value : Type}.

(** The bucket of an entry under the mask [sizeMask] of a table. *)
Definition slotOf (sizeMask : Z) (x : addr * @Entry Key Value) : nat :=
  Z.to_nat (Z.land (hash x.2) sizeMask).

End RehashVocabulary.

Section MapVocabulary.
Context {Key Value : Type}.
Context `{!EqDecision Key, !EqDecision Value}.
Variable hashI : Key → Z.
Variable hash2 : Z → Z.

Implicit Types (m : @ConcurrentMap Key Value) (k : Key).

(** The key [ky] has the hash [hs], which leads to the segment [i] of a map
    with the given shift and mask. *)
Definition routed (shift mask : Z) (i : nat) (ky : Key) (hs : Z) : Prop :=
  hs = hash2 (hashI ky) ∧
  Z.to_nat (Z.land (Z.shiftr hs shift) (u32 mask)) = i.

(** The entries of the map, segment after segment. *)
Definition mapEntries m : list (addr * @Entry Key Value) :=
  mjoin ((λ s, tableEntries (mheap m) (table s)) <$> segments m).

(** The structure of a map: a heap without cycles; a power of two of
    segments, at most [2^16], with the mask that goes with it; in every
    segment the chains are in their place, without a key twice, and [count]
    is the number of entries, as an [int32]; the [count] of the map is the
    number of all entries, as an [int32]. *)
Definition mapOk m : Prop :=
  heap_wf (mheap m) ∧
  (∃ ks, 0 ≤ ks ≤ 16 ∧ segmentMask m = 2 ^ ks - 1 ∧
         Z.of_nat (length (segments m)) = 2 ^ ks) ∧
  (∀ i s, segments m !! i = Some s →
     ∃ ls, segOk (routed (segmentShift m) (segmentMask m) i) (mheap m) s ls ∧
           count s = i32 (Z.of_nat (length (mjoin ls)))) ∧
  mcount m = i32 (Z.of_nat (length (mapEntries m))).

(** The value of the key [k] in the map: the one in the chain of its bucket
    in its segment, whatever [count] says. *)
Definition lookup m k : iface Value :=
  let hs := hash2 (hashI k) in
  match segmentFor m hs with
  | Some s => lookupIn (mheap m) (table s) k hs
  | None => None
  end.

(** The segment a key leads to holds less than the largest [int32]. *)
Definition roomFor m k : Prop :=
  ∀ s, segmentFor m (hash2 (hashI k)) = Some s →
       Z.of_nat (length (tableEntries (mheap m) (table s))) < 2 ^ 31 - 1.

(** The operations a caller can apply to a map, one after the other. *)
Inductive Op : Type :=
  | OpPut (k : iface Key) (v : iface Value)
  | OpPutIfAbsent (k : iface Key) (v : iface Value)
  | OpRemove (k : iface Key)
  | OpRemoveEntry (k : iface Key) (v : iface Value)
  | OpReplace (k : iface Key) (v : iface Value)
  | OpCompareAndReplace (k : iface Key) (oldValue newValue : iface Value)
  | OpClear.

(** The map after an operation of the lock-striped variant, and of the
    CAS-based variant with [fuel] rounds for its retry loop. *)
Definition applyWL m (op : Op) : option ConcurrentMap :=
  match op with
  | OpPut k v => fst <$> WLocking.Put hashI hash2 m k v
  | OpPutIfAbsent k v => fst <$> WLocking.PutIfAbsent hashI hash2 m k v
  | OpRemove k => fst <$> WLocking.Remove hashI hash2 m k
  | OpRemoveEntry k v => fst <$> WLocking.RemoveEntry hashI hash2 m k v
  | OpReplace k v => fst <$> WLocking.Replace hashI hash2 m k v
  | OpCompareAndReplace k o n =>
      fst <$> WLocking.CompareAndReplace hashI hash2 m k o n
  | OpClear => Some (Clear m)
  end.

Definition applyLF (fuel : nat) m (op : Op) : option ConcurrentMap :=
  match op with
  | OpPut k v => fst <$> LockFree.Put hashI hash2 fuel m k v
  | OpPutIfAbsent k v => fst <$> LockFree.PutIfAbsent hashI hash2 fuel m k v
  | OpRemove k => fst <$> LockFree.Remove hashI hash2 fuel m k
  | OpRemoveEntry k v => fst <$> LockFree.RemoveEntry hashI hash2 fuel m k v
  | OpReplace k v => fst <$> LockFree.Replace hashI hash2 fuel m k v
  | OpCompareAndReplace k o n =>
      fst <$> LockFree.CompareAndReplace hashI hash2 fuel m k o n
  | OpClear => Some (Clear m)
  end.

(** The states of a map that a serial run can reach: after construction,
    and after any operation of either variant on such a state. *)
Inductive reachable : ConcurrentMap → Prop :=
  | reach_new initialCapacity loadFactor concurrencyLevel m :
      newMap3 initialCapacity loadFactor concurrencyLevel = Done m →
      reachable m
  | reach_WL m op m' :
      reachable m → applyWL m op = Some m' → reachable m'
  | reach_LF fuel m op m' :
      reachable m → applyLF fuel m op = Some m' → reachable m'.

End MapVocabulary.

Section IterationVocabulary.
Context {Key Value : Type}.

Implicit Types (m : @ConcurrentMap Key Value) (h : list (@Entry Key Value)).







End IterationVocabulary.

(** The threshold of a segment is the one [setTable] computes from the
    length of its bucket array and its load factor. *)
Definition thresholdOk (s : Segment) : Prop :=
  threshold s
  = thresholdFor (Z.of_nat (length (table s))) (loadFactor s).

(** ** A sample map

    Keys are integers and values strings.  The hash of a key is the key as
    a [uint32] and the mixer changes nothing, so that the keys [0], [4] and
    [8] meet in bucket [0] of segment [0] of a map made with the defaults
    (16 segments of 4 buckets). *)

#[global] Instance string_eq_decision : EqDecision string := String.string_dec.

Definition sampleHashI (k : Z) : Z := u32 k.
Definition sampleHash2 (h : Z) : Z := h.

Section Runs.
Context {Key Value : Type}.
Context `{!EqDecision Key, !EqDecision Value}.
Variable hashI : Key → Z.
Variable hash2 : Z → Z.

(** The operations [ops] of the lock-striped map, one after the other. *)
Definition runWL (m : @ConcurrentMap Key Value) (ops : list (@Op Key Value))
  : option ConcurrentMap :=
  foldl (λ om op, m ← om; applyWL hashI hash2 m op) (Some m) ops.

End Runs.

Definition sampleEmpty : @ConcurrentMap Z string :=
  Eval vm_compute in
    match newMap3 DEFAULT_INITIAL_CAPACITY DEFAULT_LOAD_FACTOR
            DEFAULT_CONCURRENCY_LEVEL with
    | Done m => m
    | _ => mkMap 0 0 0 [] [] 0
    end.

Definition sampleOps : list (@Op Z string) :=
  [OpPut (Some 0) (Some "a"%string); OpPut (Some 4) (Some "b"%string);
   OpPut (Some 8) (Some "c"%string); OpPut (Some 1) (Some "d"%string)].

Definition sampleMap : @ConcurrentMap Z string :=
  Eval vm_compute in
    default sampleEmpty (runWL sampleHashI sampleHash2 sampleEmpty sampleOps).

(** Segment [0] of the sample map, the map after [Put(4, "B")], and a Go
    map for [PutAll], with a nil key and a nil value among its pairs. *)
Definition sampleSegment : Segment :=
  Eval vm_compute in
    default (mkSegment 0 0 0 [] DEFAULT_LOAD_FACTOR)
            (segments sampleMap !! 0%nat).

Definition sampleAfter : @ConcurrentMap Z string :=
  Eval vm_compute in
    default sampleMap
      (applyWL sampleHashI sampleHash2 sampleMap
         (OpPut (Some 4) (Some "B"%string))).



(** * Properties *)

(** ** Construction *)

Lemma int_small z : - 2 ^ 63 ≤ z < 2 ^ 63 → int z = z.
Proof. intros Hz. unfold int. rewrite Z.mod_small; lia. Qed.

Lemma i32_small z : - 2 ^ 31 ≤ z < 2 ^ 31 → i32 z = z.
Proof. intros Hz. unfold i32. rewrite Z.mod_small; lia. Qed.

Lemma u32_small z : 0 ≤ z < 2 ^ 32 → u32 z = z.
Proof. intros Hz. unfold u32. rewrite Z.mod_small; lia. Qed.

Lemma pow2_bound k n : 0 ≤ k ≤ n → 0 < 2 ^ k ≤ 2 ^ n.
Proof.
  intros Hk. split; [apply Z.pow_pos_nonneg; lia|].
  apply Z.pow_le_mono_r; lia.
Qed.

Lemma pow2_lt_inv a b : 0 ≤ a → 0 ≤ b → 2 ^ a < 2 ^ b → a < b.
Proof. intros Ha Hb H. apply (Z.pow_lt_mono_r_iff 2); lia. Qed.

Lemma smallestPow2From_intro c k :
  0 ≤ k → c ≤ 2 ^ k → (k = 0 ∨ 2 ^ (k - 1) < c) → smallestPow2From c (2 ^ k).
Proof.
  intros Hk Hc Hmin. split; [by exists k|]. split; [done|].
  intros q (j & Hj & ->) Hq.
  destruct Hmin as [->|Hlt].
  - pose proof (pow2_bound 0 j). simpl in *. lia.
  - apply Z.pow_le_mono_r; [lia|].
    assert (k - 1 < j); [|lia].
    destruct (decide (k = 0)) as [->|]; [lia|].
    apply pow2_lt_inv; lia.
Qed.

Lemma pow2_lt_bound k c n : 0 ≤ k → 2 ^ k < c → c ≤ 2 ^ n → 0 ≤ n ∧ k < n.
Proof.
  intros Hk Hlt Hc.
  assert (0 ≤ n) as Hn.
  { destruct (decide (0 ≤ n)); [done|].
    rewrite (Z.pow_neg_r 2 n) in Hc by lia.
    pose proof (pow2_bound k k). lia. }
  split; [done|]. apply pow2_lt_inv; lia.
Qed.

Lemma pow2_pred_bound k c n :
  0 ≤ k → (k = 0 ∨ 2 ^ (k - 1) < c) → c ≤ 2 ^ n → k ≤ n `max` 0.
Proof.
  intros Hk [->|Hlt] Hc; [lia|].
  destruct (decide (k = 0)) as [->|]; [lia|].
  destruct (pow2_lt_bound (k - 1) c n); lia.
Qed.

(** A doubling loop started at a power of two below its bound ends, within
    the rounds that remain up to [2 ^ n], at the smallest power of two that
    reaches the bound. *)
Lemma capLoop_spec n fuel k c :
  0 ≤ k → n < 63 → c ≤ 2 ^ n → n < k + Z.of_nat fuel →
  (k = 0 ∨ 2 ^ (k - 1) < c) →
  ∃ k', k ≤ k' ≤ n `max` 0 ∧ capLoop fuel (2 ^ k) c = Some (2 ^ k') ∧
        c ≤ 2 ^ k' ∧ (k' = 0 ∨ 2 ^ (k' - 1) < c).
Proof.
  revert k. induction fuel as [|fuel IH]; intros k Hk Hn Hc Hfuel Hmin.
  - assert (capLoop 0 (2 ^ k) c = if 2 ^ k <? c then None else Some (2 ^ k))
      as -> by done.
    pose proof (pow2_pred_bound k c n Hk Hmin Hc).
    destruct (Z.ltb_spec (2 ^ k) c) as [Hlt|Hge].
    + destruct (pow2_lt_bound k c n); lia.
    + exists k. split_and!; try done; lia.
  - assert (capLoop (S fuel) (2 ^ k) c
            = if 2 ^ k <? c then capLoop fuel (int (Z.shiftl (2 ^ k) 1)) c
              else Some (2 ^ k)) as -> by done.
    pose proof (pow2_pred_bound k c n Hk Hmin Hc).
    destruct (Z.ltb_spec (2 ^ k) c) as [Hlt|Hge].
    + destruct (pow2_lt_bound k c n) as [? ?]; [lia..|].
      rewrite Z.shiftl_mul_pow2 by lia.
      replace (2 ^ k * 2 ^ 1) with (2 ^ (k + 1))
        by (rewrite Z.pow_add_r by lia; lia).
      rewrite int_small.
      2:{ pose proof (pow2_bound (k + 1) 62). lia. }
      destruct (IH (k + 1)) as (k' & ? & ? & ? & ?); try lia.
      { right. by replace (k + 1 - 1) with k by lia. }
      exists k'. split_and!; try done; lia.
    + exists k. split_and!; try done; lia.
Qed.

Lemma ssizeLoop_spec n fuel k c :
  0 ≤ k → n < 63 → c ≤ 2 ^ n → n < k + Z.of_nat fuel →
  (k = 0 ∨ 2 ^ (k - 1) < c) →
  ∃ k', k ≤ k' ≤ n `max` 0 ∧ ssizeLoop fuel k (2 ^ k) c = Some (k', 2 ^ k') ∧
        c ≤ 2 ^ k' ∧ (k' = 0 ∨ 2 ^ (k' - 1) < c).
Proof.
  revert k. induction fuel as [|fuel IH]; intros k Hk Hn Hc Hfuel Hmin.
  - assert (ssizeLoop 0 k (2 ^ k) c
            = if 2 ^ k <? c then None else Some (k, 2 ^ k)) as -> by done.
    pose proof (pow2_pred_bound k c n Hk Hmin Hc).
    destruct (Z.ltb_spec (2 ^ k) c) as [Hlt|Hge].
    + destruct (pow2_lt_bound k c n); lia.
    + exists k. split_and!; try done; lia.
  - assert (ssizeLoop (S fuel) k (2 ^ k) c
            = if 2 ^ k <? c
              then ssizeLoop fuel (int (k + 1)) (int (Z.shiftl (2 ^ k) 1)) c
              else Some (k, 2 ^ k)) as -> by done.
    pose proof (pow2_pred_bound k c n Hk Hmin Hc).
    destruct (Z.ltb_spec (2 ^ k) c) as [Hlt|Hge].
    + destruct (pow2_lt_bound k c n) as [? ?]; [lia..|].
      rewrite Z.shiftl_mul_pow2 by lia.
      replace (2 ^ k * 2 ^ 1) with (2 ^ (k + 1))
        by (rewrite Z.pow_add_r by lia; lia).
      rewrite !int_small.
      2:{ pose proof (pow2_bound (k + 1) 62). lia. }
      2:{ lia. }
      destruct (IH (k + 1)) as (k' & ? & ? & ? & ?); try lia.
      { right. by replace (k + 1 - 1) with k by lia. }
      exists k'. split_and!; try done; lia.
    + exists k. split_and!; try done; lia.
Qed.

Lemma ceilDiv_quot a b :
  0 ≤ a → 0 < b → - 2 ^ 63 ≤ a < 2 ^ 63 →
  (if int (Z.quot a b * b) <? a then int (Z.quot a b + 1) else Z.quot a b)
  = ceilDiv a b.
Proof.
  intros Ha Hb Hr. rewrite Z.quot_div_nonneg by lia.
  pose proof (Z.div_mod a b ltac:(lia)) as Hdm.
  pose proof (Z.mod_pos_bound a b Hb) as Hm.
  assert (0 ≤ a / b) by (apply Z.div_pos; lia).
  assert (a / b * b ≤ a) by nia.
  rewrite (int_small (a / b * b)) by lia.
  unfold ceilDiv. destruct (Z.ltb_spec (a / b * b) a).
  - rewrite int_small by nia.
    apply (Z.div_unique _ _ _ (a `mod` b - 1)); lia.
  - apply (Z.div_unique _ _ _ (b - 1)); lia.
Qed.

Lemma f32_gt_zero_false (f : float32) :
  f32_gt f (S754_zero false) = false
  ↔ f = S754_nan ∨ f32_le f (S754_zero false) = true.
Proof.
  destruct f as [s|s| |s m e]; try destruct s; cbn; split; intros H;
    try done; auto; destruct H; done.
Qed.

Section Construction.
Context {Key Value : Type}.

Abbreviation ConcurrentMap := (@ConcurrentMap Key Value).

(** What a successful construction returns. *)
Lemma newMap3_done (initialCapacity : Z) (lf : float32) (concurrencyLevel : Z) :
  f32_gt lf (S754_zero false) = true →
  0 ≤ initialCapacity → 0 < concurrencyLevel →
  ∃ ks kc, 0 ≤ ks ≤ 16 ∧ 0 ≤ kc ≤ 30 ∧
    newMap3 initialCapacity lf concurrencyLevel
    = Done (mkMap (Key:=Key) (Value:=Value) 0 (2 ^ ks - 1) (32 - ks)
              ((λ p, newSegment p (2 ^ kc) lf) <$> seq 0 (Z.to_nat (2 ^ ks)))
              [] (Z.to_nat (2 ^ ks))) ∧
    smallestPow2From (concurrencyLevel `min` MAX_SEGMENTS) (2 ^ ks) ∧
    smallestPow2From
      (ceilDiv (initialCapacity `min` MAXIMUM_CAPACITY) (2 ^ ks)) (2 ^ kc).
Proof.
  intros Hlf Hcap Hlvl. unfold newMap3. cbv zeta. rewrite Hlf.
  destruct (Z.ltb_spec initialCapacity 0); [lia|].
  destruct (Z.leb_spec concurrencyLevel 0); [lia|]. cbn [negb orb].
  set (lvl := if concurrencyLevel >? MAX_SEGMENTS then _ else _).
  assert (lvl = concurrencyLevel `min` MAX_SEGMENTS) as Hl.
  { unfold lvl. destruct (Z.gtb_spec concurrencyLevel MAX_SEGMENTS); lia. }
  assert (MAX_SEGMENTS = 2 ^ 16) as HM by done.
  assert (MAXIMUM_CAPACITY = 2 ^ 30) as HC by done.
  destruct (ssizeLoop_spec 16 64 0 lvl) as (ks & Hks & Hloop & Hs1 & Hs2);
    try lia.
  change (2 ^ 0) with 1 in Hloop. rewrite Hloop. clear Hloop.
  set (cap := if initialCapacity >? MAXIMUM_CAPACITY then _ else _).
  assert (cap = initialCapacity `min` MAXIMUM_CAPACITY) as Hc.
  { unfold cap. destruct (Z.gtb_spec initialCapacity MAXIMUM_CAPACITY); lia. }
  pose proof (pow2_bound ks 16 ltac:(lia)).
  rewrite (ceilDiv_quot cap (2 ^ ks)) by lia.
  assert (ceilDiv cap (2 ^ ks) ≤ 2 ^ 30).
  { unfold ceilDiv. apply Z.div_le_upper_bound; nia. }
  destruct (capLoop_spec 30 64 0 (ceilDiv cap (2 ^ ks)))
    as (kc & Hkc & Hloop & Hc1 & Hc2); try lia.
  change (2 ^ 0) with 1 in Hloop. rewrite Hloop. clear Hloop.
  exists ks, kc. split; [lia|]. split; [lia|].
  rewrite int_small by lia. split; [done|]. rewrite <-Hl, <-Hc.
  split; apply smallestPow2From_intro; (done || lia).
Qed.

Lemma newMap3_invalid (initialCapacity : Z) (lf : float32)
    (concurrencyLevel : Z) :
  negb (f32_gt lf (S754_zero false)) || (initialCapacity <? 0)
    || (concurrencyLevel <=? 0) = true →
  newMap3 (Key:=Key) (Value:=Value) initialCapacity lf concurrencyLevel
  = Panic IllegalArgError.
Proof. unfold newMap3. by intros ->. Qed.

(** C8, as the code has it: the constructor panics with
    [IllegalArgError] exactly when the load factor is NaN or at most zero,
    the initial capacity is negative, or the concurrency level is at most
    zero; it raises nothing else, always returns, and a panic leaves no
    map behind since the test comes first. *)
Theorem newMap3_panics_iff (initialCapacity : Z) (lf : float32)
    (concurrencyLevel : Z) :
  (newMap3 (Key:=Key) (Value:=Value) initialCapacity lf concurrencyLevel
     = Panic IllegalArgError
   ↔ (lf = S754_nan ∨ f32_le lf (S754_zero false) = true)
     ∨ initialCapacity < 0 ∨ concurrencyLevel ≤ 0)
  ∧ (∀ e, newMap3 (Key:=Key) (Value:=Value) initialCapacity lf
            concurrencyLevel = Panic e → e = IllegalArgError)
  ∧ newMap3 (Key:=Key) (Value:=Value) initialCapacity lf concurrencyLevel
    ≠ Diverged.
Proof.
  rewrite <-f32_gt_zero_false.
  destruct (negb (f32_gt lf (S754_zero false)) || (initialCapacity <? 0)
            || (concurrencyLevel <=? 0)) eqn:Hbad.
  - rewrite newMap3_invalid by done.
    split_and!; [split; [intros _|done] | by intros ? [= <-] | done].
    apply orb_prop in Hbad as [[H|H]%orb_prop|H].
    + left. by apply negb_true_iff.
    + right; left. by apply Z.ltb_lt.
    + right; right. by apply Z.leb_le.
  - apply orb_false_elim in Hbad as [[H1 H2]%orb_false_elim H3].
    apply negb_false_iff in H1. apply Z.ltb_ge in H2. apply Z.leb_gt in H3.
    destruct (newMap3_done initialCapacity lf concurrencyLevel)
      as (ks & kc & _ & _ & -> & _); [done..|].
    split_and!; [split; [done|] | done | done].
    intros [?|[?|?]]; (congruence || lia).
Qed.

(** C9: for arguments the constructor accepts, the number of segments is
    the smallest power of two that reaches the concurrency level clamped to
    [2^16], and every segment starts with a table whose length is the
    smallest power of two that reaches the ceiling of the initial capacity,
    clamped to [MAXIMUM_CAPACITY], over the number of segments; a power
    of two is at least 1, also for capacity 0. *)
Theorem newMap3_sizing (initialCapacity : Z) (lf : float32)
    (concurrencyLevel : Z) :
  f32_gt lf (S754_zero false) = true →
  0 ≤ initialCapacity → 0 < concurrencyLevel →
  ∃ m : ConcurrentMap,
    newMap3 initialCapacity lf concurrencyLevel = Done m ∧
    let segmentCount := Z.of_nat (length (segments m)) in
    smallestPow2From (concurrencyLevel `min` MAX_SEGMENTS) segmentCount ∧
    ∀ s, s ∈ segments m →
      1 ≤ Z.of_nat (length (table s)) ∧
      smallestPow2From
        (ceilDiv (initialCapacity `min` MAXIMUM_CAPACITY) segmentCount)
        (Z.of_nat (length (table s))).
Proof.
  intros Hlf Hcap Hlvl.
  destruct (newMap3_done initialCapacity lf concurrencyLevel)
    as (ks & kc & Hks & Hkc & -> & Hs & Hc); [done..|].
  eexists. split; [done|]. cbn [segments].
  pose proof (pow2_bound ks 16 ltac:(lia)).
  pose proof (pow2_bound kc 30 ltac:(lia)).
  rewrite length_fmap, length_seq, Z2Nat.id by lia.
  split; [done|]. intros s (p & -> & _)%list_elem_of_fmap.
  cbn. rewrite length_replicate, Z2Nat.id by lia. split; [lia|done].
Qed.

(** C10: an argument list whose first or third element is not an [int],
    or whose second element is not a [float32], makes the constructor
    panic with [IllegalArgError], whatever the values are. *)
Theorem NewMap_wrong_type (paras : list Dyn) :
  (∃ p, paras !! 0%nat = Some p ∧ isInt p = false)
  ∨ (∃ p, paras !! 1%nat = Some p ∧ isFloat32 p = false)
  ∨ (∃ p, paras !! 2%nat = Some p ∧ isInt p = false) →
  NewMap (Key:=Key) (Value:=Value) paras = Panic IllegalArgError.
Proof.
  unfold NewMap, isInt, isFloat32. intros H.
  destruct (paras !! 0%nat) as [p0|] eqn:H0.
  - destruct (snd (assertInt p0)) eqn:E0; [|done]. cbn.
    destruct (paras !! 1%nat) as [p1|] eqn:H1.
    + destruct (snd (assertFloat32 p1)) eqn:E1; [|done]. cbn.
      destruct (paras !! 2%nat) as [p2|] eqn:H2.
      * destruct (snd (assertInt p2)) eqn:E2; [|done].
        destruct H as [(?&?&?)|[(?&?&?)|(?&?&?)]]; congruence.
      * destruct H as [(?&?&?)|[(?&?&?)|(?&?&?)]]; congruence.
    + assert (paras !! 2%nat = None) as H2.
      { apply lookup_ge_None. apply lookup_ge_None in H1. lia. }
      destruct H as [(?&?&?)|[(?&?&?)|(?&?&?)]]; congruence.
  - assert (paras !! 1%nat = None ∧ paras !! 2%nat = None) as [H1 H2].
    { apply lookup_ge_None in H0. split; apply lookup_ge_None; lia. }
    destruct H as [(?&?&?)|[(?&?&?)|(?&?&?)]]; congruence.
Qed.

(** C1 fails on the code: [IsEmpty] answers whether the counter is
    positive, so a map that was just built, of size 0, is reported as not
    empty, and the answer is the opposite of [Size() == 0] whenever the
    counter is not negative. *)
Theorem IsEmpty_inverted :
  (∀ m : ConcurrentMap, IsEmpty m = (0 <? Size m))
  ∧ ∃ m : ConcurrentMap,
      NewMap [] = Done m ∧ Size m = 0 ∧ IsEmpty m = false.
Proof.
  split.
  - intros m. unfold IsEmpty, Size. by rewrite Z.gtb_ltb.
  - eexists. split; [reflexivity|]. split; reflexivity.
Qed.

End Construction.


(** ** Chains *)

Section Chains.
Context {Key Value : Type}.
Context `{!EqDecision Key, !EqDecision Value}.

Implicit Types (h : list (@Entry Key Value)) (l : list (addr * @Entry Key Value)).
Implicit Types (p : option addr) (a : addr) (en : @Entry Key Value).
Implicit Types (ky : Key) (hs : Z).

Lemma chain_det h p l1 l2 : chain h p l1 → chain h p l2 → l1 = l2.
Proof.
  intros H1. revert l2. induction H1 as [|a en l Ha _ IH]; intros l2 H2.
  - by inversion H2.
  - inversion H2 as [|a' en' l' Ha' Hl']; simplify_eq. f_equal. by apply IH.
Qed.

Lemma chain_lookup h p l x : chain h p l → x ∈ l → h !! x.1 = Some x.2.
Proof.
  induction 1 as [|a en l Ha _ IH]; [by intros ?%elem_of_nil|].
  intros [->|?]%elem_of_cons; [done|auto].
Qed.

Lemma chain_head h p l : chain h p l → p = fst <$> head l.
Proof. by destruct 1. Qed.

(** Allocation leaves the chains alone. *)
Lemma chain_grow h h' p l : chain h p l → chain (h ++ h') p l.
Proof.
  induction 1 as [|a en l Ha _ IH]; constructor; [|done].
  by apply lookup_app_l_Some.
Qed.

(** Along a chain the addresses go down. *)
Lemma chain_below h a en l x :
  heap_wf h → chain h (Some a) ((a, en) :: l) → x ∈ l → (x.1 < a)%nat.
Proof.
  intros Hwf Hc. remember (Some a) as p eqn:Hp.
  remember ((a, en) :: l) as l0 eqn:Hl0. revert a en l Hp Hl0.
  induction Hc as [|b eb l' Hb Hl' IH]; intros a en l Hp Hl0; [done|].
  simplify_eq. intros Hx.
  inversion Hl' as [Hn|c ec l'' Hc' Hl'' Hn];
    subst; [by apply elem_of_nil in Hx|].
  assert (c < a)%nat by (by eapply Hwf).
  apply elem_of_cons in Hx as [->|Hx]; [done|].
  assert (x.1 < c)%nat; [|lia]. by eapply IH.
Qed.

Lemma chain_NoDup h p l : heap_wf h → chain h p l → NoDup l.*1.
Proof.
  intros Hwf. induction 1 as [|a en l Ha Hl IH]; [constructor|].
  cbn. constructor; [|done].
  intros (x & Hx1 & Hx)%list_elem_of_fmap.
  assert (x.1 < a)%nat; [|lia].
  eapply chain_below; [done| |done]. by constructor.
Qed.

Lemma chain_length h p l : heap_wf h → chain h p l → (length l ≤ length h)%nat.
Proof.
  intros Hwf Hc. rewrite <-(length_fmap fst l).
  assert (length (seq 0 (length h)) = length h) as <- by apply length_seq.
  apply submseteq_length, NoDup_submseteq; [by eapply chain_NoDup|].
  intros a (x & -> & Hx)%list_elem_of_fmap.
  apply elem_of_seq. split; [lia|]. cbn.
  eapply lookup_lt_Some, chain_lookup; done.
Qed.


(** A chain whose entries do not have the hash and key whose value was
    stored is untouched by the store. *)
Lemma chain_insert_other h p l a en :
  chain h p l → a ∉ l.*1 → chain (<[a := en]> h) p l.
Proof.
  induction 1 as [|b eb l Hb _ IH]; [constructor|].
  intros Hn. apply not_elem_of_cons in Hn as [Hab Hn].
  constructor; [|auto]. cbn in Hab. by rewrite list_lookup_insert_ne.
Qed.

(** Storing a value at [a] changes that field of the entry at [a] in the
    chains through [a], and nothing else. *)
Lemma chain_storeValue h p l a en v :
  chain h p l → h !! a = Some en →
  chain (<[a := withValue v en]> h) p
        ((λ x, if decide (x.1 = a) then (x.1, withValue v x.2) else x) <$> l).
Proof.
  intros Hc Ha. induction Hc as [|b eb l Hb _ IH]; [constructor|].
  cbn. destruct (decide (b = a)) as [->|Hne].
  - assert (eb = en) as -> by congruence.
    constructor; [|done].
    rewrite list_lookup_insert_eq; [done|]. by eapply lookup_lt_Some.
  - constructor; [|done]. by rewrite list_lookup_insert_ne.
Qed.

(** *** The search loops *)

Lemma findIn_nil ky hs : findIn (Value:=Value) [] ky hs = None.
Proof. done. Qed.

Lemma findIn_cons x l ky hs :
  findIn (x :: l) ky hs = if matches ky hs x then Some x else findIn l ky hs.
Proof.
  unfold findIn. cbn. destruct (matches ky hs x) eqn:E.
  - by rewrite decide_True.
  - rewrite decide_False by congruence.
    destruct (list_find _ l) as [[? ?]|]; done.
Qed.

Lemma findIn_Some l ky hs x :
  findIn l ky hs = Some x → x ∈ l ∧ hash x.2 = hs ∧ key x.2 = ky.
Proof.
  induction l as [|y l IH]; [done|]. rewrite findIn_cons.
  destruct (matches ky hs y) eqn:E.
  - intros [= ->]. split; [left|].
    unfold matches in E. apply andb_prop in E as [E1 E2].
    apply Z.eqb_eq in E1. by apply bool_decide_eq_true in E2.
  - intros [? ?]%IH. split; [by right|done].
Qed.

Lemma findIn_None l ky hs :
  findIn l ky hs = None ↔ ∀ x, x ∈ l → ¬ (hash x.2 = hs ∧ key x.2 = ky).
Proof.
  induction l as [|y l IH]; [split; [by intros _ ? ?%elem_of_nil|done]|].
  rewrite findIn_cons. destruct (matches ky hs y) eqn:E.
  - split; [done|]. intros H. exfalso. apply (H y); [left|].
    unfold matches in E. apply andb_prop in E as [E1 E2].
    apply Z.eqb_eq in E1. by apply bool_decide_eq_true in E2.
  - rewrite IH. split.
    + intros H x [->|?]%elem_of_cons; [|auto].
      intros [<- <-]. unfold matches in E.
      rewrite Z.eqb_refl, bool_decide_eq_true_2 in E; done.
    + intros H x Hx. apply H. by right.
Qed.

Lemma scan_spec fuel h p l ky hs :
  chain h p l → (length l ≤ fuel)%nat →
  scan fuel h p ky hs = Some (fst <$> findIn l ky hs).
Proof.
  intros Hc. revert fuel. induction Hc as [|a en l Ha _ IH]; intros fuel Hf.
  - by destruct fuel.
  - rewrite findIn_cons. unfold matches. cbn [snd].
    destruct fuel as [|fuel]; [cbn in Hf; lia|]. cbn. rewrite Ha. cbn.
    rewrite <-negb_andb.
    destruct ((hash en =? hs) && bool_decide (ky = key en)); [done|]. cbn.
    apply IH. cbn in Hf. lia.
Qed.

Lemma getLoop_spec fuel h p l ky hs :
  chain h p l → (length l ≤ fuel)%nat →
  getLoop fuel h p ky hs = Some (findIn l ky hs ≫= λ x, value x.2).
Proof.
  intros Hc. revert fuel. induction Hc as [|a en l Ha _ IH]; intros fuel Hf.
  - by destruct fuel.
  - rewrite findIn_cons. unfold matches. cbn [snd].
    destruct fuel as [|fuel]; [cbn in Hf; lia|]. cbn. rewrite Ha. cbn.
    destruct ((hash en =? hs) && bool_decide (ky = key en)).
    + cbn. by destruct (isNil (value en)).
    + apply IH. cbn in Hf. lia.
Qed.

Lemma containsLoop_spec fuel h p l ky hs :
  chain h p l → (length l ≤ fuel)%nat →
  containsLoop fuel h p ky hs = Some (bool_decide (is_Some (findIn l ky hs))).
Proof.
  intros Hc. revert fuel. induction Hc as [|a en l Ha _ IH]; intros fuel Hf.
  - by destruct fuel.
  - rewrite findIn_cons. unfold matches. cbn [snd].
    destruct fuel as [|fuel]; [cbn in Hf; lia|]. cbn. rewrite Ha. cbn.
    destruct ((hash en =? hs) && bool_decide (ky = key en)).
    + by rewrite bool_decide_eq_true_2.
    + apply IH. cbn in Hf. lia.
Qed.

End Chains.

(** ** Segments *)

Section Segments.
Context {Key Value : Type}.
Context `{!EqDecision Key, !EqDecision Value}.

Implicit Types (h : list (@Entry Key Value)) (l : list (addr * @Entry Key Value)).
Implicit Types (ls : list (list (addr * @Entry Key Value))).
Implicit Types (p : option addr) (a : addr) (en : @Entry Key Value).
Implicit Types (ky : Key) (hs : Z) (tab : list (option addr)).
Implicit Types (s : Segment) (st : @SegSt Key Value).
Implicit Types (G : Key → Z → Prop).

Lemma walk_chain fuel h p l :
  chain h p l → (length l ≤ fuel)%nat → walk fuel h p = l.
Proof.
  intros Hc. revert fuel. induction Hc as [|a en l Ha _ IH]; intros fuel Hf.
  - by destruct fuel.
  - destruct fuel as [|fuel]; [cbn in Hf; lia|]. cbn. rewrite Ha.
    f_equal. apply IH. cbn in Hf. lia.
Qed.

Lemma chainOf_chain h p l : heap_wf h → chain h p l → chainOf h p = l.
Proof. intros Hwf Hc. apply walk_chain; [done|by eapply chain_length]. Qed.

Lemma buckets_chainOf h tab ls :
  heap_wf h → buckets h tab ls → chainOf h <$> tab = ls.
Proof.
  intros Hwf. induction 1 as [|p l tab ls Hc _ IH]; [done|].
  cbn. f_equal; [by apply chainOf_chain|done].
Qed.

Lemma bucketIndex_mod tab hs k :
  0 ≤ k ≤ 30 → Z.of_nat (length tab) = 2 ^ k →
  bucketIndex tab hs = hs `mod` 2 ^ k.
Proof.
  intros Hk Hlen. unfold bucketIndex. rewrite Hlen.
  pose proof (pow2_bound k 30 ltac:(lia)).
  rewrite u32_small by lia.
  replace (2 ^ k - 1) with (Z.ones k) by (rewrite Z.ones_equiv; lia).
  apply Z.land_ones. lia.
Qed.

Lemma bucketOf_lt tab hs k :
  0 ≤ k ≤ 30 → Z.of_nat (length tab) = 2 ^ k →
  (bucketOf tab hs < length tab)%nat ∧
  bucketIndex tab hs = Z.of_nat (bucketOf tab hs).
Proof.
  intros Hk Hlen. unfold bucketOf. rewrite (bucketIndex_mod _ _ k) by done.
  pose proof (pow2_bound k 30 ltac:(lia)).
  pose proof (Z.mod_pos_bound hs (2 ^ k) ltac:(lia)). lia.
Qed.

Lemma index_nat {A} (t : list A) (i : nat) : index t (Z.of_nat i) = t !! i.
Proof.
  unfold index. destruct (Z.leb_spec 0 (Z.of_nat i)); [|lia].
  by rewrite Nat2Z.id.
Qed.

Lemma store_nat {A} (t : list A) (i : nat) (x : A) :
  (i < length t)%nat → store t (Z.of_nat i) x = Some (<[i := x]> t).
Proof.
  intros Hi. unfold store.
  destruct (Z.leb_spec 0 (Z.of_nat i)); [|lia].
  destruct (Z.ltb_spec (Z.of_nat i) (Z.of_nat (length t))); [|lia].
  by rewrite Nat2Z.id.
Qed.

(** The bucket a hash leads to, with its head and its chain. *)
Lemma segOk_bucket G h s ls hs :
  segOk G h s ls →
  ∃ p l, table s !! bucketOf (table s) hs = Some p ∧
         ls !! bucketOf (table s) hs = Some l ∧ chain h p l ∧
         index (table s) (bucketIndex (table s) hs) = Some p ∧
         (bucketOf (table s) hs < length (table s))%nat ∧
         bucketIndex (table s) hs = Z.of_nat (bucketOf (table s) hs).
Proof.
  intros (Hb & (k & Hk & Hlen) & _).
  destruct (bucketOf_lt (table s) hs k) as [Hlt Heq]; [done..|].
  destruct (lookup_lt_is_Some_2 _ _ Hlt) as [p Hp].
  destruct (Forall2_lookup_l _ _ _ _ _ Hb Hp) as (l & Hl & Hc).
  exists p, l. by rewrite Heq, index_nat.
Qed.

Lemma segOk_grow_heap G h h' s ls : segOk G h s ls → segOk G (h ++ h') s ls.
Proof.
  intros (Hb & Hlen & Hok). split_and!; [|done..].
  unfold buckets in *. eapply Forall2_impl; [done|].
  intros p l. apply chain_grow.
Qed.

Lemma segOk_insert_other G h s ls a en :
  segOk G h s ls → a ∉ (mjoin ls).*1 → segOk G (<[a := en]> h) s ls.
Proof.
  intros (Hb & Hlen & Hok) Hn. split_and!; [|done..].
  unfold buckets in *. apply Forall2_same_length_lookup. split; [by eapply Forall2_length|].
  intros i p l Hp Hl. apply chain_insert_other.
  - by eapply Forall2_lookup_lr.
  - intros Ha. apply Hn. apply list_elem_of_fmap in Ha as (x & -> & Hx).
    apply list_elem_of_fmap. exists x. split; [done|].
    apply list_elem_of_join. exists l. split; [done|].
    by eapply list_elem_of_lookup_2.
Qed.

End Segments.

Section Lookup.
Context {Key Value : Type}.
Context `{!EqDecision Key, !EqDecision Value}.

Implicit Types (h : list (@Entry Key Value)) (l : list (addr * @Entry Key Value)).
Implicit Types (ls : list (list (addr * @Entry Key Value))).
Implicit Types (p : option addr) (a : addr) (en : @Entry Key Value).
Implicit Types (x y : addr * @Entry Key Value).
Implicit Types (ky : Key) (hs : Z) (tab : list (option addr)).
Implicit Types (s : Segment) (st : @SegSt Key Value) (v : iface Value).
Implicit Types (G : Key → Z → Prop).

Lemma uniqueKeys_inj l x y :
  uniqueKeys l → x ∈ l → y ∈ l → hash x.2 = hash y.2 → key x.2 = key y.2 →
  x = y.
Proof.
  intros Hu (i & Hi)%list_elem_of_lookup (j & Hj)%list_elem_of_lookup Hh Hk.
  assert (i = j) as ->; [|congruence].
  eapply NoDup_lookup; [exact Hu|..]; rewrite list_lookup_fmap.
  - by rewrite Hi.
  - rewrite Hj. cbn. by rewrite Hh, Hk.
Qed.

Lemma findIn_elem l ky hs x :
  uniqueKeys l → x ∈ l → hash x.2 = hs → key x.2 = ky →
  findIn l ky hs = Some x.
Proof.
  intros Hu Hx Hh Hk. destruct (findIn l ky hs) as [y|] eqn:E.
  - apply findIn_Some in E as (Hy & Hyh & Hyk). f_equal.
    eapply uniqueKeys_inj; eauto; congruence.
  - exfalso. by eapply findIn_None.
Qed.

(** In a chain without two entries of the same hash and key, the value
    found for a key is the one of the entry that has this key. *)
Lemma valueIn_elem l ky hs v :
  uniqueKeys l → valueIn l ky hs = Some v ↔ (ky, hs, v) ∈ item <$> l.
Proof.
  intros Hu. unfold valueIn. split.
  - destruct (findIn l ky hs) as [x|] eqn:E; [|done]. intros [= <-].
    apply findIn_Some in E as (Hx & <- & <-).
    apply list_elem_of_fmap. by exists x.
  - intros (x & [= -> -> ->] & Hx)%list_elem_of_fmap.
    by rewrite (findIn_elem l _ _ x).
Qed.

Lemma valueIn_ext l l' ky hs :
  uniqueKeys l → uniqueKeys l' →
  (∀ v, (ky, hs, v) ∈ item <$> l ↔ (ky, hs, v) ∈ item <$> l') →
  valueIn l ky hs = valueIn l' ky hs.
Proof.
  intros Hu Hu' H. apply option_eq. intros v.
  rewrite !valueIn_elem by done. apply H.
Qed.

Lemma uniqueKeys_items l l' :
  item <$> l ≡ₚ item <$> l' → uniqueKeys l → uniqueKeys l'.
Proof.
  unfold uniqueKeys. intros Hp.
  assert ((λ x, (hash x.2, key x.2)) <$> l
          ≡ₚ (λ x, (hash x.2, key x.2)) <$> l') as ->; [|done].
  assert (∀ l0, (λ x : addr * Entry, (hash x.2, key x.2)) <$> l0
                = (λ it : Key * Z * iface Value, (it.1.2, it.1.1)) <$> (item <$> l0)) as E.
  { intros l0. rewrite <-list_fmap_compose. done. }
  rewrite !E. by rewrite Hp.
Qed.

Lemma uniqueKeys_app l1 l2 :
  uniqueKeys (l1 ++ l2) → uniqueKeys l1 ∧ uniqueKeys l2.
Proof.
  unfold uniqueKeys. rewrite fmap_app. intros (? & _ & ?)%NoDup_app. done.
Qed.

Lemma uniqueKeys_drop l1 x l2 :
  uniqueKeys (l1 ++ x :: l2) → uniqueKeys (l1 ++ l2).
Proof.
  unfold uniqueKeys. rewrite !fmap_app, fmap_cons.
  intros (H1 & H2 & H3)%NoDup_app. apply NoDup_cons in H3 as [_ H3].
  apply NoDup_app. split_and!; [done| |done].
  intros y Hy Hy'. apply (H2 y Hy). by right.
Qed.

Lemma setAt_items_keys a v l :
  (λ x, (hash x.2, key x.2)) <$> setAt a v l = (λ x, (hash x.2, key x.2)) <$> l.
Proof.
  unfold setAt. rewrite <-list_fmap_compose. apply list_fmap_ext.
  intros i x _. cbn. by destruct (decide (x.1 = a)).
Qed.

Lemma findIn_setAt a v l ky hs :
  findIn (setAt a v l) ky hs
  = (λ y, if decide (y.1 = a) then (y.1, withValue v y.2) else y)
      <$> findIn l ky hs.
Proof.
  induction l as [|x l IH]; [done|]. unfold setAt in *. cbn [fmap list_fmap].
  rewrite !findIn_cons.
  assert (matches ky hs (if decide (x.1 = a) then (x.1, withValue v x.2) else x)
          = matches ky hs x) as -> by (by destruct (decide (x.1 = a))).
  by destruct (matches ky hs x).
Qed.

End Lookup.

(** ** The methods of a segment, lock-striped variant *)

Section SegmentSteps.
Context {Key Value : Type}.
Context `{!EqDecision Key, !EqDecision Value}.

Implicit Types (h : list (@Entry Key Value)) (l : list (addr * @Entry Key Value)).
Implicit Types (ls : list (list (addr * @Entry Key Value))).
Implicit Types (p : option addr) (a : addr) (en : @Entry Key Value).
Implicit Types (x y : addr * @Entry Key Value).
Implicit Types (ky : Key) (hs : Z) (tab : list (option addr)).
Implicit Types (s : Segment) (st : @SegSt Key Value) (v : iface Value).
Implicit Types (G : Key → Z → Prop).

Local Arguments withValue : simpl never.

(** Projections applied to a constructor, and nothing else. *)
Ltac fields :=
  cbn [heap seg ntables sumCount count table threshold pTable loadFactor
       fst snd] in *.

Lemma lookupIn_bucket G h s ls l ky hs :
  heap_wf h → segOk G h s ls → ls !! bucketOf (table s) hs = Some l →
  lookupIn h (table s) ky hs = mjoin (valueIn l ky hs).
Proof.
  intros Hwf Hok Hl.
  destruct (segOk_bucket G h s ls hs Hok) as (p & l' & Hp & Hl' & Hc & _).
  simplify_eq. unfold lookupIn. rewrite Hp. cbn.
  by rewrite (chainOf_chain h p l).
Qed.

Lemma bucketOf_length tab tab' hs :
  length tab = length tab' → bucketOf tab hs = bucketOf tab' hs.
Proof. unfold bucketOf, bucketIndex. by intros ->. Qed.

Lemma entryOk_length G tab tab' i x :
  length tab = length tab' → entryOk G tab i x → entryOk G tab' i x.
Proof.
  intros Hlen (H1 & H2 & H3). split_and!; [|done..].
  by rewrite <-(bucketOf_length tab tab').
Qed.

(** The entries of a bucket are not in another bucket. *)
Lemma segOk_disjoint G h s ls i j l l' x y :
  segOk G h s ls → ls !! i = Some l → ls !! j = Some l' →
  x ∈ l → y ∈ l' → hash x.2 = hash y.2 → i = j.
Proof.
  intros (_ & _ & Hok) Hl Hl' Hx Hy Hh.
  destruct (Hok i l Hl) as [_ Hi]. destruct (Hok j l' Hl') as [_ Hj].
  rewrite Forall_forall in Hi, Hj.
  destruct (Hi x Hx) as [<- _]. destruct (Hj y Hy) as [<- _]. by rewrite Hh.
Qed.

Lemma get_spec G st ls ky hs :
  heap_wf (heap st) → segOk G (heap st) (seg st) ls →
  WLocking.get st ky hs
  = Some (if count (seg st) =? 0 then None
          else lookupIn (heap st) (table (seg st)) ky hs).
Proof.
  intros Hwf Hok. unfold WLocking.get.
  destruct (count (seg st) =? 0); [done|]. cbn.
  destruct (segOk_bucket G _ _ ls hs Hok) as (p & l & Hp & Hl & Hc & Hi & _).
  unfold WLocking.getFirst. rewrite Hi. cbn.
  rewrite (getLoop_spec _ _ _ l) by (done || by eapply chain_length).
  rewrite (lookupIn_bucket G _ _ ls l) by done.
  unfold valueIn. by destruct (findIn l ky hs).
Qed.

Lemma containsKey_spec G st ls ky hs :
  heap_wf (heap st) → segOk G (heap st) (seg st) ls →
  WLocking.containsKey st ky hs
  = Some (if count (seg st) =? 0 then false
          else bool_decide (lookupIn (heap st) (table (seg st)) ky hs ≠ None)).
Proof.
  intros Hwf Hok. unfold WLocking.containsKey.
  destruct (count (seg st) =? 0); [done|]. cbn.
  destruct (segOk_bucket G _ _ ls hs Hok) as (p & l & Hp & Hl & Hc & Hi & _).
  unfold WLocking.getFirst. rewrite Hi. cbn.
  rewrite (containsLoop_spec _ _ _ l) by (done || by eapply chain_length).
  rewrite (lookupIn_bucket G _ _ ls l) by done. f_equal.
  unfold valueIn. destruct (findIn l ky hs) as [x|] eqn:E; cbn.
  - apply findIn_Some in E as (Hx & _).
    destruct Hok as (_ & _ & Hok). destruct (Hok _ _ Hl) as [_ Hall].
    rewrite Forall_forall in Hall. destruct (Hall x Hx) as (_ & Hv & _).
    symmetry. by apply bool_decide_eq_true_2.
  - done.
Qed.

(** *** Storing a value *)

Lemma heap_wf_storeValue h a en v :
  heap_wf h → h !! a = Some en → heap_wf (<[a := withValue v en]> h).
Proof.
  intros Hwf Ha b eb n Hb Hn. destruct (decide (b = a)) as [->|Hne].
  - rewrite list_lookup_insert_eq in Hb by (by eapply lookup_lt_Some).
    simplify_eq. by eapply Hwf.
  - rewrite list_lookup_insert_ne in Hb by done. by eapply Hwf.
Qed.

Lemma storeValue_eq h a en v :
  h !! a = Some en → storeValue h a v = Some (<[a := withValue v en]> h).
Proof. intros Ha. unfold storeValue. by rewrite Ha. Qed.

Lemma segOk_setAt G h s ls a en v :
  segOk G h s ls → h !! a = Some en → v ≠ None →
  segOk G (<[a := withValue v en]> h) s (setAt a v <$> ls).
Proof.
  intros (Hb & Hlen & Hok) Ha Hv. split_and!; [|done|].
  - unfold buckets in *. apply Forall2_fmap_r.
    eapply Forall2_impl; [done|]. intros p l Hc. by apply chain_storeValue.
  - intros i l' Hl'. rewrite list_lookup_fmap in Hl'.
    destruct (ls !! i) as [l|] eqn:Hl; [|done]. cbn in Hl'. simplify_eq.
    destruct (Hok i l Hl) as [Hu Hall]. split.
    + unfold uniqueKeys. by rewrite setAt_items_keys.
    + unfold setAt. apply Forall_fmap. eapply Forall_impl; [done|].
      intros x (H1 & H2 & H3). cbn.
      destruct (decide (x.1 = a)); [|done]. done.
Qed.

(** After the store, the key whose entry is at [a] has the value [v], and
    the other keys have the value they had. *)
Lemma lookupIn_setAt G h s ls x v ky hs :
  heap_wf h → segOk G h s ls → x ∈ mjoin ls →
  lookupIn (<[x.1 := withValue v x.2]> h) (table s) ky hs
  = if decide (ky = key x.2 ∧ hs = hash x.2) then v
    else lookupIn h (table s) ky hs.
Proof.
  intros Hwf Hok Hx.
  apply list_elem_of_join in Hx as (lx & Hx & Hlx).
  apply list_elem_of_lookup in Hlx as (j & Hlx).
  assert (h !! x.1 = Some x.2) as Ha.
  { destruct Hok as (Hb & _). unfold buckets in Hb.
    destruct (Forall2_lookup_r _ _ _ _ _ Hb Hlx) as (p & _ & Hc).
    by eapply chain_lookup. }
  destruct (segOk_bucket G h s ls hs Hok) as (p & l & Hp & Hl & Hc & _).
  rewrite (lookupIn_bucket G h s ls l) by done.
  assert (lookupIn (<[x.1:=withValue v x.2]> h) (table s) ky hs
          = mjoin (valueIn (setAt x.1 v l) ky hs)) as ->.
  { unfold lookupIn. rewrite Hp. cbn.
    rewrite (chainOf_chain _ p (setAt x.1 v l)); [done|by apply heap_wf_storeValue|].
    by apply chain_storeValue. }
  unfold valueIn. rewrite findIn_setAt.
  destruct (findIn l ky hs) as [y|] eqn:E; cbn.
  - apply findIn_Some in E as (Hy & Hyh & Hyk).
    assert (h !! y.1 = Some y.2) as Hya by (by eapply chain_lookup).
    destruct (decide (y.1 = x.1)) as [Heq|Hne]; cbn.
    + rewrite Heq in Hya. assert (y.2 = x.2) as Heq2 by congruence.
      rewrite decide_True; [done|]. by rewrite <-Heq2.
    + rewrite decide_False; [done|]. intros [-> ->].
      assert (j = bucketOf (table s) (hash x.2)) as ->.
      { destruct Hok as (_ & _ & Hall). destruct (Hall _ _ Hlx) as [_ HF].
        rewrite Forall_forall in HF. by destruct (HF x Hx) as [<- _]. }
      assert (lx = l) as -> by congruence.
      destruct Hok as (_ & _ & Hall). destruct (Hall _ _ Hl) as [Hu _].
      apply Hne. f_equal. by eapply uniqueKeys_inj.
  - rewrite decide_False; [done|]. intros [-> ->].
    assert (j = bucketOf (table s) (hash x.2)) as ->.
    { destruct Hok as (_ & _ & Hall). destruct (Hall _ _ Hlx) as [_ HF].
      rewrite Forall_forall in HF. by destruct (HF x Hx) as [<- _]. }
    assert (lx = l) as -> by congruence. by eapply findIn_None.
Qed.

(** *** A new entry at the head of a bucket *)

Lemma heap_wf_alloc h en :
  heap_wf h → (∀ n, next en = Some n → (n < length h)%nat) →
  heap_wf (h ++ [en]).
Proof.
  intros Hwf Hn b eb n Hb Hnb.
  destruct (decide (b < length h)%nat) as [Hlt|Hge].
  - rewrite lookup_app_l in Hb by done. by eapply Hwf.
  - apply lookup_lt_Some in Hb as Hb'. rewrite length_app in Hb'. cbn in Hb'.
    assert (b = length h) as -> by lia.
    rewrite list_lookup_middle in Hb by done. simplify_eq. auto.
Qed.

Lemma length_join_insert ls i l l' :
  ls !! i = Some l →
  (length (mjoin (<[i := l']> ls)) + length l
   = length (mjoin ls) + length l')%nat.
Proof.
  intros Hl. rewrite insert_take_drop by (by eapply lookup_lt_Some).
  rewrite <-(take_drop_middle ls i l Hl) at 3.
  rewrite !join_app. cbn. rewrite !length_app. lia.
Qed.

Lemma segOk_push G h s ls ky hs v p l c :
  segOk G h s ls → G ky hs → v ≠ None →
  table s !! bucketOf (table s) hs = Some p →
  ls !! bucketOf (table s) hs = Some l →
  findIn l ky hs = None →
  segOk G (h ++ [mkEntry ky hs v p])
    (mkSegment c (threshold s) (pTable s)
       (<[bucketOf (table s) hs := Some (length h)]> (table s)) (loadFactor s))
    (<[bucketOf (table s) hs := (length h, mkEntry ky hs v p) :: l]> ls).
Proof.
  intros Hok HG Hv Hp Hl Hnone.
  pose proof (segOk_grow_heap G h [mkEntry ky hs v p] s ls Hok)
    as (Hb & Hlen & Hall).
  set (i := bucketOf (table s) hs) in *.
  split_and!; cbn [table].
  - unfold buckets in *. apply Forall2_insert; [done|].
    constructor; [by apply list_lookup_middle|]. cbn.
    by eapply Forall2_lookup_lr.
  - by rewrite length_insert.
  - intros j l' Hl'. destruct (decide (j = i)) as [->|Hne].
    + rewrite list_lookup_insert_eq in Hl' by (by eapply lookup_lt_Some).
      simplify_eq. destruct (Hall i l Hl) as [Hu HF]. split.
      * unfold uniqueKeys in *. cbn. constructor; [|done].
        intros (y & [= Hh Hk] & Hy)%list_elem_of_fmap.
        by eapply findIn_None.
      * constructor.
        -- split_and!; cbn; [|done..].
           apply bucketOf_length. by rewrite length_insert.
        -- eapply Forall_impl; [done|]. intros y.
           apply entryOk_length. by rewrite length_insert.
    + rewrite list_lookup_insert_ne in Hl' by done.
      destruct (Hall j l' Hl') as [Hu HF]. split; [done|].
      eapply Forall_impl; [done|]. intros y.
      apply entryOk_length. by rewrite length_insert.
Qed.

Lemma lookupIn_push G h s ls ky hs v p l ky' hs' :
  heap_wf h → segOk G h s ls → G ky hs → v ≠ None →
  table s !! bucketOf (table s) hs = Some p →
  ls !! bucketOf (table s) hs = Some l →
  findIn l ky hs = None →
  lookupIn (h ++ [mkEntry ky hs v p])
    (<[bucketOf (table s) hs := Some (length h)]> (table s)) ky' hs'
  = if decide (ky' = ky ∧ hs' = hs) then v else lookupIn h (table s) ky' hs'.
Proof.
  intros Hwf Hok HG Hv Hp Hl Hnone.
  pose proof (segOk_push G h s ls ky hs v p l 0 Hok HG Hv Hp Hl Hnone) as Hok'.
  assert (heap_wf (h ++ [mkEntry ky hs v p])) as Hwf'.
  { apply heap_wf_alloc; [done|]. cbn. intros n ->.
    destruct Hok as (Hb & _). unfold buckets in Hb.
    pose proof (Forall2_lookup_lr _ _ _ _ _ _ Hb Hp Hl) as Hc.
    inversion Hc; subst. by eapply lookup_lt_Some. }
  destruct (segOk_bucket G h s ls hs' Hok) as (p' & l' & Hp' & Hl' & Hc' & _).
  rewrite (lookupIn_bucket G h s ls l') by done.
  set (i := bucketOf (table s) hs) in *.
  set (s' := mkSegment 0 (threshold s) (pTable s)
               (<[i := Some (length h)]> (table s)) (loadFactor s)) in *.
  set (ls' := <[i := (length h, mkEntry ky hs v p) :: l]> ls) in *.
  set (h' := h ++ [mkEntry ky hs v p]) in *.
  change (<[i := Some (length h)]> (table s)) with (table s').
  assert (bucketOf (table s') hs' = bucketOf (table s) hs') as Hbk.
  { apply bucketOf_length. cbn. by rewrite length_insert. }
  destruct (decide (bucketOf (table s) hs' = i)) as [Hi|Hi].
  - rewrite Hi in *. assert (l' = l) as -> by congruence.
    rewrite (lookupIn_bucket G h' s' ls' ((length h, mkEntry ky hs v p) :: l));
      [|done|done|].
    2:{ rewrite Hbk. unfold ls'.
        apply list_lookup_insert_eq. by eapply lookup_lt_Some. }
    unfold valueIn. rewrite findIn_cons. unfold matches. cbn.
    destruct (decide (ky' = ky ∧ hs' = hs)) as [[-> ->]|Hne].
    + by rewrite Z.eqb_refl, bool_decide_eq_true_2.
    + destruct (Z.eqb_spec hs hs') as [->|]; [|done].
      rewrite bool_decide_eq_false_2; [done|]. intros ->. by apply Hne.
  - rewrite (lookupIn_bucket G h' s' ls' l'); [|done|done|].
    2:{ rewrite Hbk. unfold ls'. by rewrite list_lookup_insert_ne. }
    rewrite decide_False; [done|]. intros [-> ->]. done.
Qed.

Lemma length_join_setAt a v ls :
  length (mjoin (setAt a v <$> ls)) = length (mjoin ls).
Proof.
  rewrite !length_join. f_equal. rewrite <-list_fmap_compose.
  apply list_fmap_ext. intros i y _. cbn. unfold setAt.
  by rewrite length_fmap.
Qed.

(** An entry found by the search loop, with what the invariant says of it. *)
Lemma segOk_found G h s ls l ky hs x :
  segOk G h s ls → ls !! bucketOf (table s) hs = Some l →
  findIn l ky hs = Some x →
  h !! x.1 = Some x.2 ∧ x ∈ mjoin ls ∧ key x.2 = ky ∧ hash x.2 = hs ∧
  value x.2 ≠ None.
Proof.
  intros Hok Hl (Hx & Hh & Hk)%findIn_Some.
  destruct (segOk_bucket G h s ls hs Hok) as (p & l' & _ & Hl' & Hc & _).
  assert (l' = l) as -> by congruence.
  split_and!; [by eapply chain_lookup| |done..|].
  - apply list_elem_of_join. exists l. split; [done|].
    by eapply list_elem_of_lookup_2.
  - destruct Hok as (_ & _ & Hall). destruct (Hall _ _ Hl) as [_ HF].
    rewrite Forall_forall in HF. by destruct (HF x Hx) as (_ & ? & _).
Qed.

Lemma lookupIn_None G h s ls l ky hs :
  heap_wf h → segOk G h s ls → ls !! bucketOf (table s) hs = Some l →
  lookupIn h (table s) ky hs = None ↔ findIn l ky hs = None.
Proof.
  intros Hwf Hok Hl. rewrite (lookupIn_bucket G h s ls l) by done.
  unfold valueIn. destruct (findIn l ky hs) as [x|] eqn:E; [|done]. cbn.
  destruct (segOk_found G h s ls l ky hs x) as (_ & _ & _ & _ & Hv); [done..|].
  split; [done|]. done.
Qed.

Lemma heapStep_refl ky hs h : heapStep ky hs h h.
Proof. exists []. left. by rewrite app_nil_r. Qed.

Lemma heapStep_alloc ky hs h cl : heapStep ky hs h (h ++ cl).
Proof. exists cl. by left. Qed.

Lemma heapStep_store ky hs h x v :
  h !! x.1 = Some x.2 → key x.2 = ky → hash x.2 = hs →
  heapStep ky hs h (<[x.1 := withValue v x.2]> h).
Proof.
  intros Hx Hk Hh. exists []. right. exists x.1, x.2, v.
  by rewrite app_nil_r.
Qed.

(** [putTail]: the value found before is returned; the key has the new
    value afterwards, unless it had one and the call was for absent keys
    only; exactly when the key was absent an entry is added and counted. *)
Lemma putTail_spec G st ls c ky hs v onlyIfAbsent :
  heap_wf (heap st) → segOk G (heap st) (seg st) ls → G ky hs → v ≠ None →
  let old := lookupIn (heap st) (table (seg st)) ky hs in
  ∃ st' ls',
    WLocking.putTail st c ky hs v onlyIfAbsent = Some (st', old) ∧
    heap_wf (heap st') ∧ segOk G (heap st') (seg st') ls' ∧
    heapStep ky hs (heap st) (heap st') ∧
    ntables st' = ntables st ∧ pTable (seg st') = pTable (seg st) ∧
    threshold (seg st') = threshold (seg st) ∧
    loadFactor (seg st') = loadFactor (seg st) ∧
    length (table (seg st')) = length (table (seg st)) ∧
    (∀ ky' hs', lookupIn (heap st') (table (seg st')) ky' hs'
       = if decide (ky' = ky ∧ hs' = hs)
         then (if onlyIfAbsent then from_option Some v old else v)
         else lookupIn (heap st) (table (seg st)) ky' hs') ∧
    (match old with
     | Some _ =>
       count (seg st') = count (seg st) ∧ sumCount st' = sumCount st ∧
       length (mjoin ls') = length (mjoin ls)
     | None =>
       count (seg st') = c ∧ sumCount st' = i32 (sumCount st + 1) ∧
       length (mjoin ls') = S (length (mjoin ls)) ∧
       ∃ p, table (seg st) !! bucketOf (table (seg st)) hs = Some p ∧
            heap st' = heap st ++ [mkEntry ky hs v p] ∧
            table (seg st')
            = <[bucketOf (table (seg st)) hs := Some (length (heap st))]>
                (table (seg st))
     end).
Proof.
  intros Hwf Hok HG Hv old. destruct st as [h nt sm s]. cbn [heap seg] in *.
  destruct (segOk_bucket G h s ls hs Hok) as (p & l & Hp & Hl & Hc & Hi & Hlt & Hidx).
  unfold WLocking.putTail. cbn [heap seg ntables sumCount]. rewrite Hi. cbn.
  rewrite (scan_spec _ _ _ l) by (done || by eapply chain_length). cbn.
  pose proof (lookupIn_bucket G h s ls l ky hs Hwf Hok Hl) as Hold.
  fold old in Hold. unfold valueIn in Hold.
  destruct (findIn l ky hs) as [x|] eqn:E; cbn in Hold |- *.
  - destruct (segOk_found G h s ls l ky hs x) as (Hx & Hxin & Hk & Hh & Hvx);
      [done..|].
    rewrite Hx. cbn. assert (old = value x.2) as Hold' by done.
    destruct (value x.2) as [v0|] eqn:Ev0; [|done]. rewrite Hold'.
    destruct onlyIfAbsent; cbn.
    + eexists _, ls. split; [done|]. fields.
      split_and!; try done; [apply heapStep_refl|].
      intros ky' hs'. destruct (decide (ky' = ky ∧ hs' = hs)) as [[-> ->]|]; [|done].
      by rewrite <-Hold'.
    + rewrite (storeValue_eq h x.1 x.2) by done. cbn.
      eexists _, (setAt x.1 v <$> ls). split; [done|]. fields.
      split_and!; try done.
      * by apply heap_wf_storeValue.
      * by apply segOk_setAt.
      * by apply heapStep_store.
      * intros ky' hs'. rewrite (lookupIn_setAt G h s ls x v) by done.
        rewrite Hk, Hh. done.
      * apply length_join_setAt.
  - rewrite Hold. rewrite Hidx, store_nat by done. cbn.
    eexists _, (<[bucketOf (table s) hs := (length h, mkEntry ky hs v p) :: l]> ls).
    split; [done|]. fields.
    split_and!; try done.
    + apply heap_wf_alloc; [done|]. cbn. intros n ->.
      inversion Hc; subst. by eapply lookup_lt_Some.
    + by apply segOk_push.
    + apply heapStep_alloc.
    + by rewrite length_insert.
    + intros ky' hs'. rewrite (lookupIn_push G h s ls ky hs v p l) by done.
      destruct (decide (ky' = ky ∧ hs' = hs)); [|done].
      by destruct onlyIfAbsent.
    + pose proof (length_join_insert ls (bucketOf (table s) hs) l
                    ((length h, mkEntry ky hs v p) :: l) Hl) as Hj.
      cbn [length] in Hj. lia.
    + eauto.
Qed.

(** [replace]: an entry that is there gets the new value, and the value it
    had is returned; nothing happens for a key that is absent. *)
Lemma replace_spec G st ls ky hs v :
  heap_wf (heap st) → segOk G (heap st) (seg st) ls → v ≠ None →
  let old := lookupIn (heap st) (table (seg st)) ky hs in
  ∃ st' ls',
    WLocking.replace st ky hs v = Some (st', old) ∧
    heap_wf (heap st') ∧ segOk G (heap st') (seg st') ls' ∧
    heapStep ky hs (heap st) (heap st') ∧
    ntables st' = ntables st ∧ sumCount st' = sumCount st ∧
    seg st' = seg st ∧ length (mjoin ls') = length (mjoin ls) ∧
    (∀ ky' hs', lookupIn (heap st') (table (seg st')) ky' hs'
       = if decide (ky' = ky ∧ hs' = hs)
         then (match old with Some _ => v | None => None end)
         else lookupIn (heap st) (table (seg st)) ky' hs').
Proof.
  intros Hwf Hok Hv old. destruct st as [h nt sm s]. cbn [heap seg] in *.
  destruct (segOk_bucket G h s ls hs Hok) as (p & l & Hp & Hl & Hc & Hi & Hlt & Hidx).
  unfold WLocking.replace, WLocking.getFirst.
  cbn [heap seg ntables sumCount]. rewrite Hi. cbn.
  rewrite (scan_spec _ _ _ l) by (done || by eapply chain_length). cbn.
  pose proof (lookupIn_bucket G h s ls l ky hs Hwf Hok Hl) as Hold.
  fold old in Hold. unfold valueIn in Hold.
  destruct (findIn l ky hs) as [x|] eqn:E; cbn in Hold |- *.
  - destruct (segOk_found G h s ls l ky hs x) as (Hx & Hxin & Hk & Hh & Hvx);
      [done..|].
    rewrite Hx. cbn. assert (old = value x.2) as Hold' by done.
    destruct (value x.2) as [v0|] eqn:Ev0; [|done]. rewrite Hold'.
    rewrite (storeValue_eq h x.1 x.2) by done. cbn.
    eexists _, (setAt x.1 v <$> ls). split; [done|]. fields.
    split_and!; try done.
    + by apply heap_wf_storeValue.
    + by apply segOk_setAt.
    + by apply heapStep_store.
    + apply length_join_setAt.
    + intros ky' hs'. rewrite (lookupIn_setAt G h s ls x v) by done.
      rewrite Hk, Hh. done.
  - rewrite Hold. eexists _, ls. split; [done|]. fields.
    split_and!; try done; [apply heapStep_refl|].
    intros ky' hs'. destruct (decide (ky' = ky ∧ hs' = hs)) as [[-> ->]|]; done.
Qed.

(** [replaceWithOld]: the new value is stored exactly when the key has the
    expected value. *)
Lemma replaceWithOld_spec G st ls ky hs oldValue newValue :
  heap_wf (heap st) → segOk G (heap st) (seg st) ls →
  oldValue ≠ None → newValue ≠ None →
  let old := lookupIn (heap st) (table (seg st)) ky hs in
  let ok := bool_decide (oldValue = old) in
  ∃ st' ls',
    WLocking.replaceWithOld st ky hs oldValue newValue = Some (st', ok) ∧
    heap_wf (heap st') ∧ segOk G (heap st') (seg st') ls' ∧
    heapStep ky hs (heap st) (heap st') ∧
    ntables st' = ntables st ∧ sumCount st' = sumCount st ∧
    seg st' = seg st ∧ length (mjoin ls') = length (mjoin ls) ∧
    (∀ ky' hs', lookupIn (heap st') (table (seg st')) ky' hs'
       = if decide (ky' = ky ∧ hs' = hs)
         then (if ok then newValue else old)
         else lookupIn (heap st) (table (seg st)) ky' hs').
Proof.
  intros Hwf Hok Hov Hnv old ok. destruct st as [h nt sm s].
  cbn [heap seg] in *.
  destruct (segOk_bucket G h s ls hs Hok) as (p & l & Hp & Hl & Hc & Hi & Hlt & Hidx).
  unfold WLocking.replaceWithOld, WLocking.getFirst.
  cbn [heap seg ntables sumCount]. rewrite Hi. cbn.
  rewrite (scan_spec _ _ _ l) by (done || by eapply chain_length). cbn.
  pose proof (lookupIn_bucket G h s ls l ky hs Hwf Hok Hl) as Hold.
  fold old in Hold. unfold valueIn in Hold.
  destruct (findIn l ky hs) as [x|] eqn:E; cbn in Hold |- *.
  - destruct (segOk_found G h s ls l ky hs x) as (Hx & Hxin & Hk & Hh & Hvx);
      [done..|].
    rewrite Hx. cbn. assert (old = value x.2) as Hold' by done.
    unfold ok. rewrite Hold'.
    destruct (decide (oldValue = value x.2)) as [Eok|Eok];
      [rewrite !bool_decide_eq_true_2 by done
      |rewrite !bool_decide_eq_false_2 by done]; cbn.
    + rewrite (storeValue_eq h x.1 x.2) by done. cbn.
      eexists _, (setAt x.1 newValue <$> ls). split; [done|]. fields.
      split_and!; try done.
      * by apply heap_wf_storeValue.
      * by apply segOk_setAt.
      * by apply heapStep_store.
      * apply length_join_setAt.
      * intros ky' hs'. rewrite (lookupIn_setAt G h s ls x newValue) by done.
        rewrite Hk, Hh. done.
    + eexists _, ls. split; [done|]. fields.
      split_and!; try done; [apply heapStep_refl|].
      intros ky' hs'.
      destruct (decide (ky' = ky ∧ hs' = hs)) as [[-> ->]|]; [|done].
      by rewrite <-Hold'.
  - unfold ok. rewrite Hold.
    rewrite bool_decide_eq_false_2 by done.
    eexists _, ls. split; [done|]. fields.
    split_and!; try done; [apply heapStep_refl|].
    intros ky' hs'. destruct (decide (ky' = ky ∧ hs' = hs)) as [[-> ->]|]; done.
Qed.

End SegmentSteps.

(** *** Removing an entry *)

Section SegmentRemove.
Context {Key Value : Type}.
Context `{!EqDecision Key, !EqDecision Value}.

Implicit Types (h : list (@Entry Key Value)) (l : list (addr * @Entry Key Value)).
Implicit Types (ls : list (list (addr * @Entry Key Value))).
Implicit Types (p : option addr) (a : addr) (en : @Entry Key Value).
Implicit Types (x y : addr * @Entry Key Value).
Implicit Types (ky : Key) (hs : Z) (tab : list (option addr)).
Implicit Types (s : Segment) (st : @SegSt Key Value) (v : iface Value).
Implicit Types (G : Key → Z → Prop).

Local Arguments withValue : simpl never.
Local Opaque reverse.

Lemma chain_app h p l1 l2 :
  chain h p (l1 ++ l2) →
  chain h (fst <$> head l2) l2 ∧
  ∀ h' l2', (∀ y, y ∈ l1 → h' !! y.1 = Some y.2) →
            chain h' (fst <$> head l2) l2' → chain h' p (l1 ++ l2').
Proof.
  revert p. induction l1 as [|y l1 IH]; intros p Hc; cbn in *.
  - pose proof (chain_head _ _ _ Hc) as ->. split; [done|]. by intros.
  - inversion Hc as [|? ? ? Hy Hl]; subst. destruct (IH _ Hl) as [H1 H2].
    split; [done|]. intros h' l2' Hin Hc'. constructor.
    + apply (Hin (a, en)). by left.
    + apply H2; [|done]. intros z Hz. apply Hin. by right.
Qed.

(** The cloning loop of [remove]: the entries [pre] in front of the one at
    [a] are copied one after the other, each copy pointing to the previous
    one and the first to [newFirst]; the copies [cl] come out in reverse. *)
Lemma chain_valid h p l n : chain h p l → p = Some n → (n < length h)%nat.
Proof. destruct 1; intros [= <-]. by eapply lookup_lt_Some. Qed.

Lemma cloneBefore_spec fuel h p pre x post newFirst acc :
  heap_wf h →
  chain h p (pre ++ x :: post) → x.1 ∉ pre.*1 →
  chain h newFirst acc → (length pre ≤ fuel)%nat →
  ∃ cl nf,
    cloneBefore fuel h p x.1 newFirst = Some (h ++ (snd <$> reverse cl), nf) ∧
    heap_wf (h ++ (snd <$> reverse cl)) ∧
    chain (h ++ (snd <$> reverse cl)) nf (cl ++ acc) ∧
    item <$> cl = reverse (item <$> pre) ∧
    cl.*1 = reverse (seq (length h) (length pre)) ∧
    nf = fst <$> head (cl ++ acc).
Proof.
  revert fuel h p newFirst acc.
  induction pre as [|y pre IH]; intros fuel h p newFirst acc Hwf Hc Hn Hacc Hf.
  - cbn in Hc. pose proof (chain_head _ _ _ Hc) as ->. cbn.
    exists [], newFirst. rewrite reverse_nil. cbn [fmap list_fmap app].
    rewrite app_nil_r.
    destruct fuel; cbn; rewrite bool_decide_eq_true_2 by done;
      split_and!; try done; by apply chain_head in Hacc.
  - destruct fuel as [|fuel]; [cbn in Hf; lia|].
    cbn in Hc. inversion Hc as [|b eb l' Hb Hl']; subst.
    apply not_elem_of_cons in Hn as [Hne Hn]. cbn in Hne.
    cbn. rewrite bool_decide_eq_false_2 by congruence. cbn. rewrite Hb. cbn.
    set (c := mkEntry (key eb) (hash eb) (value eb) newFirst).
    destruct (IH fuel (h ++ [c]) (next eb) (Some (length h))
                ((length h, c) :: acc))
      as (cl & nf & Hcl & Hwf' & Hch & Hit & Had & Hnf).
    + apply heap_wf_alloc; [done|]. cbn. intros n ->.
      exact (chain_valid _ _ _ _ Hacc eq_refl).
    + by apply chain_grow.
    + done.
    + constructor; [by apply list_lookup_middle|]. by apply chain_grow.
    + cbn in Hf. lia.
    + exists (cl ++ [(length h, c)]), nf.
      assert (h ++ (reverse (cl ++ [(length h, c)])).*2
              = (h ++ [c]) ++ (reverse cl).*2) as ->.
      { rewrite reverse_app, reverse_singleton, fmap_app, app_assoc. done. }
      rewrite <-(app_assoc cl). cbn [app].
      split_and!; try done.
      * rewrite fmap_app, fmap_cons, reverse_cons, Hit. done.
      * rewrite fmap_app, Had, length_app. cbn [length fmap list_fmap fst].
        replace (length h + 1)%nat with (S (length h)) by lia.
        by rewrite <-reverse_cons.
Qed.

Lemma entryOk_item G tab i x y :
  item x = item y → entryOk G tab i x → entryOk G tab i y.
Proof. unfold entryOk, item. intros [= -> -> ->]. done. Qed.

Lemma uniqueKeys_not_in l1 x l2 y :
  uniqueKeys (l1 ++ x :: l2) → y ∈ l1 ++ l2 →
  ¬ (hash y.2 = hash x.2 ∧ key y.2 = key x.2).
Proof.
  unfold uniqueKeys. rewrite fmap_app, fmap_cons.
  intros (H1 & H2 & H3)%NoDup_app. apply NoDup_cons in H3 as [H3 _].
  intros [Hy|Hy]%elem_of_app [Hh Hk].
  - apply (H2 (hash x.2, key x.2)); [|left].
    apply list_elem_of_fmap. exists y. by rewrite Hh, Hk.
  - apply H3. apply list_elem_of_fmap. exists y. by rewrite Hh, Hk.
Qed.

(** Without the entry [x], the key of [x] has no value and the other keys
    have the value they had, in whatever order the entries come. *)
Lemma valueIn_remove l1 x l2 l' ky hs :
  uniqueKeys (l1 ++ x :: l2) → item <$> l' ≡ₚ item <$> (l1 ++ l2) →
  valueIn l' ky hs
  = if decide (ky = key x.2 ∧ hs = hash x.2) then None
    else valueIn (l1 ++ x :: l2) ky hs.
Proof.
  intros Hu Hp.
  assert (uniqueKeys l') as Hu'.
  { eapply uniqueKeys_items; [symmetry; exact Hp|].
    by eapply uniqueKeys_drop. }
  destruct (decide (ky = key x.2 ∧ hs = hash x.2)) as [[-> ->]|Hne].
  - apply eq_None_not_Some. intros [v Hv].
    apply valueIn_elem in Hv; [|done]. rewrite Hp in Hv.
    apply list_elem_of_fmap in Hv as (y & [= Hk Hh _] & Hy).
    by eapply uniqueKeys_not_in.
  - apply valueIn_ext; [done..|]. intros v. rewrite Hp.
    rewrite !fmap_app, fmap_cons, !elem_of_app, elem_of_cons.
    split; [tauto|]. intros [?|[Heq|?]]; [tauto| |tauto].
    exfalso. apply Hne. by injection Heq as -> ->.
Qed.

(** [remove] when it deletes: the state it leaves, in full. *)
Lemma remove_hit G st ls ky hs v l pre x post :
  heap_wf (heap st) → segOk G (heap st) (seg st) ls →
  ls !! bucketOf (table (seg st)) hs = Some l →
  l = pre ++ x :: post → findIn l ky hs = Some x →
  v = None ∨ v = value x.2 →
  let h := heap st in
  let s := seg st in
  let i := bucketOf (table s) hs in
  ∃ cl,
    WLocking.remove st ky hs v
    = Some (mkSegSt (h ++ (snd <$> reverse cl)) (ntables st)
              (i32 (sumCount st + -1))
              (mkSegment (i32 (count s - 1)) (threshold s) (pTable s)
                 (<[i := fst <$> head (cl ++ post)]> (table s))
                 (loadFactor s)),
            value x.2) ∧
    item <$> cl = reverse (item <$> pre) ∧
    cl.*1 = reverse (seq (length h) (length pre)) ∧
    chain (h ++ (snd <$> reverse cl)) (fst <$> head (cl ++ post)) (cl ++ post) ∧
    heap_wf (h ++ (snd <$> reverse cl)) ∧
    segOk G (h ++ (snd <$> reverse cl))
      (mkSegment (i32 (count s - 1)) (threshold s) (pTable s)
         (<[i := fst <$> head (cl ++ post)]> (table s)) (loadFactor s))
      (<[i := cl ++ post]> ls).
Proof.
  intros Hwf Hok Hl -> Hfind Hv h s i. destruct st as [h0 nt sm s0].
  cbn [heap seg ntables sumCount] in *. subst h s.
  destruct (segOk_bucket G h0 s0 ls hs Hok)
    as (p & l & Hp & Hl' & Hc & Hi & Hlt & Hidx).
  fold i in Hp, Hl', Hlt, Hidx, Hl. assert (l = pre ++ x :: post) as -> by congruence.
  destruct (segOk_found G h0 s0 ls _ ky hs x Hok Hl Hfind)
    as (Hx & Hxin & Hk & Hh & Hvx).
  assert (x.1 ∉ pre.*1) as Hnin.
  { pose proof (chain_NoDup _ _ _ Hwf Hc) as Hnd.
    rewrite fmap_app, fmap_cons in Hnd.
    apply NoDup_app in Hnd as (_ & Hnd & _). intros Hin.
    apply (Hnd _ Hin). by left. }
  assert (chain h0 (next x.2) post) as Hpost.
  { apply chain_app in Hc as [Hc' _]. cbn in Hc'.
    inversion Hc' as [|? ? ? Hlk Hrest]; subst. done. }
  destruct (cloneBefore_spec (length h0) h0 p pre x post (next x.2) post)
    as (cl & nf & Hcl & Hwf' & Hch & Hit & Had & Hnf); try done.
  { pose proof (chain_length _ _ _ Hwf Hc) as Hlen.
    rewrite length_app in Hlen. lia. }
  exists cl. subst nf.
  assert (length cl = length pre) as Hlen.
  { by rewrite <-(length_fmap item cl), Hit, length_reverse, length_fmap. }
  split_and!; try done.
  - unfold WLocking.remove. cbn [heap seg ntables sumCount]. rewrite Hi. cbn.
    rewrite (scan_spec _ _ _ (pre ++ x :: post))
      by (done || by eapply chain_length).
    rewrite Hfind. cbn. rewrite Hx. cbn.
    assert (isNil v || bool_decide (v = value x.2) = true) as ->.
    { destruct Hv as [->| ->]; [done|].
      rewrite bool_decide_eq_true_2 by done. apply orb_true_r. }
    rewrite Hcl. cbn. rewrite Hidx, store_nat by done. done.
  - destruct Hok as (Hb & Hpow & Hall). split_and!; cbn [table].
    + unfold buckets in *. apply Forall2_insert; [|done].
      eapply Forall2_impl; [done|]. intros q lq. apply chain_grow.
    + by rewrite length_insert.
    + intros j lj Hlj. destruct (decide (j = i)) as [->|Hne].
      * rewrite list_lookup_insert_eq in Hlj by (by eapply lookup_lt_Some).
        simplify_eq. destruct (Hall i _ Hl) as [Hu HF]. split.
        -- eapply (uniqueKeys_items (pre ++ post)).
           ++ rewrite !fmap_app, Hit. by rewrite reverse_Permutation.
           ++ by eapply uniqueKeys_drop.
        -- rewrite Forall_app, Forall_cons in HF.
           destruct HF as (HF1 & _ & HF2).
           apply Forall_app. split.
           ++ apply Forall_forall. intros c Hcin.
              assert (item c ∈ item <$> pre) as Hci.
              { apply elem_of_reverse. rewrite <-Hit.
                apply list_elem_of_fmap. by exists c. }
              apply list_elem_of_fmap in Hci as (y & Hy & Hyin).
              rewrite Forall_forall in HF1.
              apply (entryOk_item G _ _ y c); [done|].
              eapply entryOk_length; [|by apply HF1].
              by rewrite length_insert.
           ++ eapply Forall_impl; [done|]. intros y.
              apply entryOk_length. by rewrite length_insert.
      * rewrite list_lookup_insert_ne in Hlj by done.
        destruct (Hall j lj Hlj) as [Hu HF]. split; [done|].
        eapply Forall_impl; [done|]. intros y.
        apply entryOk_length. by rewrite length_insert.
Qed.

(** [remove]: the entry of the key is taken out when there is one and its
    value is the expected one, if any is given; its value is returned then,
    and [nil] otherwise. *)
Lemma remove_spec G st ls ky hs v :
  heap_wf (heap st) → segOk G (heap st) (seg st) ls →
  let old := lookupIn (heap st) (table (seg st)) ky hs in
  let hit := bool_decide (old ≠ None ∧ (v = None ∨ v = old)) in
  ∃ st' ls',
    WLocking.remove st ky hs v = Some (st', if hit then old else None) ∧
    heap_wf (heap st') ∧ segOk G (heap st') (seg st') ls' ∧
    heapStep ky hs (heap st) (heap st') ∧
    ntables st' = ntables st ∧ pTable (seg st') = pTable (seg st) ∧
    threshold (seg st') = threshold (seg st) ∧
    loadFactor (seg st') = loadFactor (seg st) ∧
    length (table (seg st')) = length (table (seg st)) ∧
    (∀ ky' hs', lookupIn (heap st') (table (seg st')) ky' hs'
       = if decide (ky' = ky ∧ hs' = hs) then (if hit then None else old)
         else lookupIn (heap st) (table (seg st)) ky' hs') ∧
    (if hit then
       count (seg st') = i32 (count (seg st) - 1) ∧
       sumCount st' = i32 (sumCount st + -1) ∧
       S (length (mjoin ls')) = length (mjoin ls)
     else st' = st ∧ ls' = ls).
Proof.
  intros Hwf Hok old hit.
  destruct (segOk_bucket G _ _ ls hs Hok)
    as (p & l & Hp & Hl & Hc & Hi & Hlt & Hidx).
  pose proof (lookupIn_bucket G _ _ ls l ky hs Hwf Hok Hl) as Hold.
  fold old in Hold. unfold valueIn in Hold.
  destruct (findIn l ky hs) as [x|] eqn:E; cbn in Hold.
  - destruct (segOk_found G _ _ ls l ky hs x Hok Hl E)
      as (Hx & Hxin & Hk & Hh & Hvx).
    destruct (decide (v = None ∨ v = value x.2)) as [Hv|Hv].
    + assert (hit = true) as ->.
      { apply bool_decide_eq_true_2. by rewrite Hold. }
      apply findIn_Some in E as HE. destruct HE as (Hxl & _).
      apply list_elem_of_split in Hxl as (pre & post & ->).
      destruct (remove_hit G st ls ky hs v _ pre x post Hwf Hok Hl eq_refl E Hv)
        as (cl & Hrm & Hit & Had & Hch & Hwf' & Hok').
      eexists _, _. rewrite Hold. split; [exact Hrm|].
      cbn [heap seg ntables sumCount count table threshold pTable loadFactor].
      split_and!; try done.
      * apply heapStep_alloc.
      * by rewrite length_insert.
      * intros ky' hs'.
        set (s' := mkSegment (i32 (count (seg st) - 1)) (threshold (seg st))
              (pTable (seg st))
              (<[bucketOf (table (seg st)) hs := fst <$> head (cl ++ post)]>
                 (table (seg st))) (loadFactor (seg st))) in *.
        change (<[bucketOf (table (seg st)) hs := fst <$> head (cl ++ post)]>
                  (table (seg st))) with (table s').
        assert (bucketOf (table s') hs' = bucketOf (table (seg st)) hs') as Hbk.
        { apply bucketOf_length. cbn. by rewrite length_insert. }
        destruct (segOk_bucket G _ _ ls hs' Hok) as (p' & l' & _ & Hl' & _).
        rewrite (lookupIn_bucket G (heap st) _ ls l') by done.
        destruct (decide (bucketOf (table (seg st)) hs'
                          = bucketOf (table (seg st)) hs)) as [Hbeq|Hbne].
        -- rewrite (lookupIn_bucket G _ s'
                      (<[bucketOf (table (seg st)) hs := cl ++ post]> ls)
                      (cl ++ post)); [|done|done|].
           2:{ rewrite Hbk, Hbeq. apply list_lookup_insert_eq.
               by eapply lookup_lt_Some. }
           rewrite Hbeq in Hl'. assert (l' = pre ++ x :: post) as -> by congruence.
           rewrite (valueIn_remove pre x post).
           ++ rewrite Hk, Hh. by destruct (decide (ky' = ky ∧ hs' = hs)).
           ++ destruct Hok as (_ & _ & Hall). by destruct (Hall _ _ Hl).
           ++ rewrite !fmap_app, Hit. by rewrite reverse_Permutation.
        -- rewrite (lookupIn_bucket G _ s'
                      (<[bucketOf (table (seg st)) hs := cl ++ post]> ls) l');
             [|done|done|].
           2:{ rewrite Hbk. by rewrite list_lookup_insert_ne. }
           rewrite decide_False; [done|]. intros [-> ->]. done.
      * pose proof (length_join_insert ls _ _ (cl ++ post) Hl) as Hj.
        rewrite !length_app in Hj. cbn [length] in Hj.
        assert (length cl = length pre) as Hlen.
        { by rewrite <-(length_fmap item cl), Hit, length_reverse, length_fmap. }
        lia.
    + assert (hit = false) as ->.
      { apply bool_decide_eq_false_2. rewrite Hold. tauto. }
      exists st, ls. split_and!; try done; [|apply heapStep_refl|].
      * unfold WLocking.remove. rewrite Hi. cbn.
        rewrite (scan_spec _ _ _ l) by (done || by eapply chain_length).
        rewrite E. cbn. rewrite Hx. cbn.
        assert (isNil v || bool_decide (v = value x.2) = false) as ->; [|done].
        apply orb_false_intro.
        -- destruct v; [done|]. exfalso. apply Hv. by left.
        -- apply bool_decide_eq_false_2. tauto.
      * intros ky' hs'.
        destruct (decide (ky' = ky ∧ hs' = hs)) as [[-> ->]|]; done.
  - assert (hit = false) as ->.
    { apply bool_decide_eq_false_2. rewrite Hold. tauto. }
    exists st, ls. split_and!; try done; [|apply heapStep_refl|].
    + unfold WLocking.remove. rewrite Hi. cbn.
      rewrite (scan_spec _ _ _ l) by (done || by eapply chain_length).
      by rewrite E.
    + intros ky' hs'.
      destruct (decide (ky' = ky ∧ hs' = hs)) as [[-> ->]|]; done.
Qed.

End SegmentRemove.


(** ** Rehash *)

Section Rehash.
Context {Key Value : Type}.
Context `{!EqDecision Key, !EqDecision Value}.

Implicit Types (h : list (@Entry Key Value)) (l : list (addr * @Entry Key Value)).
Implicit Types (ls : list (list (addr * @Entry Key Value))).
Implicit Types (p : option addr) (a : addr) (en : @Entry Key Value).
Implicit Types (x y : addr * @Entry Key Value).
Implicit Types (ky : Key) (hs : Z) (tab N : list (option addr)).
Implicit Types (s : Segment) (st : @SegSt Key Value) (v : iface Value).
Implicit Types (G : Key → Z → Prop).

Local Opaque reverse.

(** The trailing run: the chain splits into [pre] and a run [suf] that
    starts at the address returned and whose entries all go to the bucket
    returned. *)
Lemma lastRunLoop_spec fuel h last rest mask lastIdx lastRun pre0 run0 :
  u32 mask = mask →
  chain h last rest → (length rest ≤ fuel)%nat →
  fst <$> head run0 = Some lastRun →
  Forall (λ x, Z.land (hash x.2) mask = lastIdx) run0 →
  ∃ pre suf li lr,
    lastRunLoop fuel h last mask lastIdx lastRun = Some (li, lr) ∧
    pre0 ++ run0 ++ rest = pre ++ suf ∧
    fst <$> head suf = Some lr ∧
    Forall (λ x, Z.land (hash x.2) mask = li) suf.
Proof.
  intros Hmask Hc. revert fuel lastIdx lastRun pre0 run0.
  induction Hc as [|a en rest Ha _ IH];
    intros fuel lastIdx lastRun pre0 run0 Hf Hhd Hrun.
  - exists pre0, run0, lastIdx, lastRun. rewrite app_nil_r.
    by destruct fuel.
  - destruct fuel as [|fuel]; [cbn in Hf; lia|].
    cbn. rewrite Ha. cbn. rewrite Hmask.
    destruct (Z.eqb_spec (Z.land (hash en) mask) lastIdx) as [Heq|Hne]; cbn.
    + destruct (IH fuel lastIdx lastRun pre0 (run0 ++ [(a, en)]))
        as (pre & suf & li & lr & Hl & Hsplit & Hhd' & Hall).
      * cbn in Hf. lia.
      * by destruct run0.
      * apply Forall_app. split; [done|]. by constructor.
      * exists pre, suf, li, lr. split_and!; try done.
        rewrite <-Hsplit, <-!app_assoc. done.
    + destruct (IH fuel (Z.land (hash en) mask) a (pre0 ++ run0) [(a, en)])
        as (pre & suf & li & lr & Hl & Hsplit & Hhd' & Hall).
      * cbn in Hf. lia.
      * done.
      * by constructor.
      * exists pre, suf, li, lr. split_and!; try done.
        rewrite <-Hsplit, <-!app_assoc. done.
Qed.

Lemma index_land {A} (t : list A) z mask :
  0 ≤ mask → index t (Z.land z mask) = t !! Z.to_nat (Z.land z mask).
Proof.
  intros Hm. unfold index.
  assert (0 ≤ Z.land z mask) by (apply Z.land_nonneg; auto).
  by destruct (Z.leb_spec 0 (Z.land z mask)); [|lia].
Qed.

Lemma store_land {A} (t : list A) z mask (x : A) :
  0 ≤ mask → (Z.to_nat (Z.land z mask) < length t)%nat →
  store t (Z.land z mask) x = Some (<[Z.to_nat (Z.land z mask) := x]> t).
Proof.
  intros Hm Hlt.
  assert (0 ≤ Z.land z mask) by (apply Z.land_nonneg; auto).
  rewrite <-(Z2Nat.id (Z.land z mask)) at 1 by done. by apply store_nat.
Qed.

(** The cloning loop of [rehash]: every entry of [pre] is copied in front
    of the chain of its new bucket. *)
Lemma cloneRest_spec fuel h N Ls p pre suf lastRun mask :
  0 ≤ mask → heap_wf h → buckets h N Ls →
  chain h p (pre ++ suf) → fst <$> head suf = Some lastRun →
  lastRun ∉ pre.*1 → Forall (λ x, (slotOf mask x < length N)%nat) pre →
  (length pre ≤ fuel)%nat →
  ∃ cl N' Ls',
    cloneRest fuel h N p lastRun mask = Some (h ++ cl, N') ∧
    heap_wf (h ++ cl) ∧ buckets (h ++ cl) N' Ls' ∧
    length N' = length N ∧
    (∀ j lj, Ls !! j = Some lj →
       ∃ c, Ls' !! j = Some (c ++ lj) ∧
            item <$> c = reverse (item <$> filter (λ x, slotOf mask x = j) pre)) ∧
    length (mjoin Ls') = (length (mjoin Ls) + length pre)%nat.
Proof.
  intros Hmask. revert fuel h N Ls p.
  induction pre as [|y pre IH]; intros fuel h N Ls p Hwf Hb Hc Hhd Hnin Hsl Hf.
  - cbn in Hc. pose proof (chain_head _ _ _ Hc) as ->. rewrite Hhd.
    exists [], N, Ls. rewrite app_nil_r.
    assert (cloneRest fuel h N (Some lastRun) lastRun mask = Some (h, N)) as ->.
    { destruct fuel; cbn; by rewrite bool_decide_eq_true_2. }
    split_and!; try done; try lia.
    intros j lj Hlj. exists []. split; [done|]. by rewrite filter_nil.
  - destruct fuel as [|fuel]; [cbn in Hf; lia|].
    cbn in Hc. inversion Hc as [|b eb l' Hlk Hl']; subst.
    apply not_elem_of_cons in Hnin as [Hne Hnin]. cbn in Hne.
    apply Forall_cons in Hsl as [Hy Hsl]. unfold slotOf in Hy. cbn in Hy.
    cbn. rewrite bool_decide_eq_false_2 by congruence. cbn. rewrite Hlk. cbn.
    rewrite index_land by done.
    destruct (lookup_lt_is_Some_2 N _ Hy) as [n Hn]. rewrite Hn. cbn.
    rewrite store_land by done. cbn.
    set (k := Z.to_nat (Z.land (hash eb) mask)) in *.
    set (c := mkEntry (key eb) (hash eb) (value eb) n).
    unfold buckets in Hb.
    destruct (Forall2_lookup_l _ _ _ _ _ Hb Hn) as (lk & Hlk' & Hck).
    destruct (IH fuel (h ++ [c]) (<[k := Some (length h)]> N)
                (<[k := (length h, c) :: lk]> Ls) (next eb))
      as (cl & N' & Ls' & Hcl & Hwf' & Hb' & HlenN & Hitems & Hlen).
    + apply heap_wf_alloc; [done|]. cbn. intros m ->.
      exact (chain_valid _ _ _ _ Hck eq_refl).
    + unfold buckets. apply Forall2_insert.
      * eapply Forall2_impl; [done|]. intros q lq. apply chain_grow.
      * constructor; [by apply list_lookup_middle|]. by apply chain_grow.
    + by apply chain_grow.
    + done.
    + done.
    + eapply Forall_impl; [done|]. intros z. by rewrite length_insert.
    + cbn in Hf. lia.
    + exists ([c] ++ cl), N', Ls'. rewrite app_assoc.
      split_and!; try done.
      * by rewrite HlenN, length_insert.
      * intros j lj Hlj.
        destruct (decide (j = k)) as [->|Hjk].
        -- assert (lj = lk) as -> by congruence.
           destruct (Hitems k ((length h, c) :: lk)) as (c' & Hc' & Hit').
           { apply list_lookup_insert_eq. by eapply lookup_lt_Some. }
           exists (c' ++ [(length h, c)]). rewrite <-app_assoc. split; [done|].
           rewrite decide_True by done.
           rewrite fmap_app, (fmap_cons item (b, eb)), reverse_cons, Hit'. done.
        -- destruct (Hitems j lj) as (c' & Hc' & Hit').
           { by rewrite list_lookup_insert_ne. }
           exists c'. split; [done|].
           rewrite decide_False; [done|]. unfold slotOf. cbn. fold k. congruence.
      * rewrite Hlen.
        pose proof (length_join_insert Ls k lk ((length h, c) :: lk) Hlk') as Hj.
        cbn [length] in *. lia.
Qed.

Lemma filter_all {A} (P : A → Prop) `{∀ w, Decision (P w)} (k : list A) :
  Forall P k → filter P k = k.
Proof.
  induction 1 as [|w k Hw _ IH]; [done|].
  rewrite filter_cons, decide_True by done. by rewrite IH.
Qed.

Lemma filter_none {A} (P : A → Prop) `{∀ w, Decision (P w)} (k : list A) :
  Forall (λ w, ¬ P w) k → filter P k = [].
Proof.
  induction 1 as [|w k Hw _ IH]; [done|].
  by rewrite filter_cons, decide_False.
Qed.

(** One old bucket: each of its entries, or a copy of it, is added to the
    new bucket its hash selects, provided these buckets were empty. *)
Lemma rehashBucket_spec h N Ls p l mask :
  0 ≤ mask → u32 mask = mask → heap_wf h → buckets h N Ls → chain h p l →
  Forall (λ x, (slotOf mask x < length N)%nat ∧ Ls !! slotOf mask x = Some []) l →
  ∃ cl N' Ls',
    rehashBucket h N p mask = Some (h ++ cl, N') ∧ heap_wf (h ++ cl) ∧
    buckets (h ++ cl) N' Ls' ∧ length N' = length N ∧
    (∀ j lj, Ls !! j = Some lj →
       ∃ lj', Ls' !! j = Some lj' ∧
              item <$> lj'
              ≡ₚ (item <$> filter (λ x, slotOf mask x = j) l) ++ (item <$> lj)) ∧
    length (mjoin Ls') = (length (mjoin Ls) + length l)%nat.
Proof.
  intros Hmask Hu Hwf Hb Hc Hall.
  destruct Hc as [|a en rest Ha Hrest].
  { exists [], N, Ls. rewrite app_nil_r. split_and!; try done; try (cbn; lia).
    intros j lj Hlj. exists lj. by rewrite filter_nil. }
  apply Forall_cons in Hall as [[Hx Hxe] Hall].
  unfold rehashBucket. rewrite Ha. cbn [mbind option_bind].
  destruct (next en) as [b|] eqn:Hnext.
  - (* a chain of two entries or more *)
    destruct (lastRunLoop_spec (length h) h (Some b) rest mask
                (Z.land (hash en) mask) a [] [(a, en)])
      as (pre & suf & li & lr & Hl & Hsplit & Hhd & Hsuf); try done.
    { eapply chain_length; done. }
    { by constructor. }
    rewrite Hl. cbn [mbind option_bind].
    cbn [app] in Hsplit.
    assert (chain h (Some a) (pre ++ suf)) as Hc.
    { rewrite <-Hsplit. constructor; [done|]. by rewrite Hnext. }
    destruct suf as [|z suf]; [done|]. cbn in Hhd. simplify_eq.
    apply Forall_cons in Hsuf as Hsuf'. destruct Hsuf' as [Hz _].
    assert (Forall (λ x, (slotOf mask x < length N)%nat
                         ∧ Ls !! slotOf mask x = Some []) (pre ++ z :: suf))
      as Hall'.
    { rewrite <-Hsplit. by constructor. }
    apply Forall_app in Hall' as [Hpre Hzs].
    apply Forall_cons in Hzs as [[Hzlt Hze] _].
    rewrite <-Hz. rewrite store_land by done. cbn [mbind option_bind].
    fold (slotOf mask z) in *. set (k := slotOf mask z) in *.
    destruct (cloneRest_spec (length h) h (<[k := Some z.1]> N)
                (<[k := z :: suf]> Ls) (Some a) pre (z :: suf) z.1 mask)
      as (cl & N' & Ls' & Hcl & Hwf' & Hb' & HlenN & Hitems & Hlen);
      try done.
    + unfold buckets in *. apply Forall2_insert; [done|].
      apply chain_app in Hc as [Hc' _]. done.
    + pose proof (chain_NoDup _ _ _ Hwf Hc) as Hnd.
      rewrite fmap_app, fmap_cons in Hnd.
      apply NoDup_app in Hnd as (_ & Hnd & _). intros Hin.
      apply (Hnd _ Hin). by left.
    + eapply Forall_impl; [done|]. intros y [? _]. by rewrite length_insert.
    + pose proof (chain_length _ _ _ Hwf Hc) as Hlen.
      rewrite length_app in Hlen. lia.
    + exists cl, N', Ls'. split_and!; try done.
      * by rewrite HlenN, length_insert.
      * intros j lj Hlj. rewrite Hsplit, filter_app.
        destruct (decide (j = k)) as [->|Hjk].
        -- assert (lj = []) as -> by congruence.
           destruct (Hitems k (z :: suf)) as (c & Hc' & Hit).
           { apply list_lookup_insert_eq. by eapply lookup_lt_Some. }
           exists (c ++ z :: suf). split; [done|].
           rewrite (filter_all _ (z :: suf)).
           2:{ eapply Forall_impl; [done|]. intros y Hy. unfold k, slotOf.
               by rewrite Hy, Hz. }
           rewrite !fmap_app, Hit, app_nil_r. by rewrite reverse_Permutation.
        -- destruct (Hitems j lj) as (c & Hc' & Hit).
           { by rewrite list_lookup_insert_ne. }
           exists (c ++ lj). split; [done|].
           rewrite (filter_none _ (z :: suf)).
           2:{ eapply Forall_impl; [done|]. intros y Hy Hj. apply Hjk.
               rewrite <-Hj. unfold k, slotOf. by rewrite Hy, Hz. }
           rewrite !fmap_app, Hit, app_nil_r. by rewrite reverse_Permutation.
      * rewrite Hlen.
        pose proof (length_join_insert Ls k [] (z :: suf) Hze) as Hj.
        assert (length ((a, en) :: rest) = length (pre ++ z :: suf)) as Hl'
          by (by rewrite Hsplit).
        rewrite length_app in Hl'. cbn [length] in *. lia.
  - (* a single entry *)
    inversion Hrest; subst.
    rewrite store_land by done. cbn [mbind option_bind].
    fold (slotOf mask (a, en)) in *. set (k := slotOf mask (a, en)) in *.
    exists [], (<[k := Some a]> N), (<[k := [(a, en)]]> Ls).
    rewrite app_nil_r. split_and!; try done.
    + unfold buckets in *. apply Forall2_insert; [done|].
      constructor; [done|]. rewrite Hnext. constructor.
    + by rewrite length_insert.
    + intros j lj Hlj. rewrite filter_cons, filter_nil.
      destruct (decide (j = k)) as [->|Hjk].
      * assert (lj = []) as -> by congruence.
        exists [(a, en)]. split.
        { apply list_lookup_insert_eq. by eapply lookup_lt_Some. }
        by rewrite decide_True.
      * exists lj. split; [by rewrite list_lookup_insert_ne|].
        by rewrite decide_False.
    + pose proof (length_join_insert Ls k [] [(a, en)] Hxe) as Hj.
      cbn [length] in *. lia.
Qed.

Lemma mod_pow2_double z k :
  0 ≤ k →
  z `mod` 2 ^ (k + 1) = z `mod` 2 ^ k
  ∨ z `mod` 2 ^ (k + 1) = z `mod` 2 ^ k + 2 ^ k.
Proof.
  intros Hk. rewrite Z.pow_add_r, Z.pow_1_r by lia.
  pose proof (pow2_bound k k ltac:(lia)).
  rewrite Z.rem_mul_r by lia.
  pose proof (Z.mod_pos_bound (z `div` 2 ^ k) 2 ltac:(lia)).
  assert ((z `div` 2 ^ k) `mod` 2 = 0 ∨ (z `div` 2 ^ k) `mod` 2 = 1) as [->| ->]
    by lia; lia.
Qed.

Lemma land_mask_mod z k : 0 ≤ k → Z.land z (2 ^ k - 1) = z `mod` 2 ^ k.
Proof.
  intros Hk.
  replace (2 ^ k - 1) with (Z.ones k) by (rewrite Z.ones_equiv; lia).
  by apply Z.land_ones.
Qed.

(** Where the entries of the old bucket [i] go when a table of [2^k]
    buckets doubles: to [i] or to [i + 2^k]. *)
Lemma slotOf_double tab k x i :
  0 ≤ k ≤ 30 → Z.of_nat (length tab) = 2 ^ k → bucketOf tab (hash x.2) = i →
  (slotOf (2 ^ (k + 1) - 1) x = i ∨ slotOf (2 ^ (k + 1) - 1) x = i + length tab)%nat
  ∧ (i < length tab)%nat.
Proof.
  intros Hk Hlen <-. unfold slotOf, bucketOf.
  rewrite (bucketIndex_mod _ _ k), land_mask_mod by (done || lia).
  pose proof (pow2_bound k 30 ltac:(lia)).
  pose proof (Z.mod_pos_bound (hash x.2) (2 ^ k) ltac:(lia)).
  destruct (mod_pow2_double (hash x.2) k) as [-> | ->]; lia.
Qed.

Lemma uniqueKeys_filter (P : addr * @Entry Key Value → Prop)
    `{∀ w, Decision (P w)} l :
  uniqueKeys l → uniqueKeys (filter P l).
Proof.
  unfold uniqueKeys. induction l as [|y l IH]; [done|].
  rewrite fmap_cons, NoDup_cons. intros [Hy Hl]. rewrite filter_cons.
  destruct (decide (P y)); [|auto].
  rewrite fmap_cons. constructor; [|auto].
  intros (w & Hw & Hin)%list_elem_of_fmap. apply Hy.
  apply list_elem_of_fmap. exists w. split; [done|].
  by apply list_elem_of_filter in Hin as [_ ?].
Qed.

(** The loop over the old buckets.  After [m] of them, a new bucket [j]
    holds, in some order, the entries of the old bucket [j mod n] that go to
    [j] when that bucket is among the first [m], and nothing otherwise. *)
Lemma rehashLoop_spec G h s ls k rest :
  0 ≤ k < 30 → Z.of_nat (length (table s)) = 2 ^ k →
  heap_wf h → segOk G h s ls →
  let n := length (table s) in
  let mask := 2 ^ (k + 1) - 1 in
  ∀ m cl0 N Ls,
    drop m (table s) = rest → (m ≤ n)%nat →
    heap_wf (h ++ cl0) → buckets (h ++ cl0) N Ls → length N = (2 * n)%nat →
    (∀ j l, Ls !! j = Some l →
       item <$> l
       ≡ₚ if decide (j `mod` n < m)%nat
          then item <$> filter (λ x, slotOf mask x = j) (ls !!! (j `mod` n)%nat)
          else []) →
    length (mjoin Ls) = length (mjoin (take m ls)) →
    ∃ cl N' Ls',
      rehashLoop rest (h ++ cl0) N mask = Some (h ++ cl, N') ∧
      heap_wf (h ++ cl) ∧ buckets (h ++ cl) N' Ls' ∧
      length N' = (2 * n)%nat ∧
      (∀ j l, Ls' !! j = Some l →
         item <$> l
         ≡ₚ item <$> filter (λ x, slotOf mask x = j) (ls !!! (j `mod` n)%nat)) ∧
      length (mjoin Ls') = length (mjoin ls).
Proof.
  intros Hk Hlen Hwf Hok n mask.
  assert (0 < n)%nat as Hn.
  { pose proof (pow2_bound k 30 ltac:(lia)). unfold n. lia. }
  assert (length ls = n) as Hlsn.
  { destruct Hok as (Hb & _). symmetry. by eapply Forall2_length. }
  induction rest as [|e rest IH]; intros m cl0 N Ls Hdrop Hm Hwf' Hb HN Hit HlenJ.
  - assert (m = n) as ->.
    { apply drop_nil_inv in Hdrop. unfold n. lia. }
    exists cl0, N, Ls. split_and!; try done.
    + intros j l Hl. rewrite (Hit j l Hl). rewrite decide_True; [done|].
      by apply Nat.mod_upper_bound, Nat.neq_0_lt_0.
    + by rewrite HlenJ, <-Hlsn, firstn_all.
  - assert (table s !! m = Some e) as He.
    { rewrite <-(Nat.add_0_r m), <-lookup_drop, Hdrop. done. }
    assert (m < n)%nat as Hmn by (by eapply lookup_lt_Some).
    destruct Hok as (Hbk & Hpow & Hall). unfold buckets in Hbk.
    destruct (Forall2_lookup_l _ _ _ _ _ Hbk He) as (l & Hl & Hc).
    destruct (Hall m l Hl) as [Hu HF].
    assert (Forall (λ x, (slotOf mask x = m ∨ slotOf mask x = m + n)%nat) l)
      as Hslots.
    { eapply Forall_impl; [exact HF|]. intros x (Hx & _).
      by destruct (slotOf_double (table s) k x m) as [? _]; [lia|done..]. }
    assert (mask = 2 ^ (k + 1) - 1) as Hmask by done.
    pose proof (pow2_bound (k + 1) 30 ltac:(lia)).
    assert (length Ls = (2 * n)%nat) as HLs.
    { rewrite <-HN. symmetry. by eapply Forall2_length. }
    destruct (rehashBucket_spec (h ++ cl0) N Ls e l mask)
      as (cl & N' & Ls' & Hrb & Hwf'' & Hb' & HN' & Hit' & HlenJ'); try done.
    + lia.
    + apply u32_small. lia.
    + by apply chain_grow.
    + rewrite Forall_forall in Hslots |- *. intros x Hx.
      assert (slotOf mask x < 2 * n)%nat as Hlt
        by (destruct (Hslots x Hx); lia).
      split; [lia|].
      destruct (lookup_lt_is_Some_2 Ls (slotOf mask x)) as [lq Hlq]; [lia|].
      rewrite Hlq. f_equal. pose proof (Hit _ _ Hlq) as Hp.
      rewrite decide_False in Hp.
      * apply Permutation_nil_r in Hp. by destruct lq.
      * destruct (Hslots x Hx) as [-> | ->].
        -- rewrite Nat.mod_small by lia. lia.
        -- replace (m + n)%nat with (m + 1 * n)%nat by lia.
           rewrite Nat.Div0.mod_add, Nat.mod_small by lia. lia.
    + assert (drop (S m) (table s) = rest) as Hdrop'.
      { rewrite (drop_S _ _ _ He) in Hdrop. by injection Hdrop. }
      assert (∀ j, (j `mod` n ≠ m)%nat →
                filter (λ x, slotOf mask x = j) l = []) as Hnone.
      { intros j Hj. apply filter_none.
        eapply Forall_impl; [exact Hslots|]. intros x Hx Hxj.
        apply Hj. rewrite <-Hxj. destruct Hx as [-> | ->].
        - by rewrite Nat.mod_small.
        - replace (m + n)%nat with (m + 1 * n)%nat by lia.
          by rewrite Nat.Div0.mod_add, Nat.mod_small. }
      rewrite <-app_assoc in Hrb, Hwf'', Hb'.
      destruct (IH (S m) (cl0 ++ cl) N' Ls')
        as (cl' & N'' & Ls'' & Hloop & Hrest); try done.
      * lia.
      * intros j l' Hl'.
        assert (j < 2 * n)%nat as Hj.
        { apply lookup_lt_Some in Hl'.
          assert (length Ls' = length N') by (symmetry; by eapply Forall2_length).
          lia. }
        destruct (lookup_lt_is_Some_2 Ls j) as [lj Hlj]; [lia|].
        destruct (Hit' j lj Hlj) as (lj' & Hlj' & Hp).
        assert (l' = lj') as -> by congruence.
        rewrite Hp. pose proof (Hit j lj Hlj) as Hq.
        destruct (decide (j `mod` n = m)%nat) as [Hjm|Hjm].
        -- rewrite decide_False in Hq by lia. rewrite decide_True by lia.
           rewrite Hq, app_nil_r, Hjm.
           by rewrite (list_lookup_total_correct _ _ _ Hl).
        -- rewrite (Hnone j Hjm). cbn [fmap list_fmap app]. rewrite Hq.
           destruct (decide (j `mod` n < m)%nat).
           ++ by rewrite decide_True by lia.
           ++ by rewrite decide_False by lia.
      * rewrite HlenJ', HlenJ, (take_S_r _ _ _ Hl), join_app, length_app.
        cbn. rewrite app_nil_r. done.
      * exists cl', N'', Ls''. split; [|done].
        cbn [rehashLoop]. rewrite Hrb. cbn [mbind option_bind]. done.
Qed.

Lemma bucketOf_slotOf tab k x :
  0 ≤ k ≤ 30 → Z.of_nat (length tab) = 2 ^ k →
  bucketOf tab (hash x.2) = slotOf (2 ^ k - 1) x.
Proof.
  intros Hk Hlen. unfold bucketOf, slotOf, bucketIndex. rewrite Hlen.
  pose proof (pow2_bound k 30 ltac:(lia)). by rewrite u32_small by lia.
Qed.

(** [grow]: the table doubles; a new bucket [j] holds, in some order, the
    entries of the old bucket [j mod n] whose hash selects [j], as they were
    or copied; every key keeps its value. *)
Lemma grow_spec G st ls :
  heap_wf (heap st) → segOk G (heap st) (seg st) ls →
  Z.of_nat (length (table (seg st))) < MAXIMUM_CAPACITY →
  let s := seg st in
  let n := length (table s) in
  ∃ cl N' ls',
    grow st
    = Some (mkSegSt (heap st ++ cl) (S (ntables st)) (sumCount st)
              (mkSegment (count s)
                 (thresholdFor (Z.of_nat (length N')) (loadFactor s))
                 (ntables st) N' (loadFactor s))) ∧
    heap_wf (heap st ++ cl) ∧
    segOk G (heap st ++ cl)
      (mkSegment (count s) (thresholdFor (Z.of_nat (length N')) (loadFactor s))
         (ntables st) N' (loadFactor s)) ls' ∧
    length N' = (2 * n)%nat ∧
    (∀ j l, ls' !! j = Some l →
       item <$> l
       ≡ₚ item <$> filter (λ x, bucketOf N' (hash x.2) = j)
                     (ls !!! (j `mod` n)%nat)) ∧
    length (mjoin ls') = length (mjoin ls) ∧
    (∀ ky hs, lookupIn (heap st ++ cl) N' ky hs
              = lookupIn (heap st) (table s) ky hs).
Proof.
  intros Hwf Hok Hmax s n. destruct st as [h nt sm s0]. cbn [heap seg] in *.
  subst s. pose proof Hok as (Hbk & (k & Hk & Hlen) & Hall).
  assert (MAXIMUM_CAPACITY = 2 ^ 30) as HM by done.
  assert (k < 30) as Hk'.
  { rewrite Hlen, HM in Hmax. apply pow2_lt_inv in Hmax; lia. }
  pose proof (pow2_bound k 29 ltac:(lia)) as Hpk.
  assert (2 ^ (k + 1) = 2 * 2 ^ k) as Hdbl
    by (rewrite Z.pow_add_r by lia; lia).
  assert (0 < n)%nat as Hn by (unfold n; lia).
  unfold grow. cbn [heap seg ntables sumCount]. fold n.
  assert (Z.to_nat (int (Z.shiftl (Z.of_nat n) 1)) = (2 * n)%nat) as ->.
  { rewrite Z.shiftl_mul_pow2 by lia. unfold n. rewrite Hlen.
    rewrite int_small by lia. lia. }
  rewrite length_replicate.
  assert (u32 (Z.of_nat (2 * n) - 1) = 2 ^ (k + 1) - 1) as ->.
  { rewrite u32_small; unfold n; lia. }
  destruct (rehashLoop_spec G h s0 ls k (table s0) ltac:(lia) Hlen Hwf Hok
              0%nat [] (replicate (2 * n) None) (replicate (2 * n) []))
    as (cl & N' & ls' & Hloop & Hwf' & Hb' & HN' & Hit & HlenJ).
  - done.
  - lia.
  - by rewrite app_nil_r.
  - rewrite app_nil_r. unfold buckets. apply Forall2_replicate. constructor.
  - by rewrite length_replicate.
  - intros j l (-> & _)%lookup_replicate. by rewrite decide_False by lia.
  - rewrite take_0. generalize (2 * n)%nat. intros m.
    induction m as [|m IH]; [done|]. cbn in *. done.
  - rewrite app_nil_r in Hloop. fold n in Hit, HN'.
    exists cl, N', ls'. rewrite Hloop. cbn [mbind option_bind].
    assert (Z.of_nat (length N') = 2 ^ (k + 1)) as HlenN'
      by (rewrite HN'; unfold n; lia).
    assert (∀ j l, ls' !! j = Some l →
       item <$> l
       ≡ₚ item <$> filter (λ x, bucketOf N' (hash x.2) = j)
                     (ls !!! (j `mod` n)%nat)) as Hit'.
    { intros j l Hl. rewrite (Hit j l Hl).
      erewrite (list_filter_iff _ (λ x, bucketOf N' (hash x.2) = j)); [done|].
      intros x. by rewrite (bucketOf_slotOf N' (k + 1)) by (done || lia). }
    assert (∀ j l, ls' !! j = Some l →
              ∃ l0, ls !! (j `mod` n)%nat = Some l0 ∧ ls !!! (j `mod` n)%nat = l0)
      as Hold.
    { intros j l Hl.
      assert (length ls = n) as Hlsn.
      { symmetry. by eapply Forall2_length. }
      destruct (lookup_lt_is_Some_2 ls (j `mod` n)%nat) as [l0 Hl0].
      { rewrite Hlsn. by apply Nat.mod_upper_bound, Nat.neq_0_lt_0. }
      exists l0. split; [done|]. by apply list_lookup_total_correct. }
    assert (segOk G (h ++ cl)
              (mkSegment (count s0)
                 (thresholdFor (Z.of_nat (length N')) (loadFactor s0)) nt N'
                 (loadFactor s0)) ls') as Hok'.
    { split_and!; cbn [table]; [done|exists (k + 1); split; [lia|done]|].
      intros j l Hl. destruct (Hold j l Hl) as (l0 & Hl0 & Hl0').
      pose proof (Hit' j l Hl) as Hp. rewrite Hl0' in Hp.
      destruct (Hall _ _ Hl0) as [Hu HF]. split.
      - eapply uniqueKeys_items; [symmetry; exact Hp|].
        by apply uniqueKeys_filter.
      - apply Forall_forall. intros y Hy.
        assert (item y ∈ item <$> l) as Hiy
          by (apply list_elem_of_fmap; by exists y).
        rewrite Hp in Hiy. apply list_elem_of_fmap in Hiy as (x & Hxy & Hx).
        apply list_elem_of_filter in Hx as [Hxj Hx].
        rewrite Forall_forall in HF. destruct (HF x Hx) as (_ & Hv & HG).
        apply (entryOk_item G _ _ x y); [done|]. done. }
    split_and!; try done.
    intros ky hs.
    destruct (segOk_bucket G _ _ ls' hs Hok') as (p' & l' & _ & Hl' & _).
    cbn [table] in Hl'.
    destruct (Hold _ _ Hl') as (l0 & Hl0 & Hl0').
    assert ((bucketOf N' hs `mod` n)%nat = bucketOf (table s0) hs) as Hbo.
    { unfold bucketOf. rewrite (bucketIndex_mod N' hs (k + 1)) by (lia || done).
      rewrite (bucketIndex_mod (table s0) hs k) by (lia || done).
      pose proof (Z.mod_pos_bound hs (2 ^ k) ltac:(lia)).
      apply Nat2Z.inj. rewrite Nat2Z.inj_mod, !Z2Nat.id; try lia.
      2:{ apply Z.mod_pos_bound. lia. }
      unfold n. rewrite Hlen.
      destruct (mod_pow2_double hs k ltac:(lia)) as [-> | ->].
      - by rewrite Z.mod_mod by lia.
      - replace (hs `mod` 2 ^ k + 2 ^ k) with (hs `mod` 2 ^ k + 1 * 2 ^ k)
          by lia.
        rewrite Z.mod_add by lia. by rewrite Z.mod_mod by lia. }
    rewrite Hbo in Hl0.
    rewrite (lookupIn_bucket G (h ++ cl) _ ls' l' ky hs Hwf' Hok' Hl').
    rewrite (lookupIn_bucket G h s0 ls l0 ky hs Hwf Hok Hl0).
    f_equal. pose proof (Hit' _ _ Hl') as Hp. rewrite Hl0' in Hp.
    destruct (Hall _ _ Hl0) as [Hu _].
    apply valueIn_ext.
    + eapply uniqueKeys_items; [symmetry; exact Hp|].
      by apply uniqueKeys_filter.
    + done.
    + intros v. rewrite Hp. split.
      * intros (x & Hx & Hin)%list_elem_of_fmap.
        apply list_elem_of_filter in Hin as [_ Hin].
        apply list_elem_of_fmap. by exists x.
      * intros (x & Hx & Hin)%list_elem_of_fmap.
        apply list_elem_of_fmap. exists x. split; [done|].
        apply list_elem_of_filter. split; [|done].
        injection Hx as _ -> _. done.
Qed.

End Rehash.


(** ** Serial runs of the CAS-based variant

    When nothing runs in between, every re-read in a retry loop finds what
    was read before: one round is enough, and does what the lock-striped
    method does. *)

Section Serial.
Context {Key Value : Type}.
Context `{!EqDecision Key, !EqDecision Value}.

Implicit Types (st : @SegSt Key Value) (ky : Key) (hs : Z) (v : iface Value).

Lemma serial_rehash st :
  (count (seg st) >? threshold (seg st)) = true →
  LockFree.rehash st = WLocking.rehash st.
Proof. unfold LockFree.rehash, WLocking.rehash. by intros ->. Qed.

Lemma rehash_count st st' :
  WLocking.rehash st = Some st' →
  count (seg st') = count (seg st) ∧ sumCount st' = sumCount st ∧
  loadFactor (seg st') = loadFactor (seg st).
Proof.
  unfold WLocking.rehash.
  destruct (_ >=? _); [by intros [= <-]|].
  unfold grow. destruct (rehashLoop _ _ _ _) as [[h' N']|]; [|done].
  by intros [= <-].
Qed.

Lemma serial_get st ky hs : LockFree.get st ky hs = WLocking.get st ky hs.
Proof.
  unfold LockFree.get, WLocking.get, LockFree.getFirst, WLocking.getFirst.
  destruct (negb _); [|done]. by destruct (index _ _).
Qed.

Lemma serial_containsKey st ky hs :
  LockFree.containsKey st ky hs = WLocking.containsKey st ky hs.
Proof.
  unfold LockFree.containsKey, WLocking.containsKey, LockFree.getFirst,
    WLocking.getFirst.
  destruct (negb _); [|done]. by destruct (index _ _).
Qed.

(** What is left of a round once the reads are known. *)
Ltac serial :=
  repeat first
    [ progress cbn -[scan cloneBefore]
    | rewrite bool_decide_eq_true_2 by done
    | progress unfold LockFree.load, LockFree.cas, LockFree.withHeap,
        LockFree.withTable, LockFree.addCounts
    | match goal with H : index _ _ = Some _ |- _ => rewrite H end ].

Lemma serial_putLoop fuel st ky hs v onlyIfAbsent first :
  index (table (seg st)) (bucketIndex (table (seg st)) hs) = Some first →
  LockFree.putLoop (S fuel) st first (pTable (seg st))
    (bucketIndex (table (seg st)) hs) first ky hs v onlyIfAbsent
  = WLocking.putTail st (i32 (count (seg st) + 1)) ky hs v onlyIfAbsent.
Proof.
  intros Hi. destruct st as [h nt sm [c t p tab lf]].
  unfold WLocking.putTail. cbn -[scan] in *. rewrite Hi. cbn -[scan].
  destruct (scan _ _ _ _ _) as [[a|]|]; serial; [| |done].
  - destruct (h !! a) as [en|]; [|done]. serial.
    destruct onlyIfAbsent; serial; [done|].
    destruct (storeValue h a v) as [h'|]; [|done]. by serial.
  - destruct (store tab _ _) as [tab'|]; [|done]. by serial.
Qed.

(** [put], one round or more. *)
Lemma serial_put fuel st ky hs v onlyIfAbsent :
  LockFree.put (S fuel) st ky hs v onlyIfAbsent
  = WLocking.put st ky hs v onlyIfAbsent.
Proof.
  unfold LockFree.put, WLocking.put.
  destruct (count (seg st) >? threshold (seg st)) eqn:Hc.
  - rewrite serial_rehash by done.
    destruct (WLocking.rehash st) as [st1|] eqn:Hr; [|done]. cbn.
    destruct (rehash_count _ _ Hr) as (<- & _).
    unfold LockFree.getFirst.
    destruct (index _ _) as [first|] eqn:Hi; cbn.
    + by apply serial_putLoop.
    + unfold WLocking.putTail. by rewrite Hi.
  - cbn. unfold LockFree.getFirst.
    destruct (index _ _) as [first|] eqn:Hi; cbn.
    + by apply serial_putLoop.
    + unfold WLocking.putTail. by rewrite Hi.
Qed.

Lemma serial_remove fuel st ky hs v :
  LockFree.remove (S fuel) st ky hs v = WLocking.remove st ky hs v.
Proof.
  unfold LockFree.remove, WLocking.remove, LockFree.getFirst.
  destruct st as [h nt sm [c t p tab lf]]. cbn -[scan cloneBefore].
  destruct (index _ _) as [first|] eqn:Hi; [|done]. cbn -[scan cloneBefore].
  destruct (scan _ _ _ _ _) as [[a|]|]; serial; [| |done].
  - destruct (h !! a) as [en|]; [|done]. serial.
    destruct (isNil v || bool_decide (v = value en)); serial; [|done].
    destruct (cloneBefore _ _ _ _ _) as [[h' nf]|]; [|done]. serial.
    destruct (store tab _ _) as [tab'|]; [|done]. by serial.
  - done.
Qed.

Lemma serial_replace fuel st ky hs v :
  LockFree.replace (S fuel) st ky hs v = WLocking.replace st ky hs v.
Proof.
  unfold LockFree.replace, WLocking.replace, LockFree.getFirst,
    WLocking.getFirst.
  destruct st as [h nt sm [c t p tab lf]]. cbn -[scan].
  destruct (index _ _) as [first|] eqn:Hi; [|done]. cbn -[scan].
  destruct (scan _ _ _ _ _) as [[a|]|]; serial; [| |done].
  - destruct (h !! a) as [en|]; [|done]. serial.
    destruct (storeValue h a v) as [h'|]; [|done]. by serial.
  - done.
Qed.

Lemma serial_replaceWithOld fuel st ky hs oldValue newValue :
  LockFree.replaceWithOld (S fuel) st ky hs oldValue newValue
  = WLocking.replaceWithOld st ky hs oldValue newValue.
Proof.
  unfold LockFree.replaceWithOld, WLocking.replaceWithOld, LockFree.getFirst,
    WLocking.getFirst.
  destruct st as [h nt sm [c t p tab lf]]. cbn -[scan].
  destruct (index _ _) as [first|] eqn:Hi; [|done]. cbn -[scan].
  destruct (scan _ _ _ _ _) as [[a|]|]; serial; [| |done].
  - destruct (h !! a) as [en|]; [|done]. serial.
    destruct (decide (oldValue = value en));
      [rewrite !(bool_decide_eq_true_2 (oldValue = _)) by done
      |rewrite !(bool_decide_eq_false_2 (oldValue = _)) by done]; serial;
      [|done].
    destruct (storeValue h a newValue) as [h'|]; [|done]. by serial.
  - done.
Qed.

End Serial.


(** ** Maps *)

Section Maps.
Context {Key Value : Type}.
Context `{!EqDecision Key, !EqDecision Value}.
Variable hashI : Key → Z.
Variable hash2 : Z → Z.

Implicit Types (h : list (@Entry Key Value)) (l : list (addr * @Entry Key Value)).
Implicit Types (ls : list (list (addr * @Entry Key Value))).
Implicit Types (x y : addr * @Entry Key Value).
Implicit Types (ky k : Key) (hs : Z).
Implicit Types (s : Segment) (st : @SegSt Key Value) (v : iface Value).
Implicit Types (m : @ConcurrentMap Key Value).
Implicit Types (G : Key → Z → Prop).

Abbreviation routed := (routed hashI hash2).
Abbreviation mapOk := (mapOk hashI hash2).
Abbreviation lookup := (lookup hashI hash2).
Abbreviation mapEntries := (@mapEntries Key Value).

(** The chains of a segment are not touched by a method that runs for a key
    of another segment. *)
Lemma segOk_heapStep G h h' s ls ky hs :
  segOk G h s ls → ¬ G ky hs → heapStep ky hs h h' → segOk G h' s ls.
Proof.
  intros Hok HG (cl & [-> | (a & en & v & Ha & Hk & Hh & ->)]).
  - by apply segOk_grow_heap.
  - apply segOk_insert_other; [by apply segOk_grow_heap|].
    intros (x & -> & Hx)%list_elem_of_fmap.
    apply list_elem_of_join in Hx as (l & Hx & Hl).
    apply list_elem_of_lookup in Hl as (j & Hl).
    destruct Hok as (Hb & _ & Hall). unfold buckets in Hb.
    destruct (Forall2_lookup_r _ _ _ _ _ Hb Hl) as (p & _ & Hc).
    pose proof (chain_lookup _ _ _ _ (chain_grow _ cl _ _ Hc) Hx) as Hlk.
    assert (x.2 = en) as Hxe by congruence.
    destruct (Hall _ _ Hl) as [_ HF]. rewrite Forall_forall in HF.
    destruct (HF x Hx) as (_ & _ & HGx). apply HG.
    by rewrite <-Hk, <-Hh, <-Hxe.
Qed.

Lemma heapStep_grow ky hs h cl h' :
  heapStep ky hs (h ++ cl) h' → heapStep ky hs h h'.
Proof.
  intros (cl' & [-> | (a & en & v & Ha & Hk & Hh & ->)]).
  - exists (cl ++ cl'). left. by rewrite app_assoc.
  - exists (cl ++ cl'). right. exists a, en, v. by rewrite app_assoc.
Qed.

Lemma tableEntries_buckets h tab ls :
  heap_wf h → buckets h tab ls → tableEntries h tab = mjoin ls.
Proof. intros Hwf Hb. unfold tableEntries. by rewrite (buckets_chainOf h tab ls). Qed.

(** The segment of a hash exists. *)
Lemma mapOk_segmentFor m hs :
  mapOk m →
  ∃ s, segmentFor m hs = Some s ∧
       segments m !! Z.to_nat (segmentIndex m hs) = Some s ∧
       0 ≤ segmentIndex m hs.
Proof.
  intros (_ & (ks & Hks & Hmask & Hlen) & _ & _).
  unfold segmentFor, segmentIndex. rewrite Hmask.
  pose proof (pow2_bound ks 16 ltac:(lia)).
  rewrite u32_small by lia. rewrite land_mask_mod by lia.
  pose proof (Z.mod_pos_bound (Z.shiftr hs (segmentShift m)) (2 ^ ks) ltac:(lia)).
  destruct (lookup_lt_is_Some_2 (segments m)
              (Z.to_nat (Z.shiftr hs (segmentShift m) `mod` 2 ^ ks)))
    as [s Hs]; [lia|].
  exists s. split_and!; [|done|lia].
  unfold index. destruct (Z.leb_spec 0 (Z.shiftr hs (segmentShift m) `mod` 2 ^ ks)); [done|lia].
Qed.

Lemma lookup_segment m k s :
  segmentFor m (hash2 (hashI k)) = Some s →
  lookup m k = lookupIn (mheap m) (table s) k (hash2 (hashI k)).
Proof. unfold lookup. by intros ->. Qed.

Lemma i32_add_l (a b : Z) : i32 (i32 a + b) = i32 (a + b).
Proof.
  unfold i32. f_equal.
  replace ((a + 2 ^ 31) `mod` 2 ^ 32 - 2 ^ 31 + b + 2 ^ 31)
    with ((a + 2 ^ 31) `mod` 2 ^ 32 + b) by lia.
  rewrite Zplus_mod_idemp_l. f_equal. lia.
Qed.

Lemma i32_add_r (a b : Z) : i32 (a + i32 b) = i32 (a + b).
Proof. by rewrite Z.add_comm, i32_add_l, Z.add_comm. Qed.

Lemma i32_idemp (a : Z) : i32 (i32 a) = i32 a.
Proof.
  replace (i32 a) with (i32 a + 0) at 1 by lia.
  rewrite i32_add_l. f_equal. lia.
Qed.

(** The entries of the map after a method wrote its segment back. *)
Lemma mapEntries_leave m i s st' ls' G :
  segments m !! i = Some s → heap_wf (heap st') →
  segOk G (heap st') (seg st') ls' →
  (∀ j sj, j ≠ i → segments m !! j = Some sj →
     tableEntries (heap st') (table sj) = tableEntries (mheap m) (table sj)) →
  (length (mapEntries (leave m (Z.of_nat i) st'))
     + length (tableEntries (mheap m) (table s))
   = length (mapEntries m) + length (mjoin ls'))%nat.
Proof.
  intros Hs Hwf (Hb & _) Hother. unfold mapEntries, leave.
  cbn [mheap segments]. rewrite Nat2Z.id, list_fmap_insert.
  rewrite (tableEntries_buckets _ _ ls') by done.
  replace (<[i:=mjoin ls']>
             ((λ s0, tableEntries (heap st') (table s0)) <$> segments m))
    with (<[i:=mjoin ls']>
             ((λ s0, tableEntries (mheap m) (table s0)) <$> segments m)).
  - apply length_join_insert. by rewrite list_lookup_fmap, Hs.
  - apply list_eq. intros j. destruct (decide (j = i)) as [->|Hj].
    + rewrite !list_lookup_insert_eq; [done|..];
        rewrite length_fmap; by eapply lookup_lt_Some.
    + rewrite !list_lookup_insert_ne by done. rewrite !list_lookup_fmap.
      destruct (segments m !! j) as [sj|] eqn:Hsj; [|done]. cbn.
      by rewrite (Hother j sj).
Qed.

(** A method that ran on the segment of the key [ky] and left it in order
    leaves the map in order; the keys of the segment have the values the
    method gave them, and the keys of the other segments keep theirs; [d]
    entries were added. *)
Lemma leave_ok m s st' ls' ky new d :
  let hs := hash2 (hashI ky) in
  let i := Z.to_nat (segmentIndex m hs) in
  mapOk m → segmentFor m hs = Some s →
  heap_wf (heap st') →
  segOk (routed (segmentShift m) (segmentMask m) i) (heap st') (seg st') ls' →
  heapStep ky hs (mheap m) (heap st') →
  count (seg st') = i32 (Z.of_nat (length (mjoin ls'))) →
  sumCount st' = i32 (mcount m + d) →
  Z.of_nat (length (mjoin ls'))
  = Z.of_nat (length (tableEntries (mheap m) (table s))) + d →
  (∀ ky' hs', lookupIn (heap st') (table (seg st')) ky' hs'
     = if decide (ky' = ky ∧ hs' = hs) then new
       else lookupIn (mheap m) (table s) ky' hs') →
  let m' := leave m (segmentIndex m hs) st' in
  mapOk m' ∧
  (∀ k', lookup m' k' = if decide (k' = ky) then new else lookup m k') ∧
  Z.of_nat (length (mapEntries m')) = Z.of_nat (length (mapEntries m)) + d.
Proof.
  intros hs i Hm Hs Hwf' Hok' Hstep Hcount Hsum Hlen Hlook m'.
  destruct (mapOk_segmentFor m hs Hm) as (s0 & Hs0 & Hsi & Hnn).
  assert (s0 = s) as -> by congruence. fold i in Hsi.
  pose proof Hm as (Hwf & Hseg & Hall & Hmc).
  assert (∀ j sj, j ≠ i → segments m !! j = Some sj →
            ∃ ls, segOk (routed (segmentShift m) (segmentMask m) j)
                    (mheap m) sj ls ∧
                  segOk (routed (segmentShift m) (segmentMask m) j)
                    (heap st') sj ls ∧
                  count sj = i32 (Z.of_nat (length (mjoin ls)))) as Hframe.
  { intros j sj Hj Hsj. destruct (Hall j sj Hsj) as (ls & Hok & Hc).
    exists ls. split_and!; [done| |done].
    eapply segOk_heapStep; [done| |done].
    intros [_ Hr]. apply Hj. by rewrite <-Hr. }
  assert (Z.of_nat (length (mapEntries m'))
          = Z.of_nat (length (mapEntries m)) + d) as Hent.
  { pose proof (mapEntries_leave m i s st' ls' _ Hsi Hwf' Hok') as Hl.
    unfold m'. rewrite <-(Z2Nat.id (segmentIndex m hs)) by done. fold i.
    enough (length (mapEntries (leave m (Z.of_nat i) st'))
              + length (tableEntries (mheap m) (table s))
            = length (mapEntries m) + length (mjoin ls'))%nat by lia.
    apply Hl. intros j sj Hj Hsj.
    destruct (Hframe j sj Hj Hsj) as (ls & [Hb1 _] & [Hb2 _] & _).
    by rewrite !(tableEntries_buckets _ _ ls). }
  split_and!; [|clear Hent|done].
  - split_and!.
    + done.
    + destruct Hseg as (ks & ? & ? & ?). exists ks.
      unfold m', leave. cbn [segments segmentMask]. by rewrite length_insert.
    + unfold m', leave. cbn [mheap segments segmentMask segmentShift].
      intros j sj Hsj. destruct (decide (j = i)) as [->|Hj].
      * fold i in Hsj.
        rewrite list_lookup_insert_eq in Hsj by (by eapply lookup_lt_Some).
        simplify_eq. by exists ls'.
      * fold i in Hsj.
        rewrite list_lookup_insert_ne in Hsj by done.
        destruct (Hframe j sj Hj Hsj) as (ls & _ & ? & ?). by exists ls.
    + rewrite Hent. unfold m', leave. cbn [mcount].
      by rewrite Hsum, Hmc, i32_add_l.
  - intros k'. unfold m', lookup, segmentFor, segmentIndex.
    cbn [mheap segments segmentMask segmentShift leave].
    fold (segmentIndex m (hash2 (hashI k'))).
    destruct (mapOk_segmentFor m (hash2 (hashI k')) Hm) as (s' & Hs' & Hsi' & Hnn').
    unfold segmentFor in Hs'. rewrite Hs'.
    unfold index in *.
    destruct (Z.leb_spec 0 (segmentIndex m (hash2 (hashI k')))); [|lia].
    fold i.
    destruct (decide (Z.to_nat (segmentIndex m (hash2 (hashI k'))) = i))
      as [Heq|Hne].
    + rewrite Heq in *.
      rewrite list_lookup_insert_eq by (by eapply lookup_lt_Some).
      assert (s' = s) as -> by congruence.
      rewrite Hlook. destruct (decide (k' = ky)) as [->|Hk].
      * by rewrite decide_True.
      * rewrite decide_False; [done|]. by intros [? _].
    + rewrite list_lookup_insert_ne by done. rewrite Hsi'.
      rewrite decide_False.
      2:{ intros ->. by apply Hne. }
      destruct (Hframe _ s' Hne Hsi') as (ls & Hok1 & Hok2 & _).
      destruct (segOk_bucket _ _ _ ls (hash2 (hashI k')) Hok1)
        as (p & l & _ & Hl & _).
      rewrite (lookupIn_bucket _ (heap st') s' ls l _ _ Hwf' Hok2 Hl).
      by rewrite (lookupIn_bucket _ (mheap m) s' ls l _ _ Hwf Hok1 Hl).
Qed.

End Maps.


(** ** Map methods *)

Section MapSteps.
Context {Key Value : Type}.
Context `{!EqDecision Key, !EqDecision Value}.
Variable hashI : Key → Z.
Variable hash2 : Z → Z.

Implicit Types (h : list (@Entry Key Value)) (l : list (addr * @Entry Key Value)).
Implicit Types (ls : list (list (addr * @Entry Key Value))).
Implicit Types (ky k : Key) (hs : Z).
Implicit Types (s : Segment) (st : @SegSt Key Value) (v : iface Value).
Implicit Types (m : @ConcurrentMap Key Value).
Implicit Types (G : Key → Z → Prop).

Abbreviation routed := (routed hashI hash2).
Abbreviation mapOk := (mapOk hashI hash2).
Abbreviation lookup := (lookup hashI hash2).
Abbreviation mapEntries := (@mapEntries Key Value).

Local Ltac fields :=
  cbn [heap seg ntables sumCount count table threshold pTable loadFactor
       fst snd] in *.

(** [rehash] keeps the structure of the segment, its entries and what a
    search finds. *)
Lemma rehash_spec G st ls :
  heap_wf (heap st) → segOk G (heap st) (seg st) ls →
  ∃ st' ls' cl,
    WLocking.rehash st = Some st' ∧ heap st' = heap st ++ cl ∧
    heap_wf (heap st') ∧ segOk G (heap st') (seg st') ls' ∧
    count (seg st') = count (seg st) ∧ sumCount st' = sumCount st ∧
    length (mjoin ls') = length (mjoin ls) ∧
    (∀ ky hs, lookupIn (heap st') (table (seg st')) ky hs
              = lookupIn (heap st) (table (seg st)) ky hs) ∧
    length (table (seg st'))
    = if Z.of_nat (length (table (seg st))) <? MAXIMUM_CAPACITY
      then (2 * length (table (seg st)))%nat else length (table (seg st)).
Proof.
  intros Hwf Hok. unfold WLocking.rehash.
  destruct (Z.geb_spec (Z.of_nat (length (table (seg st)))) MAXIMUM_CAPACITY)
    as [Hmax|Hlt].
  - exists st, ls, []. rewrite app_nil_r.
    destruct (Z.ltb_spec (Z.of_nat (length (table (seg st))))
                MAXIMUM_CAPACITY); [lia|done].
  - destruct (grow_spec G st ls Hwf Hok Hlt)
      as (cl & N' & ls' & -> & Hwf' & Hok' & Hlen' & _ & Hlen & Hlk).
    eexists _, ls', cl. fields.
    destruct (Z.ltb_spec (Z.of_nat (length (table (seg st))))
                MAXIMUM_CAPACITY); [done|lia].
Qed.

(** [put]: the value found before is returned; the key has the new value
    (with [onlyIfAbsent], the one it had, if any); a new key is one more
    entry, counted in [count] and in the count of the map. *)
Lemma put_spec G st ls ky hs v onlyIfAbsent :
  heap_wf (heap st) → segOk G (heap st) (seg st) ls → G ky hs → v ≠ None →
  count (seg st) = i32 (Z.of_nat (length (mjoin ls))) →
  let old := lookupIn (heap st) (table (seg st)) ky hs in
  let d := match old with Some _ => 0 | None => 1 end in
  ∃ st' ls',
    WLocking.put st ky hs v onlyIfAbsent = Some (st', old) ∧
    heap_wf (heap st') ∧ segOk G (heap st') (seg st') ls' ∧
    heapStep ky hs (heap st) (heap st') ∧
    count (seg st') = i32 (Z.of_nat (length (mjoin ls'))) ∧
    (i32 (sumCount st) = sumCount st → sumCount st' = i32 (sumCount st + d)) ∧
    Z.of_nat (length (mjoin ls')) = Z.of_nat (length (mjoin ls)) + d ∧
    (∀ ky' hs', lookupIn (heap st') (table (seg st')) ky' hs'
       = if decide (ky' = ky ∧ hs' = hs)
         then (if onlyIfAbsent then from_option Some v old else v)
         else lookupIn (heap st) (table (seg st)) ky' hs') ∧
    length (table (seg st'))
    = if (count (seg st) >? threshold (seg st))
         && (Z.of_nat (length (table (seg st))) <? MAXIMUM_CAPACITY)
      then (2 * length (table (seg st)))%nat else length (table (seg st)).
Proof.
  intros Hwf Hok HG Hv Hcount old d. unfold WLocking.put.
  assert (∃ st1 ls1 cl,
    (if count (seg st) >? threshold (seg st) then WLocking.rehash st
     else Some st) = Some st1 ∧ heap st1 = heap st ++ cl ∧
    heap_wf (heap st1) ∧ segOk G (heap st1) (seg st1) ls1 ∧
    count (seg st1) = count (seg st) ∧ sumCount st1 = sumCount st ∧
    length (mjoin ls1) = length (mjoin ls) ∧
    (∀ ky hs, lookupIn (heap st1) (table (seg st1)) ky hs
              = lookupIn (heap st) (table (seg st)) ky hs) ∧
    length (table (seg st1))
    = if (count (seg st) >? threshold (seg st))
         && (Z.of_nat (length (table (seg st))) <? MAXIMUM_CAPACITY)
      then (2 * length (table (seg st)))%nat else length (table (seg st)))
    as (st1 & ls1 & cl & -> & Hh1 & Hwf1 & Hok1 & Hc1 & Hs1 & Hl1 & Hlk1 & Ht1).
  { destruct (count (seg st) >? threshold (seg st)).
    - by apply rehash_spec.
    - exists st, ls, []. by rewrite app_nil_r. }
  cbn [mbind option_bind].
  destruct (putTail_spec G st1 ls1 (i32 (count (seg st) + 1)) ky hs v
              onlyIfAbsent Hwf1 Hok1 HG Hv)
    as (st' & ls' & Hput & Hwf' & Hok' & Hstep & _ & _ & _ & _ & Ht' & Hlk
        & Hcase).
  rewrite Hlk1 in Hput, Hcase. fold old in Hput, Hcase.
  exists st', ls'. split_and!; try done.
  - rewrite Hh1 in Hstep. by eapply heapStep_grow.
  - unfold d. destruct old.
    + destruct Hcase as (-> & _ & ->). by rewrite Hc1, Hl1.
    + destruct Hcase as (-> & _ & -> & _). rewrite Hcount, i32_add_l, Hl1.
      f_equal. lia.
  - intros Hr. unfold d. destruct old.
    + destruct Hcase as (_ & -> & _). by rewrite Hs1, Z.add_0_r, Hr.
    + destruct Hcase as (_ & -> & _). by rewrite Hs1.
  - unfold d. destruct old.
    + destruct Hcase as (_ & _ & ->). lia.
    + destruct Hcase as (_ & _ & -> & _). lia.
  - intros ky' hs'. rewrite Hlk. unfold old. by rewrite !Hlk1.
  - by rewrite Ht'.
Qed.

(** What a method finds when it enters the segment of a key. *)
Lemma mapOk_enter m k :
  mapOk m →
  let hs := hash2 (hashI k) in
  let i := Z.to_nat (segmentIndex m hs) in
  ∃ s ls,
    segmentFor m hs = Some s ∧ segments m !! i = Some s ∧
    heap_wf (mheap m) ∧
    segOk (routed (segmentShift m) (segmentMask m) i) (mheap m) s ls ∧
    routed (segmentShift m) (segmentMask m) i k hs ∧
    count s = i32 (Z.of_nat (length (mjoin ls))) ∧
    tableEntries (mheap m) (table s) = mjoin ls ∧
    i32 (mcount m) = mcount m ∧
    lookup m k = lookupIn (mheap m) (table s) k hs.
Proof.
  intros Hm hs i. pose proof Hm as (Hwf & _ & Hall & Hmc).
  destruct (mapOk_segmentFor hashI hash2 m hs Hm) as (s & Hs & Hsi & _).
  destruct (Hall _ _ Hsi) as (ls & Hok & Hc).
  exists s, ls. split_and!; try done.
  - apply tableEntries_buckets; [done|]. by destruct Hok.
  - by rewrite Hmc, i32_idemp.
  - by apply lookup_segment.
Qed.

(** [Put] and [PutIfAbsent] of the lock-striped map. *)
Lemma putWith_spec onlyIfAbsent m k v :
  mapOk m → v ≠ None →
  let old := lookup m k in
  let d := match old with Some _ => 0 | None => 1 end in
  ∃ m',
    WLocking.putWith hashI hash2 onlyIfAbsent m (Some k) v
    = Some (m', (old, None)) ∧
    mapOk m' ∧
    (∀ k', lookup m' k'
           = if decide (k' = k)
             then (if onlyIfAbsent then from_option Some v old else v)
             else lookup m k') ∧
    Z.of_nat (length (mapEntries m')) = Z.of_nat (length (mapEntries m)) + d.
Proof.
  intros Hm Hv old d.
  destruct (mapOk_enter m k Hm)
    as (s & ls & Hs & Hsi & Hwf & Hok & HG & Hc & Hent & Hmc & Hlk).
  destruct (put_spec _ (enter m s) ls k (hash2 (hashI k)) v onlyIfAbsent
              Hwf Hok HG Hv Hc)
    as (st' & ls' & Hput & Hwf' & Hok' & Hstep & Hc' & Hsum & Hlen & Hlk' & _).
  cbn [enter heap seg sumCount] in *. rewrite <-Hlk in *.
  fold old in Hput, Hlk', Hsum, Hlen. fold d in Hsum, Hlen.
  unfold WLocking.putWith. destruct v as [v|]; [|done]. cbn [isNil].
  rewrite Hs. cbn [mbind option_bind]. rewrite Hput. cbn.
  eexists. split; [done|].
  apply (leave_ok hashI hash2 m s st' ls' k _ d); try done.
  - by apply Hsum.
  - by rewrite Hent.
Qed.

(** [remove] on the segment of the key, written back: [v] is [None] for
    [Remove] and the value to match for [RemoveEntry]. *)
Lemma remove_leave m k v :
  mapOk m →
  let hs := hash2 (hashI k) in
  let old := lookup m k in
  let hit := bool_decide (old ≠ None ∧ (v = None ∨ v = old)) in
  let d := if hit then -1 else 0 in
  ∃ s st',
    segmentFor m hs = Some s ∧
    WLocking.remove (enter m s) k hs v
    = Some (st', if hit then old else None) ∧
    let m' := leave m (segmentIndex m hs) st' in
    mapOk m' ∧
    (∀ k', lookup m' k'
           = if decide (k' = k) then (if hit then None else old)
             else lookup m k') ∧
    Z.of_nat (length (mapEntries m')) = Z.of_nat (length (mapEntries m)) + d.
Proof.
  intros Hm hs old hit d.
  destruct (mapOk_enter m k Hm)
    as (s & ls & Hs & Hsi & Hwf & Hok & HG & Hc & Hent & Hmc & Hlk).
  destruct (remove_spec _ (enter m s) ls k hs v Hwf Hok)
    as (st' & ls' & Hrem & Hwf' & Hok' & Hstep & _ & _ & _ & _ & _ & Hlk'
        & Hcase).
  cbn [enter heap seg sumCount] in *. fold hs in Hlk. rewrite <-Hlk in *.
  fold old in Hrem, Hlk', Hcase. fold hit in Hrem, Hlk', Hcase.
  exists s, st'. split; [done|]. split; [done|]. cbv zeta.
  apply (leave_ok hashI hash2 m s st' ls' k _ d); try done.
  - unfold d. destruct hit.
    + destruct Hcase as (-> & _ & Hlen).
      rewrite Hc, <-Z.add_opp_r, i32_add_l. f_equal. lia.
    + by destruct Hcase as (-> & ->).
  - unfold d. destruct hit.
    + by destruct Hcase as (_ & -> & _).
    + destruct Hcase as (-> & _). cbn. by rewrite Z.add_0_r, Hmc.
  - rewrite Hent. unfold d. destruct hit.
    + destruct Hcase as (_ & _ & Hlen). lia.
    + destruct Hcase as (_ & ->). lia.
Qed.

Lemma Remove_spec m k :
  mapOk m →
  let old := lookup m k in
  let d := match old with Some _ => -1 | None => 0 end in
  ∃ m',
    WLocking.Remove hashI hash2 m (Some k) = Some (m', (old, None)) ∧
    mapOk m' ∧
    (∀ k', lookup m' k' = if decide (k' = k) then None else lookup m k') ∧
    Z.of_nat (length (mapEntries m')) = Z.of_nat (length (mapEntries m)) + d.
Proof.
  intros Hm old d.
  destruct (remove_leave m k None Hm) as (s & st' & Hs & Hrem & Hm' & Hlk & Hlen).
  fold old in Hrem, Hlk, Hlen. unfold WLocking.Remove.
  rewrite Hs. cbn [mbind option_bind]. rewrite Hrem. cbn.
  eexists. unfold d. clear Hrem. destruct old as [v0|].
  - rewrite bool_decide_eq_true_2 in * by (split; [done|by left]).
    by split_and!.
  - rewrite bool_decide_eq_false_2 in * by (by intros [? _]).
    split_and!; [done..| |done]. intros k'. rewrite Hlk. by case_decide.
Qed.

Lemma RemoveEntry_spec m k v :
  mapOk m → v ≠ None →
  let hit := bool_decide (lookup m k = v) in
  let d := if hit then -1 else 0 in
  ∃ m',
    WLocking.RemoveEntry hashI hash2 m (Some k) v = Some (m', (hit, None)) ∧
    mapOk m' ∧
    (∀ k', lookup m' k'
           = if decide (k' = k) then (if hit then None else lookup m k)
             else lookup m k') ∧
    Z.of_nat (length (mapEntries m')) = Z.of_nat (length (mapEntries m)) + d.
Proof.
  intros Hm Hv hit d.
  destruct (remove_leave m k v Hm) as (s & st' & Hs & Hrem & Hm' & Hlk & Hlen).
  assert (bool_decide (lookup m k ≠ None ∧ (v = None ∨ v = lookup m k)) = hit)
    as Hhit.
  { unfold hit. apply bool_decide_ext. split.
    - by intros [_ [?|?]].
    - intros <-. split; [done|by right]. }
  rewrite Hhit in *. unfold WLocking.RemoveEntry.
  destruct v as [v|]; [|done]. cbn [isNil].
  rewrite Hs. cbn [mbind option_bind]. rewrite Hrem. cbn.
  eexists. split_and!; [|done..]. clear Hhit Hrem.
  assert (negb (isNil (if hit then lookup m k else None)) = hit) as ->; [|done].
  subst hit. destruct (decide (lookup m k = Some v)) as [Heq|Hne].
  - rewrite !bool_decide_eq_true_2 by done. by rewrite Heq.
  - by rewrite !bool_decide_eq_false_2 by done.
Qed.

Lemma Replace_spec m k v :
  mapOk m → v ≠ None →
  let old := lookup m k in
  ∃ m',
    WLocking.Replace hashI hash2 m (Some k) v = Some (m', (old, None)) ∧
    mapOk m' ∧
    (∀ k', lookup m' k'
           = if decide (k' = k)
             then (match old with Some _ => v | None => None end)
             else lookup m k') ∧
    length (mapEntries m') = length (mapEntries m).
Proof.
  intros Hm Hv old.
  destruct (mapOk_enter m k Hm)
    as (s & ls & Hs & Hsi & Hwf & Hok & HG & Hc & Hent & Hmc & Hlk).
  destruct (replace_spec _ (enter m s) ls k (hash2 (hashI k)) v Hwf Hok Hv)
    as (st' & ls' & Hrep & Hwf' & Hok' & Hstep & _ & Hsum & Hseg & Hlen & Hlk').
  cbn [enter heap seg sumCount] in *. rewrite <-Hlk in *.
  fold old in Hrep, Hlk'.
  unfold WLocking.Replace. destruct v as [v|]; [|done]. cbn [isNil].
  rewrite Hs. cbn [mbind option_bind]. rewrite Hrep. cbn.
  eexists. split; [done|].
  destruct (leave_ok hashI hash2 m s st' ls' k
              (match old with Some _ => Some v | None => None end) 0)
    as (? & ? & ?); try done.
  - by rewrite Hseg, Hc, Hlen.
  - by rewrite Hsum, Z.add_0_r, Hmc.
  - rewrite Hent, Hlen. lia.
  - split_and!; [done..|lia].
Qed.

Lemma CompareAndReplace_spec m k oldValue newValue :
  mapOk m → oldValue ≠ None → newValue ≠ None →
  let old := lookup m k in
  let ok := bool_decide (oldValue = old) in
  ∃ m',
    WLocking.CompareAndReplace hashI hash2 m (Some k) oldValue newValue
    = Some (m', (ok, None)) ∧
    mapOk m' ∧
    (∀ k', lookup m' k'
           = if decide (k' = k) then (if ok then newValue else old)
             else lookup m k') ∧
    length (mapEntries m') = length (mapEntries m).
Proof.
  intros Hm Ho Hn old ok.
  destruct (mapOk_enter m k Hm)
    as (s & ls & Hs & Hsi & Hwf & Hok & HG & Hc & Hent & Hmc & Hlk).
  destruct (replaceWithOld_spec _ (enter m s) ls k (hash2 (hashI k))
              oldValue newValue Hwf Hok Ho Hn)
    as (st' & ls' & Hrep & Hwf' & Hok' & Hstep & _ & Hsum & Hseg & Hlen & Hlk').
  cbn [enter heap seg sumCount] in *. rewrite <-Hlk in *.
  fold old in Hrep, Hlk'. fold ok in Hrep, Hlk'.
  unfold WLocking.CompareAndReplace.
  destruct oldValue as [o|]; [|done]. destruct newValue as [n|]; [|done].
  cbn [isNil orb].
  rewrite Hs. cbn [mbind option_bind]. rewrite Hrep. cbn.
  eexists. split; [done|].
  destruct (leave_ok hashI hash2 m s st' ls' k
              (if ok then Some n else old) 0)
    as (? & ? & ?); try done.
  - by rewrite Hseg, Hc, Hlen.
  - by rewrite Hsum, Z.add_0_r, Hmc.
  - rewrite Hent, Hlen. lia.
  - split_and!; [done..|lia].
Qed.

(** *** Empty tables: construction and [Clear] *)

Lemma join_replicate_nil {A} (n : nat) : mjoin (replicate n (@nil A)) = [].
Proof. induction n as [|n IH]; [done|]. exact IH. Qed.

Lemma walk_None fuel h : walk fuel h None = [].
Proof. by destruct fuel. Qed.

Lemma tableEntries_empty h (n : nat) : tableEntries h (replicate n None) = [].
Proof.
  unfold tableEntries, chainOf. rewrite fmap_replicate, walk_None.
  apply join_replicate_nil.
Qed.

Lemma lookupIn_empty h (n : nat) ky hs :
  lookupIn h (replicate n None) ky hs = None.
Proof.
  unfold lookupIn, chainOf.
  destruct (replicate n None !! _) as [p|] eqn:E; cbn.
  - apply lookup_replicate in E as [-> _]. by rewrite walk_None.
  - by rewrite walk_None.
Qed.

(** A segment whose table has no chain is in order, with no entry. *)
Lemma segOk_empty G h s (kc : Z) :
  0 ≤ kc ≤ 30 → table s = replicate (Z.to_nat (2 ^ kc)) None →
  segOk G h s (replicate (Z.to_nat (2 ^ kc)) []).
Proof.
  intros Hkc Htab. split_and!.
  - unfold buckets. rewrite Htab. apply Forall2_replicate. constructor.
  - exists kc. split; [done|]. rewrite Htab, length_replicate. lia.
  - intros i l [-> _]%lookup_replicate. split; [constructor|done].
Qed.

(** A new map is in order and has no entry. *)
Lemma newMap3_ok initialCapacity lf concurrencyLevel m :
  newMap3 initialCapacity lf concurrencyLevel = Done m →
  mapOk m ∧ mapEntries m = [] ∧ ∀ k, lookup m k = None.
Proof.
  intros Hnew.
  destruct (negb (f32_gt lf (S754_zero false)) || (initialCapacity <? 0)
            || (concurrencyLevel <=? 0)) eqn:Hg.
  { by rewrite newMap3_invalid in Hnew. }
  apply orb_false_elim in Hg as [Hg Hlvl].
  apply orb_false_elim in Hg as [Hlf Hcap].
  apply negb_false_iff in Hlf.
  destruct (newMap3_done (Key:=Key) (Value:=Value) initialCapacity lf
              concurrencyLevel Hlf ltac:(lia) ltac:(lia))
    as (ks & kc & Hks & Hkc & Hm & _).
  rewrite Hm in Hnew. injection Hnew as <-.
  assert (mapEntries
            (mkMap 0 (2 ^ ks - 1) (32 - ks)
               ((λ p, newSegment p (2 ^ kc) lf) <$> seq 0 (Z.to_nat (2 ^ ks)))
               [] (Z.to_nat (2 ^ ks))) = []) as Hent.
  { unfold mapEntries. cbn [mheap segments]. clear.
    induction (seq 0 (Z.to_nat (2 ^ ks))) as [|p ps IH]; [done|].
    rewrite !fmap_cons.
    change (mjoin (?x :: ?xs)) with (x ++ mjoin xs).
    rewrite IH, app_nil_r. apply tableEntries_empty. }
  split_and!; [|done|].
  - split_and!; cbn [mheap segments segmentMask segmentShift mcount].
    + by intros a en n [=].
    + exists ks. rewrite length_fmap, length_seq.
      pose proof (Z.pow_pos_nonneg 2 ks). split_and!; [lia..|done|lia].
    + intros i s (p & -> & _)%list_lookup_fmap_Some.
      exists (replicate (Z.to_nat (2 ^ kc)) []). split.
      * by apply segOk_empty.
      * by rewrite join_replicate_nil.
    + by rewrite Hent.
  - intros k. unfold lookup.
    destruct (segmentFor _ _) as [s|] eqn:Hs; [|done].
    unfold segmentFor, index in Hs. destruct (0 <=? _); [|done].
    cbn [mheap segments] in *.
    apply list_lookup_fmap_Some in Hs as (p & -> & _).
    apply lookupIn_empty.
Qed.

Lemma i32_sub_r (a b : Z) : i32 (a - i32 b) = i32 (a - b).
Proof.
  unfold i32. f_equal. rewrite (Z.mod_eq (b + 2 ^ 31)) by lia.
  replace (a - (b + 2 ^ 31 - 2 ^ 32 * ((b + 2 ^ 31) `div` 2 ^ 32) - 2 ^ 31)
           + 2 ^ 31)
    with (a - b + 2 ^ 31 + ((b + 2 ^ 31) `div` 2 ^ 32) * 2 ^ 32) by lia.
  apply Z_mod_plus_full.
Qed.

(** [clear] on a segment, written back. *)
Lemma clear_ok m (i : nat) s :
  mapOk m → segments m !! i = Some s →
  mapOk (leave m (Z.of_nat i) (clear (enter m s))).
Proof.
  intros Hm Hs. pose proof Hm as (Hwf & Hseg & Hall & Hmc).
  destruct (Hall i s Hs) as (ls & Hok & Hc). unfold clear.
  cbn [enter seg heap ntables sumCount].
  destruct (count s =? 0) eqn:Hz; cbn [negb].
  - unfold leave, mapOk, mapEntries in *.
    cbn [mheap segments segmentMask segmentShift mcount seg heap sumCount
         ntables]. rewrite Nat2Z.id, list_insert_id by done. done.
  - pose proof Hok as (Hb & (kc & Hkc & Hlen) & _).
    assert (length (table s) = Z.to_nat (2 ^ kc)) as Hn by lia.
    set (s' := mkSegment 0 (threshold s) (pTable s)
                 (replicate (length (table s)) None) (loadFactor s)).
    set (st' := mkSegSt (mheap m) (mtables m)
                  (i32 (mcount m + i32 (-1 * count s))) s').
    assert (segOk (routed (segmentShift m) (segmentMask m) i) (mheap m) s'
              (replicate (Z.to_nat (2 ^ kc)) [])) as Hok'.
    { apply segOk_empty; [done|]. unfold s'. cbn. by rewrite Hn. }
    pose proof (mapEntries_leave m i s st' _ _ Hs Hwf Hok'
                  ltac:(done)) as Hl.
    rewrite join_replicate_nil, (tableEntries_buckets _ _ ls) in Hl by done.
    assert (Z.of_nat (length (mapEntries (leave m (Z.of_nat i) st')))
            = Z.of_nat (length (mapEntries m))
              - Z.of_nat (length (mjoin ls))) as Hlen' by (cbn [length] in Hl; lia).
    split_and!.
    + done.
    + destruct Hseg as (ks & ? & ? & ?). exists ks.
      unfold leave. cbn [segments segmentMask]. by rewrite length_insert.
    + unfold leave. cbn [mheap segments segmentMask segmentShift heap seg st'].
      intros j sj Hsj. rewrite Nat2Z.id in Hsj.
      destruct (decide (j = i)) as [->|Hj].
      * rewrite list_lookup_insert_eq in Hsj by (by eapply lookup_lt_Some).
        simplify_eq. eexists. split; [done|]. by rewrite join_replicate_nil.
      * rewrite list_lookup_insert_ne in Hsj by done. by apply Hall.
    + rewrite Hlen'. unfold leave. cbn [mcount sumCount st'].
      rewrite Hmc, Hc, i32_add_r, i32_add_l.
      replace (Z.of_nat (length (mapEntries m))
               + -1 * i32 (Z.of_nat (length (mjoin ls))))
        with (Z.of_nat (length (mapEntries m))
              - i32 (Z.of_nat (length (mjoin ls)))) by lia.
      apply i32_sub_r.
Qed.

Lemma Clear_ok m : mapOk m → mapOk (Clear m).
Proof.
  unfold Clear. generalize (seq 0 (length (segments m))). intros l.
  revert m. induction l as [|i l IH]; intros m Hm; [done|].
  cbn [foldl]. apply IH. unfold index.
  destruct (Z.leb_spec 0 (Z.of_nat i)); [|lia]. rewrite Nat2Z.id.
  destruct (segments m !! i) as [s|] eqn:Hs; [|done].
  by apply clear_ok.
Qed.

(** *** The CAS-based map, run serially *)

(** One round of a retry loop is enough, and none is not. *)
Lemma put_no_fuel st ky hs v onlyIfAbsent :
  LockFree.put 0 st ky hs v onlyIfAbsent = None.
Proof.
  unfold LockFree.put. destruct (if _ : bool then _ else _); [|done]. cbn.
  by destruct (LockFree.getFirst _ _) as [[[? ?] ?]|].
Qed.

Lemma remove_no_fuel st ky hs v : LockFree.remove 0 st ky hs v = None.
Proof.
  unfold LockFree.remove.
  by destruct (LockFree.getFirst _ _) as [[[? ?] ?]|].
Qed.

Lemma replace_no_fuel st ky hs v : LockFree.replace 0 st ky hs v = None.
Proof.
  unfold LockFree.replace.
  by destruct (LockFree.getFirst _ _) as [[[? ?] ?]|].
Qed.

Lemma replaceWithOld_no_fuel st ky hs o n :
  LockFree.replaceWithOld 0 st ky hs o n = None.
Proof.
  unfold LockFree.replaceWithOld.
  by destruct (LockFree.getFirst _ _) as [[[? ?] ?]|].
Qed.

Lemma serial_Get m (ky : iface Key) :
  LockFree.Get hashI hash2 m ky = WLocking.Get hashI hash2 m ky.
Proof.
  unfold LockFree.Get, WLocking.Get. destruct ky as [k|]; [|done].
  destruct (segmentFor _ _); [|done]. cbn. by rewrite serial_get.
Qed.

Lemma serial_putWith onlyIfAbsent fuel m (ky : iface Key) v :
  LockFree.putWith hashI hash2 onlyIfAbsent (S fuel) m ky v
  = WLocking.putWith hashI hash2 onlyIfAbsent m ky v.
Proof.
  unfold LockFree.putWith, WLocking.putWith. destruct ky as [k|]; [|done].
  destruct (isNil v); [done|]. destruct (segmentFor _ _); [|done].
  cbn [mbind option_bind]. by rewrite serial_put.
Qed.

Lemma serial_Remove fuel m (ky : iface Key) :
  LockFree.Remove hashI hash2 (S fuel) m ky = WLocking.Remove hashI hash2 m ky.
Proof.
  unfold LockFree.Remove, WLocking.Remove. destruct ky as [k|]; [|done].
  destruct (segmentFor _ _); [|done].
  cbn [mbind option_bind]. by rewrite serial_remove.
Qed.

Lemma serial_RemoveEntry fuel m (ky : iface Key) v :
  LockFree.RemoveEntry hashI hash2 (S fuel) m ky v
  = WLocking.RemoveEntry hashI hash2 m ky v.
Proof.
  unfold LockFree.RemoveEntry, WLocking.RemoveEntry.
  destruct ky as [k|]; [|done].
  destruct (isNil v); [done|]. destruct (segmentFor _ _); [|done].
  cbn [mbind option_bind]. by rewrite serial_remove.
Qed.

Lemma serial_Replace fuel m (ky : iface Key) v :
  LockFree.Replace hashI hash2 (S fuel) m ky v
  = WLocking.Replace hashI hash2 m ky v.
Proof.
  unfold LockFree.Replace, WLocking.Replace. destruct ky as [k|]; [|done].
  destruct (isNil v); [done|]. destruct (segmentFor _ _); [|done].
  cbn [mbind option_bind]. by rewrite serial_replace.
Qed.

Lemma serial_CompareAndReplace fuel m (ky : iface Key) o n :
  LockFree.CompareAndReplace hashI hash2 (S fuel) m ky o n
  = WLocking.CompareAndReplace hashI hash2 m ky o n.
Proof.
  unfold LockFree.CompareAndReplace, WLocking.CompareAndReplace.
  destruct ky as [k|]; [|done].
  destruct (isNil o || isNil n); [done|]. destruct (segmentFor _ _); [|done].
  cbn [mbind option_bind]. by rewrite serial_replaceWithOld.
Qed.

(** Whatever the CAS-based map does in a serial run, the lock-striped map
    does too. *)
Lemma applyLF_WL fuel m op m' :
  applyLF hashI hash2 fuel m op = Some m' → applyWL hashI hash2 m op = Some m'.
Proof.
  destruct fuel as [|fuel].
  - destruct op as [[k|] v|[k|] v|[k|]|[k|] v|[k|] v|[k|] o n|]; try done;
      cbn; unfold LockFree.Put, LockFree.PutIfAbsent, LockFree.putWith,
        LockFree.Remove, LockFree.RemoveEntry, LockFree.Replace,
        LockFree.CompareAndReplace, WLocking.Put, WLocking.PutIfAbsent,
        WLocking.putWith, WLocking.RemoveEntry, WLocking.Replace,
        WLocking.CompareAndReplace;
      try (destruct (isNil _ || isNil _); [done|]);
      try (destruct (isNil _); [done|]);
      (destruct (segmentFor _ _); [|done]); cbn [mbind option_bind];
      by rewrite ?put_no_fuel, ?remove_no_fuel, ?replace_no_fuel,
           ?replaceWithOld_no_fuel.
  - destruct op; cbn; unfold LockFree.Put, LockFree.PutIfAbsent,
      WLocking.Put, WLocking.PutIfAbsent;
      by rewrite ?serial_putWith, ?serial_Remove, ?serial_RemoveEntry,
           ?serial_Replace, ?serial_CompareAndReplace.
Qed.

(** The operations of the lock-striped map keep the map in order. *)
Lemma applyWL_ok m op m' :
  mapOk m → applyWL hashI hash2 m op = Some m' → mapOk m'.
Proof.
  intros Hm.
  destruct op as [[k|] [v|]|[k|] [v|]|[k|]|[k|] [v|]|[k|] [v|]
                  |[k|] [o|] [n|]|]; cbn [applyWL];
    try (by intros [= <-]).
  - destruct (putWith_spec false m k (Some v) Hm) as (m1 & Heq & ? & _);
      [done|].
    unfold WLocking.Put. rewrite Heq. by intros [= <-].
  - destruct (putWith_spec true m k (Some v) Hm) as (m1 & Heq & ? & _);
      [done|].
    unfold WLocking.PutIfAbsent. rewrite Heq. by intros [= <-].
  - destruct (Remove_spec m k Hm) as (m1 & Heq & ? & _).
    rewrite Heq. by intros [= <-].
  - destruct (RemoveEntry_spec m k (Some v) Hm) as (m1 & Heq & ? & _);
      [done|].
    rewrite Heq. by intros [= <-].
  - destruct (Replace_spec m k (Some v) Hm) as (m1 & Heq & ? & _); [done|].
    rewrite Heq. by intros [= <-].
  - destruct (CompareAndReplace_spec m k (Some o) (Some n) Hm)
      as (m1 & Heq & ? & _); [done..|].
    rewrite Heq. by intros [= <-].
  - intros [= <-]. by apply Clear_ok.
Qed.

(** Every state a serial run reaches is in order. *)
Lemma reachable_ok m : reachable hashI hash2 m → mapOk m.
Proof.
  induction 1 as [c lf lvl m Hnew|m op m' _ IH Hop|fuel m op m' _ IH Hop].
  - by destruct (newMap3_ok c lf lvl m Hnew).
  - by eapply applyWL_ok.
  - eapply applyWL_ok; [done|]. by eapply applyLF_WL.
Qed.

End MapSteps.


(** ** Reading the map *)

Section MapReads.
Context {Key Value : Type}.
Context `{!EqDecision Key, !EqDecision Value}.
Variable hashI : Key → Z.
Variable hash2 : Z → Z.

Implicit Types (h : list (@Entry Key Value)) (l : list (addr * @Entry Key Value)).
Implicit Types (ls : list (list (addr * @Entry Key Value))).
Implicit Types (ky k : Key) (hs : Z).
Implicit Types (s : Segment) (st : @SegSt Key Value) (v : iface Value).
Implicit Types (m : @ConcurrentMap Key Value).
Implicit Types (G : Key → Z → Prop).

Abbreviation routed := (routed hashI hash2).
Abbreviation mapOk := (mapOk hashI hash2).
Abbreviation lookup := (lookup hashI hash2).
Abbreviation mapEntries := (@mapEntries Key Value).

(** A segment holds no more entries than the map. *)
Lemma segment_entries_le m (i : nat) s :
  segments m !! i = Some s →
  (length (tableEntries (mheap m) (table s)) ≤ length (mapEntries m))%nat.
Proof.
  intros Hs. unfold mapEntries.
  rewrite <-(take_drop_middle (segments m) i s Hs).
  rewrite fmap_app, fmap_cons, join_app.
  change (mjoin (?x :: ?xs)) with (x ++ mjoin xs).
  rewrite !length_app. lia.
Qed.

Lemma i32_zero (n : Z) : 0 ≤ n < 2 ^ 32 → i32 n = 0 → n = 0.
Proof.
  unfold i32. intros Hn H. destruct (Z_lt_le_dec n (2 ^ 31)).
  - rewrite Z.mod_small in H by lia. lia.
  - replace (n + 2 ^ 31) with (n - 2 ^ 31 + 1 * 2 ^ 32) in H by lia.
    rewrite Z_mod_plus_full, Z.mod_small in H by lia. lia.
Qed.

(** [Get] returns the value of the key, in a map of less than [2^32]
    entries: beyond, [count] can be [0] in a segment that has entries. *)
Lemma Get_spec m k :
  mapOk m → Z.of_nat (length (mapEntries m)) < 2 ^ 32 →
  WLocking.Get hashI hash2 m (Some k) = Some (lookup m k, None).
Proof.
  intros Hm Hsize.
  destruct (mapOk_enter hashI hash2 m k Hm)
    as (s & ls & Hs & Hsi & Hwf & Hok & HG & Hc & Hent & Hmc & Hlk).
  unfold WLocking.Get. rewrite Hs. cbn [mbind option_bind].
  rewrite (get_spec _ (enter m s) ls) by done.
  cbn [enter seg heap mbind option_bind]. rewrite Hlk. do 2 f_equal.
  destruct (Z.eqb_spec (count s) 0) as [Hz|]; [|done].
  pose proof (segment_entries_le m _ s Hsi) as Hle. rewrite Hent in Hle.
  rewrite Hc in Hz. apply i32_zero in Hz; [|lia].
  destruct (segOk_bucket _ _ _ ls (hash2 (hashI k)) Hok)
    as (p & l & _ & Hl & _).
  rewrite (lookupIn_bucket _ (mheap m) s ls l _ _ Hwf Hok Hl).
  assert (l = []) as ->; [|done].
  apply length_zero_iff_nil.
  pose proof (length_join_insert ls _ l [] Hl) as Hj. cbn [length] in Hj. lia.
Qed.

End MapReads.

(** ** The round trip and the chains of reachable maps *)

Section RoundTrip.
Context {Key Value : Type}.
Context `{!EqDecision Key, !EqDecision Value}.
Variable hashI : Key → Z.
Variable hash2 : Z → Z.

Implicit Types (k : Key) (m : @ConcurrentMap Key Value).

Abbreviation mapOk := (mapOk hashI hash2).
Abbreviation lookup := (lookup hashI hash2).
Abbreviation mapEntries := (@mapEntries Key Value).



End RoundTrip.


(** ** Rehash, removal and the test of [put] *)

Section SegmentClaims.
Context {Key Value : Type}.
Context `{!EqDecision Key, !EqDecision Value}.

Implicit Types (h : list (@Entry Key Value)) (l : list (addr * @Entry Key Value)).
Implicit Types (ls : list (list (addr * @Entry Key Value))).
Implicit Types (x y : addr * @Entry Key Value).
Implicit Types (ky : Key) (hs : Z).
Implicit Types (st : @SegSt Key Value) (v : iface Value).
Implicit Types (G : Key → Z → Prop).

Local Ltac fields :=
  cbn [heap seg ntables sumCount count table threshold pTable loadFactor
       fst snd] in *.

(** [rehash] on a segment in order, in both variants. *)
Lemma rehash_segment G st ls :
  heap_wf (heap st) → segOk G (heap st) (seg st) ls →
  let n := length (table (seg st)) in
  ∃ st',
    WLocking.rehash st = Some st' ∧
    LockFree.rehash st
    = Some (if count (seg st) >? threshold (seg st) then st' else st) ∧
    (n ≤ length (table (seg st')))%nat ∧
    (Z.of_nat n = MAXIMUM_CAPACITY → st' = st) ∧
    (Z.of_nat n ≠ MAXIMUM_CAPACITY →
     length (table (seg st')) = (2 * n)%nat ∧
     ∀ (i : nat) l x, ls !! i = Some l → x ∈ l →
       let j := Z.to_nat (Z.land (hash x.2)
                            (Z.of_nat (length (table (seg st'))) - 1)) in
       (j = i ∨ j = (i + n)%nat) ∧
       ∃ p y, table (seg st') !! j = Some p ∧
              y ∈ chainOf (heap st') p ∧ item y = item x) ∧
    (∀ ky hs, lookupIn (heap st') (table (seg st')) ky hs
              = lookupIn (heap st) (table (seg st)) ky hs).
Proof.
  intros Hwf Hok n. pose proof Hok as (Hb & (k & Hk & Hlen) & Hall).
  fold n in Hlen. unfold WLocking.rehash, LockFree.rehash. fold n.
  assert (MAXIMUM_CAPACITY = 2 ^ 30) as HM by reflexivity.
  destruct (Z.geb_spec (Z.of_nat n) MAXIMUM_CAPACITY) as [Hmax|Hlt].
  { pose proof (pow2_bound k 30 ltac:(lia)).
    exists st. split_and!; try done; [by destruct (_ >? _)|lia]. }
  destruct (grow_spec G st ls Hwf Hok Hlt)
    as (cl & N' & ls' & -> & Hwf' & Hok' & Hlen' & Hperm & _ & Hlk).
  fold n in Hlen'. eexists. split; [done|]. fields.
  split_and!; [by destruct (_ >? _)|lia|lia| |done].
  intros _. split; [done|]. intros i l x Hl Hx.
  set (j := Z.to_nat (Z.land (hash x.2) (Z.of_nat (length N') - 1))).
  assert (0 ≤ k + 1 ≤ 30) as Hk'.
  { split; [lia|]. enough (k < 30) by lia.
    apply pow2_lt_inv; lia. }
  assert (Z.of_nat (length N') = 2 ^ (k + 1)) as HlenN.
  { rewrite Hlen', Z.pow_add_r by lia. lia. }
  destruct (Hall i l Hl) as [_ Hents]. rewrite Forall_forall in Hents.
  destruct (Hents x Hx) as (Hbx & _).
  destruct (slotOf_double (table (seg st)) k x i Hk Hlen Hbx) as [Hj Hi].
  fold n in Hj, Hi.
  assert (j = slotOf (2 ^ (k + 1) - 1) x) as Hjs.
  { unfold j, slotOf. by rewrite HlenN. }
  assert (bucketOf N' (hash x.2) = j) as HjN.
  { by rewrite Hjs, (bucketOf_slotOf N' (k + 1)). }
  rewrite <-Hjs in Hj. split; [done|].
  pose proof Hok' as (Hb' & _). fields.
  destruct (lookup_lt_is_Some_2 N' j) as [p Hp]; [lia|].
  destruct (Forall2_lookup_l _ _ _ _ _ Hb' Hp) as (l' & Hl' & Hc).
  assert ((j `mod` n)%nat = i) as Hmod.
  { destruct Hj as [->| ->].
    - by apply Nat.mod_small.
    - rewrite <-(Nat.mul_1_l n) at 1. rewrite Nat.Div0.mod_add.
      by apply Nat.mod_small. }
  pose proof (Hperm j l' Hl') as Hp'. fold n in Hp'. rewrite Hmod in Hp'.
  rewrite (list_lookup_total_correct ls i l Hl) in Hp'.
  assert (item x ∈ item <$> l') as (y & Hy & Hyin)%list_elem_of_fmap.
  { rewrite Hp'. apply list_elem_of_fmap. exists x. split; [done|].
    by apply list_elem_of_filter. }
  exists p, y. rewrite (chainOf_chain _ _ l') by done. done.
Qed.


End SegmentClaims.

Section ReachableClaims.
Context {Key Value : Type}.
Context `{!EqDecision Key, !EqDecision Value}.
Variable hashI : Key → Z.
Variable hash2 : Z → Z.

Implicit Types (k : Key) (m : @ConcurrentMap Key Value) (s : Segment).
Implicit Types (x y : addr * @Entry Key Value) (v : iface Value).

Abbreviation lookup := (lookup hashI hash2).


(** X21: in every state that a serial run reaches, [rehash] on a segment
    returns in both variants; the one of the CAS-based segment does what
    the other does when [count] is above [threshold], and nothing
    otherwise.  The table never gets shorter.  At
    [MAXIMUM_CAPACITY = 2^30] buckets the state is left as it is.  Below,
    the new table has twice the length; every entry of the chain of an
    old bucket [i] has its key, hash and value in the chain of the new
    bucket [hash & (newLen - 1)], which is [i] or [i + oldLen]; and every
    key is found with the value it had. *)
Theorem rehash_doubles m s :
  reachable hashI hash2 m → s ∈ segments m →
  let st := enter m s in
  let n := length (table s) in
  ∃ st',
    WLocking.rehash st = Some st' ∧
    LockFree.rehash st = Some (if count s >? threshold s then st' else st) ∧
    (n ≤ length (table (seg st')))%nat ∧
    (Z.of_nat n = MAXIMUM_CAPACITY → st' = st) ∧
    (Z.of_nat n ≠ MAXIMUM_CAPACITY →
     length (table (seg st')) = (2 * n)%nat ∧
     ∀ (i : nat) p x, table s !! i = Some p → x ∈ chainOf (mheap m) p →
       let j := Z.to_nat (Z.land (hash x.2)
                            (Z.of_nat (length (table (seg st'))) - 1)) in
       (j = i ∨ j = (i + n)%nat) ∧
       ∃ p' y, table (seg st') !! j = Some p' ∧
               y ∈ chainOf (heap st') p' ∧ item y = item x) ∧
    (∀ ky hs, lookupIn (heap st') (table (seg st')) ky hs
              = lookupIn (mheap m) (table s) ky hs).
Proof.
  intros (Hwf & _ & Hall & _)%reachable_ok [a Hs]%list_elem_of_lookup st n.
  destruct (Hall a s Hs) as (ls & Hok & _).
  destruct (rehash_segment _ st ls Hwf Hok)
    as (st' & Hr & Hr' & Hle & Hmax & Hgrow & Hlk).
  exists st'. split_and!; try done.
  intros Hne. destruct (Hgrow Hne) as [Hlen Hmove]. split; [done|].
  intros i p x Hp Hx. destruct Hok as (Hb & _).
  destruct (Forall2_lookup_l _ _ _ _ _ Hb Hp) as (l & Hl & Hc).
  rewrite (chainOf_chain _ _ l) in Hx by done.
  by apply (Hmove i l x).
Qed.


End ReachableClaims.


(** ** The methods of the map, as a caller sees them *)

Section ApiLaws.
Context {Key Value : Type}.
Context `{!EqDecision Key, !EqDecision Value}.
Variable hashI : Key → Z.
Variable hash2 : Z → Z.

Implicit Types (k : Key) (m : @ConcurrentMap Key Value) (v : iface Value).

Abbreviation mapOk := (mapOk hashI hash2).
Abbreviation lookup := (lookup hashI hash2).
Abbreviation mapEntries := (@mapEntries Key Value).
Abbreviation reachable := (reachable hashI hash2).

Lemma serial_ContainsKey m (ky : iface Key) :
  LockFree.ContainsKey hashI hash2 m ky = WLocking.ContainsKey hashI hash2 m ky.
Proof.
  unfold LockFree.ContainsKey, WLocking.ContainsKey.
  destruct ky as [k|]; [|done].
  destruct (segmentFor _ _); [|done]. cbn. by rewrite serial_containsKey.
Qed.

Lemma ContainsKey_spec m k :
  mapOk m → Z.of_nat (length (mapEntries m)) < 2 ^ 32 →
  WLocking.ContainsKey hashI hash2 m (Some k)
  = Some (bool_decide (lookup m k ≠ None), None).
Proof.
  intros Hm Hsize.
  destruct (mapOk_enter hashI hash2 m k Hm)
    as (s & ls & Hs & Hsi & Hwf & Hok & HG & Hc & Hent & Hmc & Hlk).
  unfold WLocking.ContainsKey. rewrite Hs. cbn [mbind option_bind].
  rewrite (containsKey_spec _ (enter m s) ls) by done.
  cbn [enter seg heap mbind option_bind]. rewrite Hlk. do 2 f_equal.
  destruct (Z.eqb_spec (count s) 0) as [Hz|]; [|done].
  pose proof (segment_entries_le m _ s Hsi) as Hle. rewrite Hent in Hle.
  rewrite Hc in Hz. apply i32_zero in Hz; [|lia].
  destruct (segOk_bucket _ _ _ ls (hash2 (hashI k)) Hok)
    as (p & l & _ & Hl & _).
  rewrite (lookupIn_bucket _ (mheap m) s ls l _ _ Hwf Hok Hl).
  assert (l = []) as ->; [|by rewrite bool_decide_eq_false_2 by (by intros ?)].
  apply length_zero_iff_nil.
  pose proof (length_join_insert ls _ l [] Hl) as Hj. cbn [length] in Hj. lia.
Qed.

(** What [Get] returns after a method that changed the value of one key. *)
Lemma Get_after m m' k new :
  mapOk m → mapOk m' →
  Z.of_nat (length (mapEntries m)) < 2 ^ 32 →
  Z.of_nat (length (mapEntries m')) < 2 ^ 32 →
  (∀ k', lookup m' k' = if decide (k' = k) then new else lookup m k') →
  ∀ k', WLocking.Get hashI hash2 m' (Some k')
        = if decide (k' = k) then Some (new, None)
          else WLocking.Get hashI hash2 m (Some k').
Proof.
  intros Hm Hm' Hs Hs' Hlk k'. rewrite !Get_spec by done. rewrite Hlk.
  by destruct (decide (k' = k)).
Qed.

Lemma Size_entries m : mapOk m → Size m = i32 (Z.of_nat (length (mapEntries m))).
Proof. by intros (_ & _ & _ & Hmc). Qed.



(** X3: [Remove], on a map that a serial run reached and that holds less than
    [2^32] entries, for a key that is not nil: both variants return the
    value [Get] returned for the key before (nil for a key that is not in
    the map) and end in the same state; there [Get] returns nil for the
    key and what it returned before for every other key; [Size] is one
    less when the key was in the map, and as before otherwise. *)
Theorem Remove_law m k (fuel : nat) :
  reachable m → Z.of_nat (length (mapEntries m)) < 2 ^ 32 →
  ∃ m' (prev : iface Value),
    WLocking.Remove hashI hash2 m (Some k) = Some (m', (prev, None)) ∧
    LockFree.Remove hashI hash2 (S fuel) m (Some k)
      = Some (m', (prev, None)) ∧
    WLocking.Get hashI hash2 m (Some k) = Some (prev, None) ∧
    (∀ k', WLocking.Get hashI hash2 m' (Some k')
           = if decide (k' = k) then Some (None, None)
             else WLocking.Get hashI hash2 m (Some k')) ∧
    Size m' = (if isNil prev then Size m else i32 (Size m - 1)) ∧
    length (mapEntries m')
    = (if isNil prev then length (mapEntries m)
       else pred (length (mapEntries m))) ∧
    reachable m'.
Proof.
  intros Hr Hsize. pose proof (reachable_ok _ _ _ Hr) as Hm.
  destruct (Remove_spec hashI hash2 m k Hm) as (m' & Hrem & Hm' & Hlk & Hlen).
  exists m', (lookup m k).
  rewrite serial_Remove, Hrem, Get_spec by (done || lia).
  assert (Z.of_nat (length (mapEntries m')) < 2 ^ 32) as Hsize'
    by (destruct (lookup m k); lia).
  split_and!; try done.
  - by apply Get_after.
  - rewrite !Size_entries, Hlen by done.
    destruct (lookup m k); cbn [isNil]; [|f_equal; lia].
    rewrite <-Z.add_opp_r, i32_add_l. done.
  - destruct (lookup m k); cbn [isNil]; lia.
  - eapply reach_WL with (op := OpRemove (Some k)); [done|].
    cbn [applyWL]. by rewrite Hrem.
Qed.


(** X5: [Replace], on a map that a serial run reached and that holds less
    than [2^32] entries, for a key and a value that are not nil: both
    variants return the value
    [Get] returned for the key before and end in the same state; when
    there was a value the key has the new one, and when there was none the
    key is still not in the map; nothing has changed for the other keys,
    nor [Size]. *)
Theorem Replace_law m k (w : Value) (fuel : nat) :
  reachable m → Z.of_nat (length (mapEntries m)) < 2 ^ 32 →
  ∃ m' (prev : iface Value),
    WLocking.Replace hashI hash2 m (Some k) (Some w)
      = Some (m', (prev, None)) ∧
    LockFree.Replace hashI hash2 (S fuel) m (Some k) (Some w)
      = Some (m', (prev, None)) ∧
    WLocking.Get hashI hash2 m (Some k) = Some (prev, None) ∧
    (∀ k', WLocking.Get hashI hash2 m' (Some k')
           = if decide (k' = k ∧ prev ≠ None) then Some (Some w, None)
             else WLocking.Get hashI hash2 m (Some k')) ∧
    Size m' = Size m ∧
    length (mapEntries m') = length (mapEntries m) ∧
    reachable m'.
Proof.
  intros Hr Hsize. pose proof (reachable_ok _ _ _ Hr) as Hm.
  destruct (Replace_spec hashI hash2 m k (Some w) Hm ltac:(done))
    as (m' & Hrep & Hm' & Hlk & Hlen).
  exists m', (lookup m k).
  rewrite serial_Replace, Hrep, Get_spec by (done || lia).
  split_and!; try done.
  - intros k'. rewrite (Get_after m m' k _ Hm Hm') by (done || lia).
    destruct (decide (k' = k)) as [->|Hne].
    + rewrite Get_spec by (done || lia).
      destruct (lookup m k) eqn:E.
      * by rewrite decide_True.
      * by rewrite decide_False by (by intros [_ ?]).
    + by rewrite decide_False by (by intros [? _]).
  - by rewrite !Size_entries, Hlen.
  - eapply reach_WL with (op := OpReplace (Some k) (Some w)); [done|].
    cbn [applyWL]. by rewrite Hrep.
Qed.


(** X7: [ContainsKey] returns [true] exactly for the keys for which [Get]
    returns a value, in both variants, on a map that a serial run reached
    and that holds less than [2^32] entries. *)
Theorem ContainsKey_iff_Get m k :
  reachable m → Z.of_nat (length (mapEntries m)) < 2 ^ 32 →
  ∃ g : iface Value,
    WLocking.Get hashI hash2 m (Some k) = Some (g, None) ∧
    LockFree.Get hashI hash2 m (Some k) = Some (g, None) ∧
    WLocking.ContainsKey hashI hash2 m (Some k)
      = Some (negb (isNil g), None) ∧
    LockFree.ContainsKey hashI hash2 m (Some k)
      = Some (negb (isNil g), None).
Proof.
  intros Hm%reachable_ok Hsize. exists (lookup m k).
  rewrite serial_Get, serial_ContainsKey, Get_spec, ContainsKey_spec by done.
  split_and!; try done; destruct (lookup m k); done.
Qed.

(** X11: A nil key is refused with [NilKeyError] by every method, and a nil
    value with [NilValueError] by the methods that take one, the key being
    tested first; the map is left as it is.  This holds in every state, in
    both variants, before any round of a retry loop. *)
Theorem nil_arguments_refused m k (v o n : iface Value) (fuel : nat) :
  (WLocking.Get hashI hash2 m None = Some (None, Some NilKeyError) ∧
   WLocking.ContainsKey hashI hash2 m None = Some (false, Some NilKeyError) ∧
   WLocking.Put hashI hash2 m None v = Some (m, (None, Some NilKeyError)) ∧
   WLocking.PutIfAbsent hashI hash2 m None v
     = Some (m, (None, Some NilKeyError)) ∧
   WLocking.Remove hashI hash2 m None = Some (m, (None, Some NilKeyError)) ∧
   WLocking.RemoveEntry hashI hash2 m None v
     = Some (m, (false, Some NilKeyError)) ∧
   WLocking.Replace hashI hash2 m None v
     = Some (m, (None, Some NilKeyError)) ∧
   WLocking.CompareAndReplace hashI hash2 m None o n
     = Some (m, (false, Some NilKeyError))) ∧
  (WLocking.Put hashI hash2 m (Some k) None
     = Some (m, (None, Some NilValueError)) ∧
   WLocking.PutIfAbsent hashI hash2 m (Some k) None
     = Some (m, (None, Some NilValueError)) ∧
   WLocking.RemoveEntry hashI hash2 m (Some k) None
     = Some (m, (false, Some NilValueError)) ∧
   WLocking.Replace hashI hash2 m (Some k) None
     = Some (m, (None, Some NilValueError)) ∧
   WLocking.CompareAndReplace hashI hash2 m (Some k) None n
     = Some (m, (false, Some NilValueError)) ∧
   WLocking.CompareAndReplace hashI hash2 m (Some k) o None
     = Some (m, (false, Some NilValueError))) ∧
  (LockFree.Get hashI hash2 m None = Some (None, Some NilKeyError) ∧
   LockFree.ContainsKey hashI hash2 m None = Some (false, Some NilKeyError) ∧
   LockFree.Put hashI hash2 fuel m None v
     = Some (m, (None, Some NilKeyError)) ∧
   LockFree.PutIfAbsent hashI hash2 fuel m None v
     = Some (m, (None, Some NilKeyError)) ∧
   LockFree.Remove hashI hash2 fuel m None
     = Some (m, (None, Some NilKeyError)) ∧
   LockFree.RemoveEntry hashI hash2 fuel m None v
     = Some (m, (false, Some NilKeyError)) ∧
   LockFree.Replace hashI hash2 fuel m None v
     = Some (m, (None, Some NilKeyError)) ∧
   LockFree.CompareAndReplace hashI hash2 fuel m None o n
     = Some (m, (false, Some NilKeyError))) ∧
  (LockFree.Put hashI hash2 fuel m (Some k) None
     = Some (m, (None, Some NilValueError)) ∧
   LockFree.PutIfAbsent hashI hash2 fuel m (Some k) None
     = Some (m, (None, Some NilValueError)) ∧
   LockFree.RemoveEntry hashI hash2 fuel m (Some k) None
     = Some (m, (false, Some NilValueError)) ∧
   LockFree.Replace hashI hash2 fuel m (Some k) None
     = Some (m, (None, Some NilValueError)) ∧
   LockFree.CompareAndReplace hashI hash2 fuel m (Some k) None n
     = Some (m, (false, Some NilValueError)) ∧
   LockFree.CompareAndReplace hashI hash2 fuel m (Some k) o None
     = Some (m, (false, Some NilValueError))).
Proof.
  split_and!; try reflexivity.
  - unfold WLocking.CompareAndReplace. by destruct o.
  - unfold LockFree.CompareAndReplace. by destruct o.
Qed.

(** X12: Run serially, every method of the CAS-based map that has a retry loop
    ends in the first round of the loop, with the results and in the state
    of the same method of the lock-striped map; the methods that only read
    are the same in both.  This holds in every state of the map. *)
Theorem serial_runs_agree m (ky : iface Key) (v o n : iface Value)
    (fuel : nat) :
  LockFree.Get hashI hash2 m ky = WLocking.Get hashI hash2 m ky ∧
  LockFree.ContainsKey hashI hash2 m ky
    = WLocking.ContainsKey hashI hash2 m ky ∧
  LockFree.Put hashI hash2 (S fuel) m ky v = WLocking.Put hashI hash2 m ky v ∧
  LockFree.PutIfAbsent hashI hash2 (S fuel) m ky v
    = WLocking.PutIfAbsent hashI hash2 m ky v ∧
  LockFree.Remove hashI hash2 (S fuel) m ky = WLocking.Remove hashI hash2 m ky ∧
  LockFree.RemoveEntry hashI hash2 (S fuel) m ky v
    = WLocking.RemoveEntry hashI hash2 m ky v ∧
  LockFree.Replace hashI hash2 (S fuel) m ky v
    = WLocking.Replace hashI hash2 m ky v ∧
  LockFree.CompareAndReplace hashI hash2 (S fuel) m ky o n
    = WLocking.CompareAndReplace hashI hash2 m ky o n.
Proof.
  split_and!.
  - apply serial_Get.
  - apply serial_ContainsKey.
  - apply serial_putWith.
  - apply serial_putWith.
  - apply serial_Remove.
  - apply serial_RemoveEntry.
  - apply serial_Replace.
  - apply serial_CompareAndReplace.
Qed.

(** X10: A map just made by the constructor has no entry: [Size] is [0], and
    for every key [Get] returns nil and [ContainsKey] returns [false], in
    both variants. *)
Theorem new_map_empty initialCapacity loadFactor concurrencyLevel m k :
  newMap3 initialCapacity loadFactor concurrencyLevel = Done m →
  Size m = 0 ∧ mapEntries m = [] ∧
  WLocking.Get hashI hash2 m (Some k) = Some (None, None) ∧
  LockFree.Get hashI hash2 m (Some k) = Some (None, None) ∧
  WLocking.ContainsKey hashI hash2 m (Some k) = Some (false, None) ∧
  LockFree.ContainsKey hashI hash2 m (Some k) = Some (false, None).
Proof.
  intros Hnew.
  destruct (newMap3_ok hashI hash2 _ _ _ _ Hnew) as (Hm & Hent & Hlk).
  rewrite serial_Get, serial_ContainsKey, Get_spec, ContainsKey_spec
    by (done || by rewrite Hent).
  rewrite Hlk, Size_entries, Hent by done. split_and!; try done.
Qed.

End ApiLaws.


(** ** The entries of a map and what [Get] returns *)

Section Abstraction.
Context {Key Value : Type}.
Context `{!EqDecision Key, !EqDecision Value}.
Variable hashI : Key → Z.
Variable hash2 : Z → Z.

Implicit Types (k : Key) (m : @ConcurrentMap Key Value) (v : iface Value).
Implicit Types (x y : addr * @Entry Key Value) (s : Segment).

Abbreviation mapOk := (mapOk hashI hash2).
Abbreviation lookup := (lookup hashI hash2).
Abbreviation mapEntries := (@mapEntries Key Value).
Abbreviation reachable := (reachable hashI hash2).


(** The entries of a map in order: where they are, and what is in them. *)
Lemma mapEntries_elem m x :
  x ∈ mapEntries m ↔
  ∃ (i : nat) s, segments m !! i = Some s ∧ x ∈ tableEntries (mheap m) (table s).
Proof.
  unfold mapEntries. rewrite list_elem_of_join. split.
  - intros (l & Hx & (s & -> & Hs)%list_elem_of_fmap).
    apply list_elem_of_lookup in Hs as (i & Hs). by exists i, s.
  - intros (i & s & Hs & Hx). eexists. split; [done|].
    apply list_elem_of_fmap. exists s. split; [done|].
    by eapply list_elem_of_lookup_2.
Qed.


Lemma lookup_entry m k (w : Value) :
  mapOk m → lookup m k = Some w →
  ∃ x, x ∈ mapEntries m ∧ key x.2 = k ∧ value x.2 = Some w.
Proof.
  intros Hm Hlk.
  destruct (mapOk_enter hashI hash2 m k Hm)
    as (s & ls & _ & Hsi & Hwf & Hok & _ & _ & Hent & _ & Hlk').
  rewrite Hlk' in Hlk.
  destruct (segOk_bucket _ _ _ ls (hash2 (hashI k)) Hok)
    as (p & l & _ & Hl & _).
  rewrite (lookupIn_bucket _ _ s ls l _ _ Hwf Hok Hl) in Hlk.
  unfold valueIn in Hlk.
  destruct (findIn l k (hash2 (hashI k))) as [x|] eqn:Hf; [|done].
  cbn in Hlk. apply findIn_Some in Hf as (Hx & _ & Hk).
  exists x. split_and!; [|done..].
  apply mapEntries_elem. eexists _, s. split; [done|].
  rewrite Hent. apply list_elem_of_join. exists l. split; [done|].
  by eapply list_elem_of_lookup_2.
Qed.



(** X14: In every state that a serial run reaches, an entry in the chain of
    bucket [b] of segment [i] is in the heap, has the hash of its key,
    which selects segment [i] and bucket [b], and a value that is not
    nil. *)
Theorem entries_in_place m (i b : nat) s (p : option addr) x :
  reachable m → segments m !! i = Some s → table s !! b = Some p →
  x ∈ chainOf (mheap m) p →
  mheap m !! x.1 = Some x.2 ∧
  hash x.2 = hash2 (hashI (key x.2)) ∧
  segmentIndex m (hash x.2) = Z.of_nat i ∧
  bucketIndex (table s) (hash x.2) = Z.of_nat b ∧
  value x.2 ≠ None.
Proof.
  intros Hm%reachable_ok Hs Hp Hx. pose proof Hm as (Hwf & _ & Hall & _).
  destruct (Hall i s Hs) as (ls & Hok & _).
  pose proof Hok as (Hb & (kc & Hkc & Hlen) & Hch).
  destruct (Forall2_lookup_l _ _ _ _ _ Hb Hp) as (l & Hl & Hc).
  rewrite (chainOf_chain _ _ l) in Hx by done.
  destruct (Hch b l Hl) as [_ Hents]. rewrite Forall_forall in Hents.
  destruct (Hents x Hx) as (Hbx & Hv & Hh & Hi).
  destruct (bucketOf_lt (table s) (hash x.2) kc Hkc Hlen) as [_ Hbi].
  destruct (mapOk_segmentFor hashI hash2 m (hash x.2) Hm) as (_ & _ & _ & Hnn).
  split_and!; try done.
  - by eapply chain_lookup.
  - unfold segmentIndex in *. lia.
  - by rewrite Hbi, Hbx.
Qed.

(** X15: In every state that a serial run reaches, the number of segments is a
    power of two up to [2^16] with [segmentMask] one below it, the bucket
    array of every segment has a power of two of slots, from [1] to
    [2^30], the [count] of a segment is the number of entries in its
    chains and the count of the map is the number of all entries, both as
    an [int32]. *)
Theorem structure_kept m :
  reachable m →
  (∃ ks, 0 ≤ ks ≤ 16 ∧ Z.of_nat (length (segments m)) = 2 ^ ks ∧
         segmentMask m = 2 ^ ks - 1) ∧
  (∀ s, s ∈ segments m →
     (∃ kc, 0 ≤ kc ≤ 30 ∧ Z.of_nat (length (table s)) = 2 ^ kc) ∧
     count s = i32 (Z.of_nat (length (tableEntries (mheap m) (table s))))) ∧
  Size m = i32 (Z.of_nat (length (mapEntries m))).
Proof.
  intros (Hwf & (ks & ? & ? & ?) & Hall & Hmc)%reachable_ok. split_and!.
  - by exists ks.
  - intros s [i Hs]%list_elem_of_lookup.
    destruct (Hall i s Hs) as (ls & (Hb & Hlen & _) & Hc).
    split; [done|]. by rewrite (tableEntries_buckets _ _ ls).
  - done.
Qed.

End Abstraction.


(** ** [Clear] *)

Section Clearing.
Context {Key Value : Type}.
Context `{!EqDecision Key, !EqDecision Value}.
Variable hashI : Key → Z.
Variable hash2 : Z → Z.

Implicit Types (k : Key) (m : @ConcurrentMap Key Value) (v : iface Value).
Implicit Types (s : Segment).

Abbreviation mapOk := (mapOk hashI hash2).
Abbreviation lookup := (lookup hashI hash2).
Abbreviation mapEntries := (@mapEntries Key Value).
Abbreviation reachable := (reachable hashI hash2).

(** [clear] leaves the segment without entries, when its [count] tells
    whether it has any. *)
Lemma clear_at m (i : nat) s :
  mapOk m → Z.of_nat (length (mapEntries m)) < 2 ^ 32 →
  segments m !! i = Some s →
  let m' := leave m (Z.of_nat i) (clear (enter m s)) in
  mheap m' = mheap m ∧
  (length (mapEntries m') ≤ length (mapEntries m))%nat ∧
  ∃ s', segments m' = <[i := s']> (segments m) ∧
        tableEntries (mheap m) (table s') = [].
Proof.
  intros Hm Hsize Hs m'. pose proof Hm as (Hwf & _ & Hall & _).
  destruct (Hall i s Hs) as (ls & Hok & Hc).
  pose proof (segment_entries_le m i s Hs) as Hle.
  rewrite (tableEntries_buckets _ _ ls) in Hle by (done || by destruct Hok).
  unfold m', clear. cbn [enter seg heap ntables sumCount].
  destruct (Z.eqb_spec (count s) 0) as [Hz|Hnz]; cbn [negb].
  - unfold leave. cbn [mheap segments seg heap]. rewrite Nat2Z.id.
    split_and!; [done| |].
    + unfold mapEntries. cbn [mheap segments].
      by rewrite list_insert_id.
    + exists s. split; [done|].
      rewrite (tableEntries_buckets _ _ ls) by (done || by destruct Hok).
      rewrite Hc in Hz. apply i32_zero in Hz; [|lia].
      apply length_zero_iff_nil. lia.
  - set (s' := mkSegment 0 (threshold s) (pTable s)
                 (replicate (length (table s)) None) (loadFactor s)).
    set (st' := mkSegSt (mheap m) (mtables m)
                  (i32 (mcount m + i32 (-1 * count s))) s').
    pose proof Hok as (Hb & (kc & Hkc & Hlen) & _).
    assert (length (table s) = Z.to_nat (2 ^ kc)) as Hn by lia.
    assert (segOk (routed hashI hash2 (segmentShift m) (segmentMask m) i)
              (mheap m) s' (replicate (Z.to_nat (2 ^ kc)) [])) as Hok'.
    { apply segOk_empty; [done|]. unfold s'. cbn. by rewrite Hn. }
    pose proof (mapEntries_leave m i s st' _ _ Hs Hwf Hok'
                  ltac:(done)) as Hl.
    rewrite join_replicate_nil in Hl. cbn [length] in Hl.
    split_and!; [done|lia|].
    exists s'. unfold leave. cbn [segments seg st']. rewrite Nat2Z.id.
    split; [done|]. apply tableEntries_empty.
Qed.

Lemma join_all_nil {A} (lss : list (list A)) :
  (∀ l, l ∈ lss → l = []) → mjoin lss = [].
Proof.
  induction lss as [|l lss IH]; intros H; [done|].
  change (mjoin (l :: lss)) with (l ++ mjoin lss).
  rewrite (H l) by left. cbn. apply IH. intros l' Hl'. apply H. by right.
Qed.

(** The loop of [Clear], from segment [j] on. *)
Lemma Clear_loop (n j : nat) m0 m :
  mapOk m → Z.of_nat (length (mapEntries m)) < 2 ^ 32 →
  mheap m = mheap m0 → length (segments m) = (j + n)%nat →
  (∀ (i : nat) s, (i < j)%nat → segments m !! i = Some s →
     tableEntries (mheap m0) (table s) = []) →
  let m' := foldl (λ m (i : nat),
                     match index (segments m) (Z.of_nat i) with
                     | Some s => leave m (Z.of_nat i) (clear (enter m s))
                     | None => m
                     end) m (seq j n) in
  mapOk m' ∧ mheap m' = mheap m0 ∧
  ∀ s, s ∈ segments m' → tableEntries (mheap m0) (table s) = [].
Proof.
  revert j m. induction n as [|n IH]; intros j m Hm Hsize Hh Hlen Hdone.
  - cbn. split_and!; [done..|].
    intros s [i Hs]%list_elem_of_lookup. apply (Hdone i s); [|done].
    apply lookup_lt_Some in Hs. lia.
  - cbn [seq foldl]. rewrite index_nat.
    destruct (lookup_lt_is_Some_2 (segments m) j) as [s Hs]; [lia|].
    rewrite Hs.
    destruct (clear_at m j s Hm Hsize Hs) as (Hh' & Hle & s' & Hsegs & Hs').
    apply IH.
    + by apply clear_ok.
    + lia.
    + by rewrite Hh'.
    + rewrite Hsegs, length_insert. lia.
    + intros i si Hi. rewrite Hsegs. destruct (decide (i = j)) as [->|Hne].
      * rewrite list_lookup_insert_eq by (by eapply lookup_lt_Some).
        intros [= <-]. by rewrite <-Hh.
      * rewrite list_lookup_insert_ne by done. apply Hdone. lia.
Qed.

(** X8: [Clear], on a map that a serial run reached and that holds less than
    [2^32] entries, leaves a map without entries: [Size] is [0] and [Get]
    returns nil for every key; the map is in a state a serial run
    reaches, so every method works on it as before. *)
Theorem Clear_law m k :
  reachable m → Z.of_nat (length (mapEntries m)) < 2 ^ 32 →
  mapEntries (Clear m) = [] ∧ Size (Clear m) = 0 ∧
  WLocking.Get hashI hash2 (Clear m) (Some k) = Some (None, None) ∧
  LockFree.Get hashI hash2 (Clear m) (Some k) = Some (None, None) ∧
  reachable (Clear m).
Proof.
  intros Hr Hsize. pose proof (reachable_ok _ _ _ Hr) as Hm.
  destruct (Clear_loop (length (segments m)) 0 m m Hm Hsize eq_refl eq_refl)
    as (Hm' & Hh & Hempty); [lia|]. fold (Clear m) in Hm', Hh, Hempty.
  assert (mapEntries (Clear m) = []) as Hent.
  { unfold mapEntries. apply join_all_nil.
    intros l (s & -> & Hs)%list_elem_of_fmap. rewrite Hh. by apply Hempty. }
  assert (lookup (Clear m) k = None) as Hlk.
  { destruct (lookup (Clear m) k) as [w|] eqn:E; [|done].
    destruct (lookup_entry hashI hash2 _ _ _ Hm' E) as (x & Hx & _).
    rewrite Hent in Hx. by apply elem_of_nil in Hx. }
  rewrite serial_Get, Get_spec, Hlk by (done || by rewrite Hent).
  split_and!; try done.
  - by rewrite (Size_entries hashI hash2), Hent.
  - by eapply reach_WL with (op := OpClear).
Qed.

End Clearing.


(** ** The fields of an entry that are written once *)

Section WrittenOnce.
Context {Key Value : Type}.
Context `{!EqDecision Key, !EqDecision Value}.
Variable hashI : Key → Z.
Variable hash2 : Z → Z.

Implicit Types (k : Key) (m : @ConcurrentMap Key Value) (v : iface Value).
Implicit Types (h : list (@Entry Key Value)) (s : Segment).

Abbreviation mapOk := (mapOk hashI hash2).
Abbreviation reachable := (reachable hashI hash2).

Lemma heapStep_fields k hs h h' (a : addr) en :
  heapStep k hs h h' → h !! a = Some en →
  ∃ en', h' !! a = Some en' ∧
         key en' = key en ∧ hash en' = hash en ∧ next en' = next en ∧
         (value en' ≠ value en → key en = k).
Proof.
  intros (cl & [-> | (b & eb & w & Hb & Hk & Hh & ->)]) Ha.
  - exists en. split_and!; try done. by apply lookup_app_l_Some.
  - pose proof (lookup_app_l_Some _ cl _ _ Ha) as Ha'.
    destruct (decide (a = b)) as [->|Hne].
    + assert (eb = en) as -> by congruence.
      exists (withValue w en).
      rewrite list_lookup_insert_eq by (by eapply lookup_lt_Some). done.
    + exists en. rewrite list_lookup_insert_ne by done. done.
Qed.

Lemma Clear_heap m : mheap (Clear m) = mheap m.
Proof.
  unfold Clear. generalize (seq 0 (length (segments m))). intros l.
  revert m. induction l as [|i l IH]; intros m; [done|].
  cbn [foldl]. rewrite IH. destruct (index _ _) as [s|]; [|done].
  unfold leave, clear, enter. cbn. by destruct (negb _).
Qed.

(** How the heap changes in one operation of the lock-striped map. *)
Lemma applyWL_heap m op m' :
  mapOk m → applyWL hashI hash2 m op = Some m' →
  mheap m' = mheap m ∨
  match op with
  | OpPut ky _ | OpPutIfAbsent ky _ | OpRemove ky | OpRemoveEntry ky _
  | OpReplace ky _ | OpCompareAndReplace ky _ _ =>
      ∃ k hs, ky = Some k ∧ heapStep k hs (mheap m) (mheap m')
  | OpClear => False
  end.
Proof.
  intros Hm.
  destruct op as [[k|] [v|]|[k|] [v|]|[k|]|[k|] [v|]|[k|] [v|]
                  |[k|] [o|] [n|]|]; cbn [applyWL];
    try (intros [= <-]; by left).
  - destruct (mapOk_enter hashI hash2 m k Hm)
      as (s & ls & Hs & _ & Hwf & Hok & HG & Hc & _).
    destruct (put_spec _ (enter m s) ls k (hash2 (hashI k)) (Some v) false
                Hwf Hok HG ltac:(done) Hc)
      as (st' & _ & Hput & _ & _ & Hstep & _).
    unfold WLocking.Put, WLocking.putWith. cbn [isNil]. rewrite Hs.
    cbn [mbind option_bind]. rewrite Hput. cbn. intros [= <-].
    right. by exists k, (hash2 (hashI k)).
  - destruct (mapOk_enter hashI hash2 m k Hm)
      as (s & ls & Hs & _ & Hwf & Hok & HG & Hc & _).
    destruct (put_spec _ (enter m s) ls k (hash2 (hashI k)) (Some v) true
                Hwf Hok HG ltac:(done) Hc)
      as (st' & _ & Hput & _ & _ & Hstep & _).
    unfold WLocking.PutIfAbsent, WLocking.putWith. cbn [isNil]. rewrite Hs.
    cbn [mbind option_bind]. rewrite Hput. cbn. intros [= <-].
    right. by exists k, (hash2 (hashI k)).
  - destruct (mapOk_enter hashI hash2 m k Hm)
      as (s & ls & Hs & _ & Hwf & Hok & _).
    destruct (remove_spec _ (enter m s) ls k (hash2 (hashI k)) None Hwf Hok)
      as (st' & _ & Hrem & _ & _ & Hstep & _).
    unfold WLocking.Remove. rewrite Hs.
    cbn [mbind option_bind]. rewrite Hrem. cbn. intros [= <-].
    right. by exists k, (hash2 (hashI k)).
  - destruct (mapOk_enter hashI hash2 m k Hm)
      as (s & ls & Hs & _ & Hwf & Hok & _).
    destruct (remove_spec _ (enter m s) ls k (hash2 (hashI k)) (Some v)
                Hwf Hok)
      as (st' & _ & Hrem & _ & _ & Hstep & _).
    unfold WLocking.RemoveEntry. cbn [isNil]. rewrite Hs.
    cbn [mbind option_bind]. rewrite Hrem. cbn. intros [= <-].
    right. by exists k, (hash2 (hashI k)).
  - destruct (mapOk_enter hashI hash2 m k Hm)
      as (s & ls & Hs & _ & Hwf & Hok & _).
    destruct (replace_spec _ (enter m s) ls k (hash2 (hashI k)) (Some v)
                Hwf Hok ltac:(done))
      as (st' & _ & Hrep & _ & _ & Hstep & _).
    unfold WLocking.Replace. cbn [isNil]. rewrite Hs.
    cbn [mbind option_bind]. rewrite Hrep. cbn. intros [= <-].
    right. by exists k, (hash2 (hashI k)).
  - destruct (mapOk_enter hashI hash2 m k Hm)
      as (s & ls & Hs & _ & Hwf & Hok & _).
    destruct (replaceWithOld_spec _ (enter m s) ls k (hash2 (hashI k))
                (Some o) (Some n) Hwf Hok ltac:(done) ltac:(done))
      as (st' & _ & Hrep & _ & _ & Hstep & _).
    unfold WLocking.CompareAndReplace. cbn [isNil orb]. rewrite Hs.
    cbn [mbind option_bind]. rewrite Hrep. cbn. intros [= <-].
    right. by exists k, (hash2 (hashI k)).
  - intros [= <-]. left. apply Clear_heap.
Qed.

(** X16: In every state that a serial run reaches, an operation of either
    variant leaves every entry of the heap at its address, with the key,
    the hash and the [next] pointer it had; its value can only have
    changed if the operation was called for its key; new entries come
    behind the old ones. *)
Theorem fields_written_once m op m' (fuel : nat) (a : addr) en :
  reachable m →
  applyWL hashI hash2 m op = Some m' ∨ applyLF hashI hash2 fuel m op = Some m' →
  mheap m !! a = Some en →
  (length (mheap m) ≤ length (mheap m'))%nat ∧
  ∃ en', mheap m' !! a = Some en' ∧
         key en' = key en ∧ hash en' = hash en ∧ next en' = next en ∧
         (value en' ≠ value en →
          match op with
          | OpPut ky _ | OpPutIfAbsent ky _ | OpRemove ky | OpRemoveEntry ky _
          | OpReplace ky _ | OpCompareAndReplace ky _ _ => ky = Some (key en)
          | OpClear => False
          end).
Proof.
  intros Hm%reachable_ok Hop Ha.
  assert (applyWL hashI hash2 m op = Some m') as Hwl.
  { destruct Hop as [?|?]; [done|by eapply applyLF_WL]. }
  clear Hop.
  destruct (applyWL_heap m op m' Hm Hwl) as [Heq|Hstep].
  { rewrite Heq. split; [done|]. exists en. split_and!; done. }
  assert (∃ k hs, heapStep k hs (mheap m) (mheap m') ∧
            match op with
            | OpPut ky _ | OpPutIfAbsent ky _ | OpRemove ky
            | OpRemoveEntry ky _ | OpReplace ky _
            | OpCompareAndReplace ky _ _ => ky = Some k
            | OpClear => False
            end) as (k & hs & Hs & Hk).
  { destruct op; try done; destruct Hstep as (k0 & hs0 & -> & ?);
      by exists k0, hs0. }
  split.
  { destruct Hs as (cl & [-> | (b & eb & w & _ & _ & _ & ->)]);
      rewrite ?length_insert, length_app; lia. }
  destruct (heapStep_fields k hs _ _ a en Hs Ha)
    as (en' & Ha' & Hke & Hh & Hn & Hv).
  exists en'. split_and!; try done. intros Hne. specialize (Hv Hne).
  destruct op; try done; by rewrite Hk, Hv.
Qed.

End WrittenOnce.


(** ** Iteration *)

Section Iteration.
Context {Key Value : Type}.
Context `{!EqDecision Key, !EqDecision Value}.

Implicit Types (m : @ConcurrentMap Key Value) (it : MapIterator).
Implicit Types (h : list (@Entry Key Value)) (tab : list (option addr)).
Implicit Types (x y : addr * @Entry Key Value) (s : Segment).














End Iteration.

Section IterationOfMaps.
Context {Key Value : Type}.
Context `{!EqDecision Key, !EqDecision Value}.
Variable hashI : Key → Z.
Variable hash2 : Z → Z.

Implicit Types (k : Key) (m : @ConcurrentMap Key Value).

Abbreviation mapOk := (mapOk hashI hash2).
Abbreviation mapEntries := (@mapEntries Key Value).
Abbreviation reachable := (reachable hashI hash2).



End IterationOfMaps.


(** ** [PutAll] and the [Remove] of the iterator *)

Section Bulk.
Context {Key Value : Type}.
Context `{!EqDecision Key, !EqDecision Value}.
Variable hashI : Key → Z.
Variable hash2 : Z → Z.

Implicit Types (k : Key) (m : @ConcurrentMap Key Value) (v : iface Value).
Implicit Types (kvs : list (iface Key * iface Value)).

Abbreviation mapOk := (mapOk hashI hash2).
Abbreviation lookup := (lookup hashI hash2).
Abbreviation mapEntries := (@mapEntries Key Value).
Abbreviation reachable := (reachable hashI hash2).




(** X18: The [Remove] of an iterator whose last returned entry is the entry
    [en] of the heap of a map that a serial run reached and that holds
    less than [2^32] entries: in both variants it returns, in the state
    [Remove] of the map leaves for the key of [en], where [Get] returns
    nil for this key; the iterator has no last returned entry any more,
    and a second [Remove] panics with [IllegalStateException], as does
    the first when no entry was returned before. *)
Theorem IteratorRemove_law m (it : MapIterator) (a : addr) en (fuel : nat) :
  reachable m → Z.of_nat (length (mapEntries m)) < 2 ^ 32 →
  lastReturned it = Some a → mheap m !! a = Some en →
  ∃ m' (prev : iface Value),
    let it' := mkIter (nextSegmentIndex it) (nextTableIndex it)
                 (currentTable it) (nextEntry it) None in
    WLocking.Remove hashI hash2 m (Some (key en)) = Some (m', (prev, None)) ∧
    WLocking.IteratorRemove hashI hash2 m it = Some (Done (m', it')) ∧
    LockFree.IteratorRemove hashI hash2 (S fuel) m it
      = Some (Done (m', it')) ∧
    WLocking.Get hashI hash2 m' (Some (key en)) = Some (None, None) ∧
    WLocking.IteratorRemove hashI hash2 m' it'
      = Some (Panic IllegalStateException) ∧
    LockFree.IteratorRemove hashI hash2 (S fuel) m' it'
      = Some (Panic IllegalStateException).
Proof.
  intros Hr Hsize Hlast Ha.
  destruct (Remove_law hashI hash2 m (key en) fuel Hr Hsize)
    as (m' & prev & Hrem & Hrem' & _ & Hget & _).
  exists m', prev. cbv zeta.
  unfold WLocking.IteratorRemove, LockFree.IteratorRemove.
  rewrite Hlast, Ha. cbn [mbind option_bind lastReturned].
  rewrite Hrem, Hrem'. cbn [mbind option_bind].
  split_and!; try done. by rewrite Hget, decide_True.
Qed.

End Bulk.


(** ** The threshold *)

Section Threshold.
Context {Key Value : Type}.
Context `{!EqDecision Key, !EqDecision Value}.
Variable hashI : Key → Z.
Variable hash2 : Z → Z.

Implicit Types (k : Key) (m : @ConcurrentMap Key Value) (v : iface Value).
Implicit Types (st : @SegSt Key Value) (s : Segment).

Lemma store_length {A} (t t' : list A) (i : Z) (a : A) :
  store t i a = Some t' → length t' = length t.
Proof.
  unfold store. destruct (_ && _); [|done]. intros [= <-].
  apply length_insert.
Qed.

Ltac threshold_cases H :=
  repeat match type of H with
    | mbind _ ?x = _ => destruct x eqn:?; cbn [mbind option_bind] in H
    | match ?x with _ => _ end = _ => destruct x eqn:?
    end;
  simplify_eq.

Lemma putTail_threshold st c ky hs v (onlyIfAbsent : bool) st' r :
  WLocking.putTail st c ky hs v onlyIfAbsent = Some (st', r) →
  thresholdOk (seg st) → thresholdOk (seg st').
Proof.
  unfold WLocking.putTail, alloc. intros H Hok. cbv zeta in H.
  threshold_cases H; try done.
  unfold thresholdOk in *. cbn.
  by erewrite store_length by done.
Qed.

Lemma rehash_threshold st st' :
  WLocking.rehash st = Some st' → thresholdOk (seg st) → thresholdOk (seg st').
Proof.
  unfold WLocking.rehash, grow. intros H Hok. cbv zeta in H.
  threshold_cases H; done.
Qed.

Lemma put_threshold st ky hs v (onlyIfAbsent : bool) st' r :
  WLocking.put st ky hs v onlyIfAbsent = Some (st', r) →
  thresholdOk (seg st) → thresholdOk (seg st').
Proof.
  unfold WLocking.put. intros H Hok. cbv zeta in H.
  destruct (count (seg st) >? threshold (seg st)).
  - destruct (WLocking.rehash st) as [st1|] eqn:Hr; [|done].
    cbn [mbind option_bind] in H.
    eapply putTail_threshold; [done|]. by eapply rehash_threshold.
  - by eapply putTail_threshold.
Qed.

Lemma remove_threshold st ky hs v st' r :
  WLocking.remove st ky hs v = Some (st', r) →
  thresholdOk (seg st) → thresholdOk (seg st').
Proof.
  unfold WLocking.remove. intros H Hok. cbv zeta in H.
  threshold_cases H; try done.
  unfold thresholdOk in *. cbn.
  by erewrite store_length by done.
Qed.

Lemma replace_threshold st ky hs v st' r :
  WLocking.replace st ky hs v = Some (st', r) →
  thresholdOk (seg st) → thresholdOk (seg st').
Proof.
  unfold WLocking.replace. intros H Hok.
  threshold_cases H; done.
Qed.

Lemma replaceWithOld_threshold st ky hs o n st' (r : bool) :
  WLocking.replaceWithOld st ky hs o n = Some (st', r) →
  thresholdOk (seg st) → thresholdOk (seg st').
Proof.
  unfold WLocking.replaceWithOld. intros H Hok.
  threshold_cases H; done.
Qed.

Lemma clear_threshold st : thresholdOk (seg st) → thresholdOk (seg (clear st)).
Proof.
  unfold clear. destruct (negb _); [|done]. unfold thresholdOk. cbn.
  by rewrite length_replicate.
Qed.

Lemma leave_threshold m (i : Z) st :
  Forall thresholdOk (segments m) → thresholdOk (seg st) →
  Forall thresholdOk (segments (leave m i st)).
Proof. intros Hall Hs. unfold leave. cbn. by apply Forall_insert. Qed.

Lemma segmentFor_elem m hs s : segmentFor m hs = Some s → s ∈ segments m.
Proof.
  unfold segmentFor, index. destruct (0 <=? _); [|done].
  apply list_elem_of_lookup_2.
Qed.

Lemma Clear_threshold m :
  Forall thresholdOk (segments m) → Forall thresholdOk (segments (Clear m)).
Proof.
  unfold Clear. generalize (seq 0 (length (segments m))). intros l.
  revert m. induction l as [|i l IH]; intros m Hm; [done|].
  cbn [foldl]. apply IH. destruct (index _ _) as [s|] eqn:Hs; [|done].
  apply leave_threshold; [done|]. apply clear_threshold. cbn.
  rewrite Forall_forall in Hm. apply Hm. unfold index in Hs.
  destruct (0 <=? _); [|done]. by eapply list_elem_of_lookup_2.
Qed.

Lemma applyWL_threshold m op m' :
  Forall thresholdOk (segments m) → applyWL hashI hash2 m op = Some m' →
  Forall thresholdOk (segments m').
Proof.
  intros Hm. pose proof Hm as Hall. rewrite Forall_forall in Hall.
  destruct op as [[k|] v|[k|] v|[k|]|[k|] v|[k|] v|[k|] o n|];
    cbn [applyWL];
    unfold WLocking.Put, WLocking.PutIfAbsent, WLocking.putWith,
      WLocking.Remove, WLocking.RemoveEntry, WLocking.Replace,
      WLocking.CompareAndReplace;
    try (by intros [= <-]);
    try (destruct (isNil _ || isNil _); [by intros [= <-]|]);
    try (destruct (isNil _); [by intros [= <-]|]);
    try (destruct (segmentFor m _) as [s|] eqn:Hs; [|done];
         cbn [mbind option_bind];
         pose proof (Hall s (segmentFor_elem _ _ _ Hs)) as Hts).
  - destruct (WLocking.put _ _ _ _ _) as [[st' r]|] eqn:E; [|done].
    intros [= <-]. apply leave_threshold; [done|].
    by eapply put_threshold.
  - destruct (WLocking.put _ _ _ _ _) as [[st' r]|] eqn:E; [|done].
    intros [= <-]. apply leave_threshold; [done|].
    by eapply put_threshold.
  - destruct (WLocking.remove _ _ _ _) as [[st' r]|] eqn:E; [|done].
    intros [= <-]. apply leave_threshold; [done|].
    by eapply remove_threshold.
  - destruct (WLocking.remove _ _ _ _) as [[st' r]|] eqn:E; [|done].
    intros [= <-]. apply leave_threshold; [done|].
    by eapply remove_threshold.
  - destruct (WLocking.replace _ _ _ _) as [[st' r]|] eqn:E; [|done].
    intros [= <-]. apply leave_threshold; [done|].
    by eapply replace_threshold.
  - destruct (WLocking.replaceWithOld _ _ _ _ _) as [[st' r]|] eqn:E; [|done].
    intros [= <-]. apply leave_threshold; [done|].
    by eapply replaceWithOld_threshold.
  - intros [= <-]. by apply Clear_threshold.
Qed.

(** X24: in every state that a serial run reaches, the threshold of every
    segment is [int32(float32(len(table)) * loadFactor)], as [setTable]
    and [rehash] compute it, for the bucket array and the load factor the
    segment has. *)
Theorem threshold_kept m s :
  reachable hashI hash2 m → s ∈ segments m →
  threshold s
  = int32_of_f32 (f32_mul (f32_of_int (Z.of_nat (length (table s))))
                          (loadFactor s)).
Proof.
  intros Hr Hs. enough (Forall thresholdOk (segments m)) as Hall.
  { rewrite Forall_forall in Hall. by apply Hall. }
  clear s Hs.
  induction Hr as [c lf lvl m Hnew|m op m' _ IH Hop|fuel m op m' _ IH Hop].
  - unfold newMap3 in Hnew. destruct (_ || _); [done|].
    destruct (ssizeLoop _ _ _ _) as [[sshift ssize]|]; [|done].
    destruct (capLoop _ _ _) as [cap|]; [|done]. injection Hnew as <-.
    cbn [segments]. apply Forall_fmap, Forall_forall. by intros p _.
  - by eapply applyWL_threshold.
  - eapply applyWL_threshold; [done|]. by eapply applyLF_WL.
Qed.

End Threshold.

(** ** The sample map *)

Lemma reachable_runWL {Key Value} `{!EqDecision Key, !EqDecision Value}
    (hashI : Key → Z) (hash2 : Z → Z) (ops : list Op)
    (m m' : @ConcurrentMap Key Value) :
  reachable hashI hash2 m → runWL hashI hash2 m ops = Some m' →
  reachable hashI hash2 m'.
Proof.
  unfold runWL. revert m. induction ops as [|op ops IH]; intros m Hr.
  - by intros [= <-].
  - cbn [foldl mbind option_bind].
    destruct (applyWL hashI hash2 m op) as [m1|] eqn:Hop.
    + apply IH. by eapply reach_WL.
    + intros H. exfalso. clear -H. induction ops as [|? ? IH']; [done|].
      by apply IH'.
Qed.

Lemma sampleEmpty_reachable : reachable sampleHashI sampleHash2 sampleEmpty.
Proof.
  apply (reach_new _ _ DEFAULT_INITIAL_CAPACITY DEFAULT_LOAD_FACTOR
           DEFAULT_CONCURRENCY_LEVEL).
  vm_compute. reflexivity.
Qed.

Lemma sampleMap_reachable : reachable sampleHashI sampleHash2 sampleMap.
Proof.
  apply (reachable_runWL _ _ sampleOps sampleEmpty); [apply sampleEmpty_reachable|].
  vm_compute. reflexivity.
Qed.



(** Instances at keys in [Z] and values in [string]. *)

(** C8, as the claim has it, fails: a NaN load factor is neither positive
    nor at most zero, and the constructor refuses it. *)
Lemma newMap3_nan_refuted :
  ¬ (∀ initialCapacity lf concurrencyLevel,
       newMap3 (Key:=Z) (Value:=string) initialCapacity lf concurrencyLevel
         = Panic IllegalArgError
       ↔ f32_le lf (S754_zero false) = true
         ∨ initialCapacity < 0 ∨ concurrencyLevel ≤ 0).
Proof.
  intros H. destruct (H 64 S754_nan 16) as [H1 _].
  destruct H1 as [?|[?|?]]; [done..|lia|lia].
Qed.

Lemma newMap3_sizing_witness :
  ∃ m : @ConcurrentMap Z string,
    newMap3 0 DEFAULT_LOAD_FACTOR 17 = Done m ∧
    let segmentCount := Z.of_nat (length (segments m)) in
    smallestPow2From (17 `min` MAX_SEGMENTS) segmentCount ∧
    ∀ s, s ∈ segments m →
      1 ≤ Z.of_nat (length (table s)) ∧
      smallestPow2From (ceilDiv (0 `min` MAXIMUM_CAPACITY) segmentCount)
                       (Z.of_nat (length (table s))).
Proof.
  apply (newMap3_sizing 0 DEFAULT_LOAD_FACTOR 17); [reflexivity|lia|lia].
Defined.

Lemma NewMap_wrong_type_witness :
  NewMap (Key:=Z) (Value:=string)
    [DInt 64; DFloat64 (S754_finite false 3 (-2)); DInt 16]
  = Panic IllegalArgError.
Proof.
  apply NewMap_wrong_type. right. left. eexists. split; reflexivity.
Defined.

(** The hypotheses of [new_map_empty] hold on the sample map. *)
Lemma new_map_empty_witness :
  Size sampleEmpty = 0 ∧ mapEntries sampleEmpty = [] ∧
  WLocking.Get sampleHashI sampleHash2 sampleEmpty (Some 7) = Some (None, None) ∧
  LockFree.Get sampleHashI sampleHash2 sampleEmpty (Some 7) = Some (None, None) ∧
  WLocking.ContainsKey sampleHashI sampleHash2 sampleEmpty (Some 7) = Some (false, None) ∧
  LockFree.ContainsKey sampleHashI sampleHash2 sampleEmpty (Some 7) = Some (false, None).
Proof.
  apply (new_map_empty sampleHashI sampleHash2 DEFAULT_INITIAL_CAPACITY DEFAULT_LOAD_FACTOR DEFAULT_CONCURRENCY_LEVEL sampleEmpty 7). vm_compute; reflexivity.
Defined.



(** The hypotheses of [Remove_law] hold on the sample map. *)
Lemma Remove_law_witness :
  ∃ m' (prev : iface string),
    WLocking.Remove sampleHashI sampleHash2 sampleMap (Some 4) = Some (m', (prev, None)) ∧
    LockFree.Remove sampleHashI sampleHash2 1%nat sampleMap (Some 4)
      = Some (m', (prev, None)) ∧
    WLocking.Get sampleHashI sampleHash2 sampleMap (Some 4) = Some (prev, None) ∧
    (∀ k', WLocking.Get sampleHashI sampleHash2 m' (Some k')
           = if decide (k' = 4) then Some (None, None)
             else WLocking.Get sampleHashI sampleHash2 sampleMap (Some k')) ∧
    Size m' = (if isNil prev then Size sampleMap else i32 (Size sampleMap - 1)) ∧
    length (mapEntries m')
    = (if isNil prev then length (mapEntries sampleMap)
       else pred (length (mapEntries sampleMap))) ∧
    reachable sampleHashI sampleHash2 m'.
Proof.
  apply (Remove_law sampleHashI sampleHash2 sampleMap 4 0%nat);
    [exact sampleMap_reachable | vm_compute; reflexivity].
Defined.


(** The hypotheses of [Replace_law] hold on the sample map. *)
Lemma Replace_law_witness :
  ∃ m' (prev : iface string),
    WLocking.Replace sampleHashI sampleHash2 sampleMap (Some 8) (Some "C"%string)
      = Some (m', (prev, None)) ∧
    LockFree.Replace sampleHashI sampleHash2 1%nat sampleMap (Some 8) (Some "C"%string)
      = Some (m', (prev, None)) ∧
    WLocking.Get sampleHashI sampleHash2 sampleMap (Some 8) = Some (prev, None) ∧
    (∀ k', WLocking.Get sampleHashI sampleHash2 m' (Some k')
           = if decide (k' = 8 ∧ prev ≠ None) then Some (Some "C"%string, None)
             else WLocking.Get sampleHashI sampleHash2 sampleMap (Some k')) ∧
    Size m' = Size sampleMap ∧
    length (mapEntries m') = length (mapEntries sampleMap) ∧
    reachable sampleHashI sampleHash2 m'.
Proof.
  apply (Replace_law sampleHashI sampleHash2 sampleMap 8 "C"%string 0%nat);
    [exact sampleMap_reachable | vm_compute; reflexivity].
Defined.


(** The hypotheses of [ContainsKey_iff_Get] hold on the sample map. *)
Lemma ContainsKey_iff_Get_witness :
  ∃ g : iface string,
    WLocking.Get sampleHashI sampleHash2 sampleMap (Some 4) = Some (g, None) ∧
    LockFree.Get sampleHashI sampleHash2 sampleMap (Some 4) = Some (g, None) ∧
    WLocking.ContainsKey sampleHashI sampleHash2 sampleMap (Some 4)
      = Some (negb (isNil g), None) ∧
    LockFree.ContainsKey sampleHashI sampleHash2 sampleMap (Some 4)
      = Some (negb (isNil g), None).
Proof.
  apply (ContainsKey_iff_Get sampleHashI sampleHash2 sampleMap 4);
    [exact sampleMap_reachable | vm_compute; reflexivity].
Defined.

(** The hypotheses of [Clear_law] hold on the sample map. *)
Lemma Clear_law_witness :
  mapEntries (Clear sampleMap) = [] ∧ Size (Clear sampleMap) = 0 ∧
  WLocking.Get sampleHashI sampleHash2 (Clear sampleMap) (Some 4) = Some (None, None) ∧
  LockFree.Get sampleHashI sampleHash2 (Clear sampleMap) (Some 4) = Some (None, None) ∧
  reachable sampleHashI sampleHash2 (Clear sampleMap).
Proof.
  apply (Clear_law sampleHashI sampleHash2 sampleMap 4);
    [exact sampleMap_reachable | vm_compute; reflexivity].
Defined.


(** The hypotheses of [entries_in_place] hold on the sample map. *)
Lemma entries_in_place_witness :
  mheap sampleMap !! (1%nat, mkEntry 4 4 (Some "b"%string) (Some 0%nat)).1 = Some (1%nat, mkEntry 4 4 (Some "b"%string) (Some 0%nat)).2 ∧
  hash (1%nat, mkEntry 4 4 (Some "b"%string) (Some 0%nat)).2 = sampleHash2 (sampleHashI (key (1%nat, mkEntry 4 4 (Some "b"%string) (Some 0%nat)).2)) ∧
  segmentIndex sampleMap (hash (1%nat, mkEntry 4 4 (Some "b"%string) (Some 0%nat)).2) = Z.of_nat 0%nat ∧
  bucketIndex (table sampleSegment) (hash (1%nat, mkEntry 4 4 (Some "b"%string) (Some 0%nat)).2) = Z.of_nat 0%nat ∧
  value (1%nat, mkEntry 4 4 (Some "b"%string) (Some 0%nat)).2 ≠ None.
Proof.
  apply (entries_in_place sampleHashI sampleHash2 sampleMap 0%nat 0%nat sampleSegment (Some 2%nat) (1%nat, mkEntry 4 4 (Some "b"%string) (Some 0%nat)));
    [exact sampleMap_reachable | vm_compute; reflexivity | vm_compute; reflexivity | vm_compute; repeat constructor].
Defined.

(** The hypotheses of [structure_kept] hold on the sample map. *)
Lemma structure_kept_witness :
  (∃ ks, 0 ≤ ks ≤ 16 ∧ Z.of_nat (length (segments sampleMap)) = 2 ^ ks ∧
         segmentMask sampleMap = 2 ^ ks - 1) ∧
  (∀ s, s ∈ segments sampleMap →
     (∃ kc, 0 ≤ kc ≤ 30 ∧ Z.of_nat (length (table s)) = 2 ^ kc) ∧
     count s = i32 (Z.of_nat (length (tableEntries (mheap sampleMap) (table s))))) ∧
  Size sampleMap = i32 (Z.of_nat (length (mapEntries sampleMap))).
Proof.
  apply (structure_kept sampleHashI sampleHash2 sampleMap). exact sampleMap_reachable.
Defined.

(** The hypotheses of [fields_written_once] hold on the sample map. *)
Lemma fields_written_once_witness :
  (length (mheap sampleMap) ≤ length (mheap sampleAfter))%nat ∧
  ∃ en', mheap sampleAfter !! 1%nat = Some en' ∧
         key en' = key (mkEntry 4 4 (Some "b"%string) (Some 0%nat)) ∧ hash en' = hash (mkEntry 4 4 (Some "b"%string) (Some 0%nat)) ∧ next en' = next (mkEntry 4 4 (Some "b"%string) (Some 0%nat)) ∧
         (value en' ≠ value (mkEntry 4 4 (Some "b"%string) (Some 0%nat)) →
          match (OpPut (Some 4) (Some "B"%string)) with
          | OpPut ky _ | OpPutIfAbsent ky _ | OpRemove ky | OpRemoveEntry ky _
          | OpReplace ky _ | OpCompareAndReplace ky _ _ => ky = Some (key (mkEntry 4 4 (Some "b"%string) (Some 0%nat)))
          | OpClear => False
          end).
Proof.
  apply (fields_written_once sampleHashI sampleHash2 sampleMap (OpPut (Some 4) (Some "B"%string)) sampleAfter 0%nat 1%nat (mkEntry 4 4 (Some "b"%string) (Some 0%nat)));
    [exact sampleMap_reachable | left; vm_compute; reflexivity | vm_compute; reflexivity].
Defined.


(** The hypotheses of [IteratorRemove_law] hold on the sample map. *)
Lemma IteratorRemove_law_witness :
  ∃ m' (prev : iface string),
    let it' := mkIter (nextSegmentIndex (mkIter (-1) (-1) [] None (Some 1%nat))) (nextTableIndex (mkIter (-1) (-1) [] None (Some 1%nat)))
                 (currentTable (mkIter (-1) (-1) [] None (Some 1%nat))) (nextEntry (mkIter (-1) (-1) [] None (Some 1%nat))) None in
    WLocking.Remove sampleHashI sampleHash2 sampleMap (Some (key (mkEntry 4 4 (Some "b"%string) (Some 0%nat)))) = Some (m', (prev, None)) ∧
    WLocking.IteratorRemove sampleHashI sampleHash2 sampleMap (mkIter (-1) (-1) [] None (Some 1%nat)) = Some (Done (m', it')) ∧
    LockFree.IteratorRemove sampleHashI sampleHash2 1%nat sampleMap (mkIter (-1) (-1) [] None (Some 1%nat))
      = Some (Done (m', it')) ∧
    WLocking.Get sampleHashI sampleHash2 m' (Some (key (mkEntry 4 4 (Some "b"%string) (Some 0%nat)))) = Some (None, None) ∧
    WLocking.IteratorRemove sampleHashI sampleHash2 m' it'
      = Some (Panic IllegalStateException) ∧
    LockFree.IteratorRemove sampleHashI sampleHash2 1%nat m' it'
      = Some (Panic IllegalStateException).
Proof.
  apply (IteratorRemove_law sampleHashI sampleHash2 sampleMap (mkIter (-1) (-1) [] None (Some 1%nat)) 1%nat (mkEntry 4 4 (Some "b"%string) (Some 0%nat)) 0%nat);
    [exact sampleMap_reachable | vm_compute; reflexivity | reflexivity | vm_compute; reflexivity].
Defined.




(** The hypotheses of [rehash_doubles] hold on the sample map. *)
Lemma rehash_doubles_witness :
  let st := enter sampleMap sampleSegment in
  let n := length (table sampleSegment) in
  ∃ st',
    WLocking.rehash st = Some st' ∧
    LockFree.rehash st = Some (if count sampleSegment >? threshold sampleSegment then st' else st) ∧
    (n ≤ length (table (seg st')))%nat ∧
    (Z.of_nat n = MAXIMUM_CAPACITY → st' = st) ∧
    (Z.of_nat n ≠ MAXIMUM_CAPACITY →
     length (table (seg st')) = (2 * n)%nat ∧
     ∀ (i : nat) p x, table sampleSegment !! i = Some p → x ∈ chainOf (mheap sampleMap) p →
       let j := Z.to_nat (Z.land (hash x.2)
                            (Z.of_nat (length (table (seg st'))) - 1)) in
       (j = i ∨ j = (i + n)%nat) ∧
       ∃ p' y, table (seg st') !! j = Some p' ∧
               y ∈ chainOf (heap st') p' ∧ item y = item x) ∧
    (∀ ky hs, lookupIn (heap st') (table (seg st')) ky hs
              = lookupIn (mheap sampleMap) (table sampleSegment) ky hs).
Proof.
  apply (rehash_doubles sampleHashI sampleHash2 sampleMap sampleSegment);
    [exact sampleMap_reachable | vm_compute; repeat constructor].
Defined.



(** The hypotheses of [threshold_kept] hold on the sample map. *)
Lemma threshold_kept_witness :
  threshold sampleSegment
  = int32_of_f32 (f32_mul (f32_of_int (Z.of_nat (length (table sampleSegment))))
                          (loadFactor sampleSegment)).
Proof.
  apply (threshold_kept sampleHashI sampleHash2 sampleMap sampleSegment);
    [exact sampleMap_reachable|].
  apply (list_elem_of_lookup_2 _ 0%nat). vm_compute. reflexivity.
Defined.
